(** * Grover's search as built in [Concept/2Q.ipynb]

    The notebook defines three circuit builders, [phase_oracle], [diffuser]
    and [Grover] (with the two teaching variants [Grover_Step_I] and
    [Grover_Step_II]), on top of numpy and Qiskit.  This development embeds

    - the Python values the builders handle: integers as [Z], lists as
      [list], the numpy array [oracle_matrix] as a list of rows of reals
      updated in place, Python exceptions as an error result, and the
      double-precision numbers of the round count as integer mantissa and
      exponent with IEEE-754 rounding;
    - the circuit object the builders fill, as the ordered list of
      instructions Qiskit records;
    - a statevector semantics of these instructions (the part the notebook
      delegates to the simulator back-ends), with exact complex amplitudes;

    and proves the properties of the builders stated in the specification. *)

From Stdlib Require Import Reals Lra Lia ZArith Zfloor Machin.
From stdpp Require Import base list gmap strings pretty.

#[local] Open Scope R_scope.
#[local] Set Warnings "-register-all".

(** ** Complex amplitudes

    Qiskit's [Operator] and statevectors hold complex numbers.  They are
    pairs of reals here; the notebook's floating-point values are read as
    the exact numbers they stand for. *)

Module Cx.

Definition C : Type := R * R.

Definition RtoC (x : R) : C := (x, 0).
Definition Cre (z : C) : R := fst z.
Definition Cim (z : C) : R := snd z.
Definition C0 : C := RtoC 0.
Definition C1 : C := RtoC 1.
Definition Cplus (a b : C) : C := (fst a + fst b, snd a + snd b).
Definition Copp (a : C) : C := (- fst a, - snd a).
Definition Cminus (a b : C) : C := Cplus a (Copp b).
Definition Cmult (a b : C) : C :=
  (fst a * fst b - snd a * snd b, fst a * snd b + snd a * fst b).
Definition Cconj (a : C) : C := (fst a, - snd a).
(** [Cnorm2 a] is [|a|^2], the Born weight of an amplitude. *)
Definition Cnorm2 (a : C) : R := fst a * fst a + snd a * snd a.
(** Multiplication by a real scalar. *)
Definition Cscal (r : R) (a : C) : C := (r * fst a, r * snd a).

Definition Csum (l : list C) : C := foldr Cplus C0 l.

End Cx.
Export Cx.

Declare Scope C_scope.
Delimit Scope C_scope with C.
Bind Scope C_scope with C.
Infix "+" := Cplus : C_scope.
Infix "-" := Cminus : C_scope.
Infix "*" := Cmult : C_scope.
Notation "- x" := (Copp x) : C_scope.

(** ** Python results

    A call either returns a value or raises.  The exceptions listed are
    those of the Python, numpy and Qiskit calls the builders make. *)

Inductive exception : Type :=
| ZeroDivisionError   (* [a / 0] on Python integers *)
| OverflowError       (* a quotient too large for a double; an index that
                         does not fit numpy's signed index type *)
| IndexError          (* numpy index out of bounds *)
| CircuitError.       (* Qiskit refusing an instruction: met only on a
                         register of no qubits, see [h] *)

Inductive result (A : Type) : Type :=
| Ok (a : A)
| Raise (e : exception).
Arguments Ok {A} a.
Arguments Raise {A} e.

(** [result] is used through stdpp's monad notation [x ← m; k]. *)
#[global] Instance result_ret : MRet result := fun A a => Ok a.
#[global] Instance result_bind : MBind result := fun A B f m =>
  match m with
  | Ok a => f a
  | Raise e => Raise e
  end.

(** ** numpy arrays *)

Abbreviation matrix A := (list (list A)).

(** [np.identity(N)]: the [N] by [N] array of float 1.0 on the main
    diagonal and 0.0 elsewhere. *)
Definition np_identity (N : nat) : matrix R :=
  (fun i => (fun j => if (i =? j)%nat then 1 else 0) <$> seq 0 N) <$> seq 0 N.

(** numpy resolves an integer index [i] on an axis of length [N]:
    [0 <= i < N] is taken as it is, [-N <= i < 0] counts from the end, and
    anything else raises.  What is raised depends on the size of the
    integer: one that fits numpy's signed 64-bit index is found out of
    bounds ([IndexError]); one in [[2^63, 2^64)] is first turned into an
    unsigned array scalar, whose conversion to an index overflows
    ([OverflowError]); an integer of more than 64 bits is not accepted as
    an index at all ([IndexError]).  An axis has fewer than [2^63] entries,
    so the order of the tests does not matter. *)
Definition np_index (N : nat) (i : Z) : result nat :=
  if decide (0 ≤ i < Z.of_nat N)%Z then Ok (Z.to_nat i)
  else if decide (- Z.of_nat N ≤ i < 0)%Z then Ok (Z.to_nat (i + Z.of_nat N))
  else if decide (2 ^ 63 ≤ i < 2 ^ 64)%Z then Raise OverflowError
  else Raise IndexError.

(** [m[i, j] = x] on a two-dimensional array: both indices are resolved
    against their axes, then the cell is overwritten in place. *)
Definition np_setitem (m : matrix R) (i j : Z) (x : R) : result (matrix R) :=
  i' ← np_index (length m) i;
  j' ← np_index (length (default [] (m !! 0%nat))) j;
  Ok (alter (fun row => <[j' := x]> row) i' m).

(** [Operator(m)] turns the float array into a complex one. *)
Definition Operator (m : matrix R) : matrix C :=
  (fun row : list R => RtoC <$> row) <$> m.

(** ** Python glue *)

(** [range(n)] for a Python integer [n]: [0, 1, ..., n-1], empty when
    [n <= 0]. *)
Definition range (n : Z) : list nat := seq 0 (Z.to_nat n).
(** Register sizes are naturals and are passed to [range] as such. *)
Coercion Z.of_nat : nat >-> Z.

(** ** Double precision

    Python's [float] and numpy's [float64] are IEEE-754 binary64 numbers.
    A finite double is kept as an integer mantissa and a binary exponent,
    standing for [Fnum * 2^Fexp]; every operation returns the double
    nearest to the exact result, ties going to the even mantissa.  All of
    it is integer arithmetic. *)

Record float : Type := mkFloat { Fnum : Z; Fexp : Z }.

(** [2^e] for an integer exponent of either sign. *)
Definition bpow (e : Z) : R := powerRZ 2 e.

(** The number a double stands for. *)
Definition F2R (x : float) : R := IZR (Fnum x) * bpow (Fexp x).

(** Number of binary digits of [a]: [2^(digits a - 1) <= |a| < 2^(digits a)]. *)
Definition digits (a : Z) : Z :=
  if (a =? 0)%Z then 0%Z else (Z.log2 (Z.abs a) + 1)%Z.

(** [2^e <= a / b], for positive [a] and [b]. *)
Definition ge_pow2 (a b e : Z) : bool :=
  if (0 <=? e)%Z then (b * 2 ^ e <=? a)%Z else (b <=? a * 2 ^ (- e))%Z.

(** The binade of [a / b], for positive [a] and [b]: the [e] with
    [2^(e-1) <= a / b < 2^e]. *)
Definition mag (a b : Z) : Z :=
  let e := (digits a - digits b)%Z in
  if ge_pow2 a b e then (e + 1)%Z else e.

(** The exponent of the doubles of binade [e]: 53 digits of mantissa, and
    nothing finer than the subnormal step [2^-1074]. *)
Definition fexp (e : Z) : Z := Z.max (e - 53) (-1074).

(** The integer nearest to [A / B], the even one on a tie
    ([A >= 0], [B > 0]). *)
Definition nearest_even (A B : Z) : Z :=
  let q := (A / B)%Z in
  match (2 * (A mod B) ?= B)%Z with
  | Lt => q
  | Gt => (q + 1)%Z
  | Eq => if Z.even q then q else (q + 1)%Z
  end.

(** The double nearest to [a / b] ([a >= 0], [b > 0]), before any check
    of the range. *)
Definition round_ratio (a b : Z) : float :=
  if (a =? 0)%Z then mkFloat 0 0 else
  let c := fexp (mag a b) in
  mkFloat (if (0 <=? c)%Z then nearest_even a (b * 2 ^ c)
           else nearest_even (a * 2 ^ (- c)) b) c.

(** A double is at most [(2^53 - 1) * 2^971]; a result that rounds to
    [2^1024] or more has left the range. *)
Definition overflows (x : float) : bool :=
  (2 ^ 1024 <=? Z.abs (Fnum x) * 2 ^ Fexp x)%Z.

(** [float(a)] for a Python integer. *)
Definition float_of_int (a : Z) : float := round_ratio a 1.

(** [x / y] on doubles ([x >= 0], [y > 0]). *)
Definition float_truediv (x y : float) : float :=
  let e := (Fexp x - Fexp y)%Z in
  if (0 <=? e)%Z then round_ratio (Fnum x * 2 ^ e) (Fnum y)
  else round_ratio (Fnum x) (Fnum y * 2 ^ (- e)).

(** [x * y] on doubles ([x, y >= 0]). *)
Definition float_mul (x y : float) : float :=
  let m := (Fnum x * Fnum y)%Z in
  let e := (Fexp x + Fexp y)%Z in
  if (0 <=? e)%Z then round_ratio (m * 2 ^ e) 1 else round_ratio m (2 ^ (- e)).

(** The binade of the square root of a double [x > 0]: [x] lies in the
    binade [digits (Fnum x) + Fexp x], and the square root halves it. *)
Definition sqrt_mag (x : float) : Z := ((digits (Fnum x) + Fexp x + 1) / 2)%Z.

(** [np.sqrt(x)] for a double [x >= 0]: the double nearest to the exact
    square root.  With [c] the exponent of the result, the mantissa is the
    integer nearest to [sqrt (x / 2^(2c))]. *)
Definition np_sqrt (x : float) : float :=
  let m := Fnum x in
  if (m =? 0)%Z then mkFloat 0 0 else
  let c := fexp (sqrt_mag x) in
  let k := (Fexp x - 2 * c)%Z in
  let A := if (0 <=? k)%Z then (m * 2 ^ k)%Z else m in
  let B := if (0 <=? k)%Z then 1%Z else (2 ^ (- k))%Z in
  let q := Z.sqrt (A / B) in
  mkFloat (match (4 * A ?= (2 * q + 1) * (2 * q + 1) * B)%Z with
           | Lt => q
           | Gt => (q + 1)%Z
           | Eq => if Z.even q then q else (q + 1)%Z
           end) c.

(** [np.floor(x)]: the largest integral double below [x]; it is exact. *)
Definition np_floor (x : float) : float :=
  mkFloat (if (0 <=? Fexp x)%Z then (Fnum x * 2 ^ Fexp x)%Z
           else (Fnum x / 2 ^ (- Fexp x))%Z) 0.

(** [int(x)] for a finite double: the fractional part is dropped. *)
Definition py_int (x : float) : Z :=
  if (0 <=? Fexp x)%Z then (Fnum x * 2 ^ Fexp x)%Z
  else (Fnum x ÷ 2 ^ (- Fexp x))%Z.

(** [np.pi]: the double nearest to pi, [0x400921FB54442D18]. *)
Definition np_pi : float := mkFloat 884279719003555 (-48).

(** [a / b] on Python integers: true division.  A zero divisor raises
    [ZeroDivisionError]; otherwise the result is the double nearest to the
    exact quotient, and [OverflowError] when that is out of range. *)
Definition py_truediv (a b : Z) : result float :=
  if decide (b = 0%Z) then Raise ZeroDivisionError
  else
    let q := round_ratio (Z.abs a) (Z.abs b) in
    if overflows q then Raise OverflowError
    else Ok (mkFloat (Z.sgn a * Z.sgn b * Fnum q) (Fexp q)).

(** [for x in items: s = body(s, x)], stopping at the first exception. *)
Fixpoint for_loop {A S : Type} (body : S → A → result S) (items : list A) (s : S)
  : result S :=
  match items with
  | [] => Ok s
  | x :: rest => s' ← body s x; for_loop body rest s'
  end.

(** What a call wrote on standard output, and how it ended. *)
Definition py (A : Type) : Type := list string * result A.

#[global] Instance py_ret : MRet py := fun A a => ([], Ok a).
#[global] Instance py_bind : MBind py := fun A B f m =>
  match m with
  | (out, Ok a) => let '(out', r) := f a in (out ++ out', r)
  | (out, Raise e) => (out, Raise e)
  end.

Definition print (line : string) : py unit := ([line], Ok tt).
Definition quiet {A} (m : result A) : py A := ([], m).

(** [str(l)] of a list of integers, as an f-string renders it. *)
Definition py_str_list (l : list Z) : string :=
  "[" +:+ String.concat ", " (pretty <$> l) +:+ "]".

(** ** Circuits

    A Qiskit [QuantumCircuit] is the ordered list of the instructions
    appended to it.  [qargs] are the qubits of the enclosing circuit an
    instruction acts on, in the order given by the caller. *)

Inductive instruction : Type :=
| HGate (q : nat)
| UnitaryGate (U : matrix C) (qargs : list nat)
| SubCircuit (name : option string) (width : nat) (body : list instruction)
    (qargs : list nat)
| MeasureOp (q c : nat).

Record QuantumCircuit : Type := mkCircuit {
  name : option string;   (* [None]: the name Qiskit generates *)
  num_qubits : nat;
  num_clbits : nat;
  data : list instruction
}.

(** [QuantumCircuit(n, c, name=...)] *)
Definition new_circuit (n c : nat) (nm : option string) : QuantumCircuit :=
  mkCircuit nm n c [].

Definition emit (qc : QuantumCircuit) (ops : list instruction) : QuantumCircuit :=
  mkCircuit (name qc) (num_qubits qc) (num_clbits qc) (data qc ++ ops).

(** [qc.h(qubits)]: one Hadamard gate per listed qubit, in order.  Qiskit
    raises [CircuitError] on an empty list of qubits; the builders pass
    [range(n)], so this model of them is for registers of [n >= 1]
    qubits. *)
Definition h (qc : QuantumCircuit) (qubits : list nat) : QuantumCircuit :=
  emit qc (HGate <$> qubits).

(** [qc.unitary(U, qubits)].  Qiskit refuses a matrix that is not unitary
    of dimension [2^len(qubits)]; the matrices [phase_oracle] passes always
    are (see [oracle_matrix_unitary] and [square_cdiag] below), so the
    refusal is not part of the model. *)
Definition unitary (qc : QuantumCircuit) (U : matrix C) (qubits : list nat)
  : QuantumCircuit :=
  emit qc [UnitaryGate U qubits].

(** [qc.append(sub, qubits)]: [sub] becomes one composite instruction. *)
Definition append (qc sub : QuantumCircuit) (qubits : list nat) : QuantumCircuit :=
  emit qc [SubCircuit (name sub) (num_qubits sub) (data sub) qubits].

(** [qc.measure(qubits, clbits)]: qubit [qubits[i]] is read into classical
    bit [clbits[i]]. *)
Definition measure (qc : QuantumCircuit) (qubits clbits : list nat) : QuantumCircuit :=
  emit qc (zip_with MeasureOp qubits clbits).

(** ** The builders of the notebook *)

(** [phase_oracle(n, indices_to_mark, name='Oracle')] *)
Definition phase_oracle (n : nat) (indices_to_mark : list Z) (nm : string)
  : result QuantumCircuit :=
  let qc := new_circuit n 0 (Some nm) in
  let oracle_matrix := np_identity (2 ^ n) in
  oracle_matrix ←
    for_loop (fun m index_to_mark => np_setitem m index_to_mark index_to_mark (-1))
      indices_to_mark oracle_matrix;
  Ok (unitary qc (Operator oracle_matrix) (range n)).

(** [diffuser(n)] *)
Definition diffuser (n : nat) : result QuantumCircuit :=
  let qc := new_circuit n 0 (Some "Diffuser") in
  let qc := h qc (range n) in
  oracle ← phase_oracle n [0%Z] "Oracle";
  let qc := append qc oracle (range n) in
  let qc := h qc (range n) in
  Ok qc.

(** The "Determine r" block shared by [Grover], [Grover_Step_I] and
    [Grover_Step_II]:
    [r = int(np.floor(np.pi/4*np.sqrt(2**n/len(indices_of_marked_elements))))],
    evaluated in double precision as Python and numpy do.  The doubles
    met here are finite and non-negative: the quotient is, or the division
    raises; its square root is below [2^513]; and so is the product with
    [np.pi/4 < 1] (lemma [determine_r_finite]). *)
Definition determine_r (n : nat) (indices_of_marked_elements : list Z) (r : Z) : py Z :=
  if decide (r = 0%Z) then
    q ← quiet (py_truediv (2 ^ Z.of_nat n) (Z.of_nat (length indices_of_marked_elements)));
    let r := py_int (np_floor (float_mul (float_truediv np_pi (float_of_int 4))
                                 (np_sqrt q))) in
    _ ← print (pretty n +:+ " qubits, basis states "
               +:+ py_str_list indices_of_marked_elements
               +:+ " marked, " +:+ pretty r +:+ " rounds");
    mret r
  else mret r.

(** One round of [Grover]: oracle, then diffuser. *)
Definition round (n : nat) (indices_of_marked_elements : list Z)
    (qc : QuantumCircuit) (_ : nat) : result QuantumCircuit :=
  oracle ← phase_oracle n indices_of_marked_elements "Oracle";
  let qc := append qc oracle (range n) in
  d ← diffuser n;
  Ok (append qc d (range n)).

(** [Grover(n, indices_of_marked_elements, r=0)]; [None] is the call that
    leaves [r] out. *)
Definition Grover (n : nat) (indices_of_marked_elements : list Z) (r : option Z)
  : py QuantumCircuit :=
  let r := default 0%Z r in
  let qc := new_circuit n n None in
  r ← determine_r n indices_of_marked_elements r;
  let qc := h qc (range n) in
  qc ← quiet (for_loop (round n indices_of_marked_elements) (range r) qc);
  let qc := measure qc (range n) (range n) in
  mret qc.

(** [Grover_Step_I]: the oracle alone in each round, no measurement. *)
Definition Grover_Step_I (n : nat) (indices_of_marked_elements : list Z) (r : option Z)
  : py QuantumCircuit :=
  let r := default 0%Z r in
  let qc := new_circuit n 0 None in
  r ← determine_r n indices_of_marked_elements r;
  let qc := h qc (range n) in
  qc ← quiet (for_loop
                (fun qc _ =>
                   oracle ← phase_oracle n indices_of_marked_elements "Oracle";
                   Ok (append qc oracle (range n)))
                (range r) qc);
  mret qc.

(** [Grover_Step_II]: full rounds, no measurement. *)
Definition Grover_Step_II (n : nat) (indices_of_marked_elements : list Z) (r : option Z)
  : py QuantumCircuit :=
  let r := default 0%Z r in
  let qc := new_circuit n 0 None in
  r ← determine_r n indices_of_marked_elements r;
  let qc := h qc (range n) in
  qc ← quiet (for_loop (round n indices_of_marked_elements) (range r) qc);
  mret qc.

(** ** Linear algebra on amplitude lists

    The joint state of [n] qubits is the list of its [2^n] amplitudes,
    indexed by the integer whose bit [q] is the value of qubit [q] (Qiskit's
    ordering: qubit 0 is the least significant bit). *)

#[global] Instance R_inhabited : Inhabited R := populate 0.
#[global] Instance R_eq_dec : EqDecision R := Req_dec_T.
#[global] Instance C_inhabited : Inhabited C := populate C0.
#[global] Instance C_eq_dec : EqDecision C := prod_eq_dec.

Definition vplus (u v : list C) : list C := zip_with Cplus u v.
Definition vminus (u v : list C) : list C := zip_with Cminus u v.
Definition vscal (r : R) (v : list C) : list C := Cscal r <$> v.
Definition dot (u v : list C) : C := Csum (zip_with Cmult u v).
(** Squared norm: total Born weight of a list of amplitudes. *)
Definition norm2 (v : list C) : R := foldr Rplus 0 (Cnorm2 <$> v).

Definition entry (M : matrix C) (i j : nat) : C := (M !!! i) !!! j.
Definition ncols (M : matrix C) : nat := length (M !!! 0%nat).
Definition transpose (M : matrix C) : matrix C :=
  (fun j => (fun row : list C => row !!! j) <$> M) <$> seq 0 (ncols M).
(** Conjugate transpose. *)
Definition dagger (M : matrix C) : matrix C :=
  (fun row : list C => Cconj <$> row) <$> transpose M.
Definition mat_vec (M : matrix C) (v : list C) : list C :=
  (fun row => dot row v) <$> M.
Definition mat_mul (A B : matrix C) : matrix C :=
  (fun row => (fun col => dot row col) <$> transpose B) <$> A.

(** The basis state of index [i] in dimension [N]. *)
Definition basis (N i : nat) : list C :=
  (fun j => if (i =? j)%nat then C1 else C0) <$> seq 0 N.

(** ** Statevector semantics of the instructions

    This is the part the notebook leaves to the simulator back-ends.  A
    register of [S m] qubits splits along its top qubit [m] into the
    amplitudes with that qubit at 0 (the first [2^m]) and at 1 (the last
    [2^m]); every operation on one qubit is defined along this split.
    [apply_h_lookup] and [project_lookup] below restate the operations
    index by index, with qubit [q] read as bit [q] of the index. *)

(** Hadamard gate on qubit [q] of an [n]-qubit register. *)
Fixpoint apply_h (n q : nat) (v : list C) : list C :=
  match n with
  | 0%nat => v
  | S m =>
    let lo := take (2 ^ m) v in
    let hi := drop (2 ^ m) v in
    if (q =? m)%nat
    then vscal (/ sqrt 2) (vplus lo hi) ++ vscal (/ sqrt 2) (vminus lo hi)
    else apply_h m q lo ++ apply_h m q hi
  end.

(** Projection on "qubit [q] reads [b]": the other amplitudes become 0. *)
Fixpoint project (n q : nat) (b : bool) (v : list C) : list C :=
  match n with
  | 0%nat => v
  | S m =>
    let lo := take (2 ^ m) v in
    let hi := drop (2 ^ m) v in
    if (q =? m)%nat
    then (if b then vscal 0 lo ++ hi else lo ++ vscal 0 hi)
    else project m q b lo ++ project m q b hi
  end.

(** State of one simulation run: amplitudes, classical bits, and the
    uniform random numbers in [[0,1)] still to be consumed, one per
    measurement. *)
Record machine : Type := mkMachine {
  sv : list C;
  clbits : list bool;
  tape : list R
}.

Definition with_sv (s : machine) (v : list C) : machine :=
  mkMachine v (clbits s) (tape s).

(** Measurement of qubit [q] into classical bit [c]: the outcome is 0 when
    the random number falls below the weight of the 0-branch, the state
    collapses onto the outcome's branch and is renormalised. *)
Definition exec_measure (n q c : nat) (s : machine) : option machine :=
  match tape s with
  | [] => None
  | u :: rest =>
    let p0 := norm2 (project n q false (sv s)) in
    let b := if Rlt_dec u p0 then false else true in
    let branch := project n q b (sv s) in
    Some (mkMachine (vscal (/ sqrt (norm2 branch)) branch) (<[c := b]> (clbits s)) rest)
  end.

Definition square (N : nat) (U : matrix C) : Prop :=
  length U = N ∧ Forall (fun row => length row = N) U.

#[global] Instance square_dec N U : Decision (square N U).
Proof. unfold square. apply _. Defined.

(** One instruction on an [n]-qubit register.  [None] marks what this model
    does not cover: a gate on a qubit outside the register, a matrix or a
    sub-circuit placed on anything but all [n] qubits in their own order. *)
Fixpoint exec (n : nat) (i : instruction) (s : machine) : option machine :=
  match i with
  | HGate q =>
    if decide (q < n)%nat then Some (with_sv s (apply_h n q (sv s))) else None
  | UnitaryGate U qargs =>
    if decide (qargs = seq 0 n ∧ square (2 ^ n) U)
    then Some (with_sv s (mat_vec U (sv s))) else None
  | SubCircuit _ width body qargs =>
    if decide (qargs = seq 0 n ∧ width = n)
    then (fix go (l : list instruction) (s : machine) : option machine :=
            match l with
            | [] => Some s
            | i :: l' => match exec n i s with Some s' => go l' s' | None => None end
            end) body s
    else None
  | MeasureOp q c =>
    if decide (q < n ∧ c < length (clbits s))%nat then exec_measure n q c s else None
  end.

Fixpoint exec_list (n : nat) (l : list instruction) (s : machine) : option machine :=
  match l with
  | [] => Some s
  | i :: l' => match exec n i s with Some s' => exec_list n l' s' | None => None end
  end.

(** A run starts in the basis state 0 with every classical bit at 0. *)
Definition init (n c : nat) (rnd : list R) : machine :=
  mkMachine (basis (2 ^ n) 0) (replicate c false) rnd.

Definition run (qc : QuantumCircuit) (rnd : list R) : option machine :=
  exec_list (num_qubits qc) (data qc) (init (num_qubits qc) (num_clbits qc) rnd).

(** The key under which [get_counts] files a run: the classical bits, the
    highest-numbered first. *)
Definition bit_char (b : bool) : string := if b then "1" else "0".
Definition bitstring (cl : list bool) : string :=
  String.concat "" (bit_char <$> reverse cl).

(** [get_counts]: how often each key was read. *)
Definition histogram (keys : list string) : gmap string nat :=
  foldr (fun k m => <[k := S (default 0%nat (m !! k))]> m) ∅ keys.

(** [execute(qc, shots=...)...get_counts()]: one independent run per shot,
    each with its own random numbers. *)
Definition get_counts (qc : QuantumCircuit) (shots : list (list R))
  : option (gmap string nat) :=
  runs ← mapM (run qc) shots;
  Some (histogram ((fun s => bitstring (clbits s)) <$> runs)).

(** The matrix of a measurement-free instruction list, as the unitary
    simulator returns it: column [j] is the image of the basis state [j]. *)
Definition unitary_of (n : nat) (body : list instruction) : option (matrix C) :=
  columns ← mapM (fun j => sv <$> exec_list n body (mkMachine (basis (2 ^ n) j) [] []))
                 (seq 0 (2 ^ n));
  Some (transpose columns).

(** ** Auxiliary definitions used in the proofs *)

(** The Hadamard layer [qc.h(range(n))] on amplitudes: the gates on qubits
    [0], [1], ..., [n-1], applied in this order. *)
Definition h_layer (n : nat) (v : list C) : list C :=
  foldl (fun v q => apply_h n q v) v (seq 0 n).

(** The same layer by recursion on the register: the Walsh-Hadamard
    transform of both halves, then the butterfly of the top qubit. *)
Fixpoint wht (n : nat) (v : list C) : list C :=
  match n with
  | 0%nat => v
  | S m =>
    let lo := wht m (take (2 ^ m) v) in
    let hi := wht m (drop (2 ^ m) v) in
    vscal (/ sqrt 2) (vplus lo hi) ++ vscal (/ sqrt 2) (vminus lo hi)
  end.

(** Sign change of the amplitude of index 0. *)
Definition flip0 (v : list C) : list C :=
  match v with
  | [] => []
  | a :: t => (- a)%C :: t
  end.

(** The float array with [d i] at cell [(i, i)] and 0.0 elsewhere. *)
Definition diag (d : nat → R) (N : nat) : matrix R :=
  (fun i => (fun j => if (i =? j)%nat then d i else 0) <$> seq 0 N) <$> seq 0 N.

(** Diagonal of the oracle for a list of marked indices. *)
Definition oracle_sign (marked : list Z) (i : nat) : R :=
  if decide (Z.of_nat i ∈ marked) then -1 else 1.

(** Mean of a list of amplitudes. *)
Definition mean (v : list C) : C := Cscal (/ INR (length v)) (Csum v).

(** Reflection about the mean, as the specification words it: amplitude
    [a] becomes [2 * mean - a]. *)
Definition inversion_about_mean (v : list C) : list C :=
  (fun a => Cscal 2 (mean v) - a)%C <$> v.

(** The complex matrix with [d i] at cell [(i, i)] and 0 elsewhere. *)
Definition cdiag (d : nat → R) (N : nat) : matrix C :=
  (fun i => (fun j => if (i =? j)%nat then RtoC (d i) else C0) <$> seq 0 N) <$> seq 0 N.

(** ** The circuits the specification describes

    These follow the words of the specification; the theorems compare them
    with what the builders return. *)

(** Hadamard on every qubit, qubit 0 first. *)
Definition h_gates (n : nat) : list instruction := HGate <$> seq 0 n.

(** The identity matrix of dimension [2^n] with -1 at the marked cells of
    the diagonal. *)
Definition oracle_matrix (n : nat) (marked : list Z) : matrix C :=
  cdiag (oracle_sign marked) (2 ^ n).

(** The oracle for [marked], placed on all [n] qubits. *)
Definition oracle_gate (n : nat) (marked : list Z) : instruction :=
  SubCircuit (Some "Oracle") n [UnitaryGate (oracle_matrix n marked) (seq 0 n)] (seq 0 n).

(** Hadamard layer, oracle marking index 0 only, Hadamard layer. *)
Definition diffuser_body (n : nat) : list instruction :=
  h_gates n ++ [oracle_gate n [0%Z]] ++ h_gates n.

Definition diffuser_gate (n : nat) : instruction :=
  SubCircuit (Some "Diffuser") n (diffuser_body n) (seq 0 n).

(** Qubit [q] read into classical bit [q], for every qubit in index order. *)
Definition measure_all (n : nat) : list instruction :=
  (fun q => MeasureOp q q) <$> seq 0 n.

(** Superposition, [rounds] times (oracle, diffuser), measurement. *)
Definition grover_circuit (n : nat) (marked : list Z) (rounds : nat) : QuantumCircuit :=
  mkCircuit None n n
    (h_gates n
     ++ concat (replicate rounds [oracle_gate n marked; diffuser_gate n])
     ++ measure_all n).

(** The round count of the specification: [floor(pi/4 * sqrt(2^n / k))],
    in exact arithmetic. *)
Definition optimal_rounds (n k : nat) : Z :=
  Zfloor (PI / 4 * sqrt (2 ^ n / INR k)).

(** The count the "Determine r" block computes for [n] qubits and [k]
    marked indices, when the division succeeds. *)
Definition computed_rounds (n k : nat) : Z :=
  py_int (np_floor (float_mul (float_truediv np_pi (float_of_int 4))
                      (np_sqrt (round_ratio (2 ^ Z.of_nat n) (Z.of_nat k))))).

(** The line [Grover] prints when it computes the round count. *)
Definition rounds_line (n : nat) (marked : list Z) (r : Z) : string :=
  pretty n +:+ " qubits, basis states " +:+ py_str_list marked
  +:+ " marked, " +:+ pretty r +:+ " rounds".

(** A marked-index list of the data model: every index in [[0, 2^n)]. *)
Definition in_range (n : nat) (marked : list Z) : Prop :=
  Forall (fun i => 0 ≤ i < 2 ^ Z.of_nat n)%Z marked.

(** The random numbers of one shot on [n] measured qubits: one number of
    [[0,1)] per measurement. *)
Definition shot_ok (n : nat) (rnd : list R) : Prop :=
  length rnd = n ∧ Forall (fun u => 0 <= u < 1) rnd.

(** What the diffuser does to a list of amplitudes: every amplitude loses
    twice the mean. *)
Definition diffusion (v : list C) : list C :=
  (fun a => a - Cscal 2 (mean v))%C <$> v.

(** The amplitude lists of the two-qubit trace in the notebook. *)
Definition uniform_2 : list C := [RtoC (1/2); RtoC (1/2); RtoC (1/2); RtoC (1/2)].
Definition marked_2 : list C := [RtoC (1/2); RtoC (-1/2); RtoC (1/2); RtoC (1/2)].
Definition found_2 : list C := [RtoC 0; RtoC (-1); RtoC 0; RtoC 0].

(** ** Further definitions: indices as numpy resolves them *)

(** Indices numpy accepts on an axis of length [2^n]: [-2^n <= i < 2^n]. *)
Definition in_bounds (n : nat) (indices : list Z) : Prop :=
  Forall (fun i => - 2 ^ Z.of_nat n ≤ i < 2 ^ Z.of_nat n)%Z indices.

(** The cell an accepted index designates: [i] itself, or [2^n + i] for a
    negative [i]. *)
Definition resolved (n : nat) (indices : list Z) : list Z :=
  (fun i => i mod 2 ^ Z.of_nat n)%Z <$> indices.

(** What the oracle does to a list of amplitudes: the sign of the marked
    ones changes. *)
Definition phase_flip (marked : list Z) (v : list C) : list C :=
  imap (fun i a => if decide (Z.of_nat i ∈ marked) then (- a)%C else a) v.

(** ** Further definitions: the two amplitudes of a Grover run *)

(** The amplitude list with [a] at the marked indices and [b] at the
    others. *)
Definition amps (marked : list Z) (N : nat) (a b : C) : list C :=
  (fun i : nat => if decide (Z.of_nat i ∈ marked) then a else b) <$> seq 0 N.

(** One round on the pair (marked amplitude, unmarked amplitude) when [k]
    of the [N] indices are marked: the oracle negates the first, the
    diffuser takes twice the mean off both. *)
Definition grover_step (N k : nat) (ab : C * C) : C * C :=
  let a := (- fst ab)%C in
  let b := snd ab in
  let m := Cscal (/ INR N) (Cscal (INR k) a + Cscal (INR (N - k)) b)%C in
  ((a - Cscal 2 m)%C, (b - Cscal 2 m)%C).

(** ** Further definitions: [phase_oracle_explained]

    The notebook's second oracle builder prints the array before and after
    the marking loop, and the operator made from it.  What is printed is
    recorded as the printed object (each [print] ends with the separator
    line ["----"]); the text numpy and Qiskit render for it is theirs. *)

Inductive printed : Type :=
| PrintedArray (m : matrix R)
| PrintedOperator (U : matrix C).

Definition traced (A : Type) : Type := list printed * result A.

#[global] Instance traced_ret : MRet traced := fun A a => ([], Ok a).
#[global] Instance traced_bind : MBind traced := fun A B f m =>
  match m with
  | (out, Ok a) => let '(out', r) := f a in (out ++ out', r)
  | (out, Raise e) => (out, Raise e)
  end.

Definition show (p : printed) : traced unit := ([p], Ok tt).
Definition silent {A} (m : result A) : traced A := ([], m).

(** [phase_oracle_explained(n, indices_to_mark, name='Oracle')] *)
Definition phase_oracle_explained (n : nat) (indices_to_mark : list Z) (nm : string)
  : traced QuantumCircuit :=
  let qc := new_circuit n 0 (Some nm) in
  let oracle_matrix := np_identity (2 ^ n) in
  _ ← show (PrintedArray oracle_matrix);
  oracle_matrix ←
    silent (for_loop
              (fun m index_to_mark => np_setitem m index_to_mark index_to_mark (-1))
              indices_to_mark oracle_matrix);
  _ ← show (PrintedArray oracle_matrix);
  _ ← show (PrintedOperator (Operator oracle_matrix));
  mret (unitary qc (Operator oracle_matrix) (range n)).

(** ** Further definitions: the amplitudes before measurement *)

(** The amplitudes after the Hadamard layer and [r] rounds: [r] times
    (sign change of the marked amplitudes, then the diffuser), from the
    uniform list. *)
Definition rounds_state (n : nat) (marked : list Z) (r : nat) : list C :=
  Nat.iter r (fun v => diffusion (phase_flip marked v))
    (replicate (2 ^ n) (RtoC ((/ sqrt 2) ^ n))).

(** ** Auxiliary: partial sums of Machin's series

    [pi/4 = 2 atan(1/3) + atan(1/7)]; the partial sums of the two
    alternating series, as fractions of integers. *)

Definition machin_term (i : nat) : Z * Z :=
  let j := Z.of_nat (2 * i + 1) in
  ((-1) ^ Z.of_nat i * (2 * 7 ^ j + 3 ^ j), 21 ^ j * j)%Z.

Fixpoint machin_sum (n : nat) : Z * Z :=
  match n with
  | O => machin_term 0
  | S n' =>
      let s := machin_sum n' in
      let t := machin_term (S n') in
      (fst s * snd t + fst t * snd s, snd s * snd t)%Z
  end.

(** ** Further definitions: indices out of bounds *)

(** The first index of the list outside [[-2^n, 2^n)], if there is one:
    the index the marking loop of [phase_oracle] stops at. *)
Fixpoint first_rejected (n : nat) (indices : list Z) : option Z :=
  match indices with
  | [] => None
  | i :: rest =>
      if decide (- 2 ^ Z.of_nat n ≤ i < 2 ^ Z.of_nat n)%Z then first_rejected n rest
      else Some i
  end.

(** What [np_index] raises for an index [i] out of bounds. *)
Definition index_error (i : Z) : exception :=
  if decide (2 ^ 63 ≤ i < 2 ^ 64)%Z then OverflowError else IndexError.

(** * Proofs *)

(** ** Complex arithmetic *)

Lemma C_eq (a b : C) : fst a = fst b → snd a = snd b → a = b.
Proof. destruct a, b; simpl; congruence. Qed.

Ltac cunfold :=
  cbn [fst snd Cplus Cminus Cmult Copp Cscal Cconj RtoC C0 C1 Cre Cim] in *.
Ltac csolve := apply C_eq; cunfold; try (ring || lra || field).

Lemma sqrt2_inv_sq : / sqrt 2 * / sqrt 2 = / 2.
Proof. rewrite <- Rinv_mult. rewrite sqrt_sqrt; lra. Qed.

(** ** Amplitude lists *)

Section vectors.
Implicit Types u v w : list C.

Lemma length_vplus u v : length (vplus u v) = min (length u) (length v).
Proof. apply length_zip_with. Qed.

Lemma length_vminus u v : length (vminus u v) = min (length u) (length v).
Proof. apply length_zip_with. Qed.

Lemma length_vscal r v : length (vscal r v) = length v.
Proof. apply length_fmap. Qed.

Lemma vplus_app u1 u2 v1 v2 :
  length u1 = length v1 → vplus (u1 ++ u2) (v1 ++ v2) = vplus u1 v1 ++ vplus u2 v2.
Proof. apply zip_with_app. Qed.

Lemma vminus_app u1 u2 v1 v2 :
  length u1 = length v1 → vminus (u1 ++ u2) (v1 ++ v2) = vminus u1 v1 ++ vminus u2 v2.
Proof. apply zip_with_app. Qed.

Lemma vscal_app r u v : vscal r (u ++ v) = vscal r u ++ vscal r v.
Proof. apply fmap_app. Qed.

End vectors.

(** ** The Hadamard layer by recursion on the register *)

Lemma pow2_pos m : (0 < 2 ^ m)%nat.
Proof. induction m; simpl; lia. Qed.

Lemma split_half m (v : list C) :
  length v = (2 ^ S m)%nat →
  ∃ lo hi, v = lo ++ hi ∧ length lo = (2 ^ m)%nat ∧ length hi = (2 ^ m)%nat.
Proof.
  intros Hv. exists (take (2 ^ m) v), (drop (2 ^ m) v).
  rewrite take_drop, length_take, length_drop, Hv. simpl. split; [done|lia].
Qed.

Lemma wht_app m lo hi :
  length lo = (2 ^ m)%nat →
  wht (S m) (lo ++ hi) =
  vscal (/ sqrt 2) (vplus (wht m lo) (wht m hi)) ++
  vscal (/ sqrt 2) (vminus (wht m lo) (wht m hi)).
Proof.
  intros Hlo. simpl. by rewrite take_app_length', drop_app_length'.
Qed.

Lemma length_wht n v : length v = (2 ^ n)%nat → length (wht n v) = (2 ^ n)%nat.
Proof.
  revert v. induction n as [|m IH]; intros v Hv; [done|].
  destruct (split_half m v Hv) as (lo & hi & -> & Hlo & Hhi).
  rewrite wht_app by done.
  rewrite length_app, !length_vscal, length_vplus, length_vminus, !IH by done.
  simpl. lia.
Qed.

Lemma apply_h_app m q lo hi :
  length lo = (2 ^ m)%nat → q ≠ m →
  apply_h (S m) q (lo ++ hi) = apply_h m q lo ++ apply_h m q hi.
Proof.
  intros Hlo Hq. simpl. rewrite take_app_length', drop_app_length' by done.
  by apply Nat.eqb_neq in Hq as ->.
Qed.

Lemma apply_h_top m lo hi :
  length lo = (2 ^ m)%nat →
  apply_h (S m) m (lo ++ hi) =
  vscal (/ sqrt 2) (vplus lo hi) ++ vscal (/ sqrt 2) (vminus lo hi).
Proof.
  intros Hlo. simpl. rewrite take_app_length', drop_app_length' by done.
  by rewrite Nat.eqb_refl.
Qed.

Lemma length_apply_h n q v :
  length v = (2 ^ n)%nat → length (apply_h n q v) = (2 ^ n)%nat.
Proof.
  revert v. induction n as [|m IH]; intros v Hv; [done|].
  destruct (split_half m v Hv) as (lo & hi & -> & Hlo & Hhi).
  destruct (decide (q = m)) as [->|Hq].
  - rewrite apply_h_top by done.
    rewrite length_app, !length_vscal, length_vplus, length_vminus. simpl. lia.
  - rewrite apply_h_app, length_app, !IH by done. simpl. lia.
Qed.

Lemma foldl_apply_h_app m (qs : list nat) lo hi :
  length lo = (2 ^ m)%nat → length hi = (2 ^ m)%nat → Forall (fun q => q ≠ m) qs →
  foldl (fun v q => apply_h (S m) q v) (lo ++ hi) qs =
  foldl (fun v q => apply_h m q v) lo qs ++ foldl (fun v q => apply_h m q v) hi qs.
Proof.
  intros Hlo Hhi Hqs. revert lo hi Hlo Hhi.
  induction Hqs as [|q qs Hq _ IH]; intros lo hi Hlo Hhi; [done|].
  cbn [foldl]. rewrite apply_h_app by done.
  apply IH; by apply length_apply_h.
Qed.

Lemma length_h_prefix n (qs : list nat) v :
  length v = (2 ^ n)%nat →
  length (foldl (fun v q => apply_h n q v) v qs) = (2 ^ n)%nat.
Proof.
  revert v. induction qs as [|q qs IH]; intros v Hv; [done|].
  cbn [foldl]. apply IH. by apply length_apply_h.
Qed.

Lemma h_layer_wht n v : length v = (2 ^ n)%nat → h_layer n v = wht n v.
Proof.
  revert v. induction n as [|m IH]; intros v Hv; [done|].
  destruct (split_half m v Hv) as (lo & hi & -> & Hlo & Hhi).
  unfold h_layer. rewrite seq_S, foldl_app. cbn [foldl].
  rewrite foldl_apply_h_app; [|done|done|].
  - rewrite apply_h_top by (by apply length_h_prefix).
    rewrite wht_app by done. fold (h_layer m lo) (h_layer m hi).
    by rewrite !IH.
  - apply Forall_forall. intros q Hq%elem_of_seq. lia.
Qed.

(** ** The semantics on two qubits

    Index [i] of a two-qubit register carries qubit 0 in bit 0 and qubit 1
    in bit 1: the gate on qubit 0 pairs the indices (0,1) and (2,3), the
    gate on qubit 1 pairs (0,2) and (1,3). *)

Example apply_h_2_qubit0 (a b c d : C) :
  apply_h 2 0 [a; b; c; d] =
  [Cscal (/ sqrt 2) (a + b); Cscal (/ sqrt 2) (a - b);
   Cscal (/ sqrt 2) (c + d); Cscal (/ sqrt 2) (c - d)]%C.
Proof. reflexivity. Qed.

Example apply_h_2_qubit1 (a b c d : C) :
  apply_h 2 1 [a; b; c; d] =
  [Cscal (/ sqrt 2) (a + c); Cscal (/ sqrt 2) (b + d);
   Cscal (/ sqrt 2) (a - c); Cscal (/ sqrt 2) (b - d)]%C.
Proof. reflexivity. Qed.

Example project_2_qubit0_reads_1 (a b c d : C) :
  project 2 0 true [a; b; c; d] = [Cscal 0 a; b; Cscal 0 c; d].
Proof. reflexivity. Qed.

Example project_2_qubit1_reads_0 (a b c d : C) :
  project 2 1 false [a; b; c; d] = [a; b; Cscal 0 c; Cscal 0 d].
Proof. reflexivity. Qed.

Example bitstring_index_1 : bitstring [true; false] = "01".
Proof. reflexivity. Qed.

Example np_index_negative : np_index 4 (-1) = Ok 3%nat.
Proof. reflexivity. Qed.

Example np_index_out_of_bounds : np_index 4 4 = Raise IndexError.
Proof. reflexivity. Qed.

(** ** The split along the top qubit agrees with the bits of the index

    Bit [q] of an index below [2^n] is the value of qubit [q].  The
    Hadamard gate on qubit [q] combines the two amplitudes whose indices
    differ in bit [q] only, and the projection keeps the amplitudes whose
    index has the outcome in bit [q]. *)

Lemma testbit_small (i m : nat) : (i < 2 ^ m)%nat → Nat.testbit i m = false.
Proof. intros Hi. by rewrite Nat.testbit_eqb, Nat.div_small. Qed.

Lemma testbit_top (i m : nat) :
  (2 ^ m ≤ i < 2 ^ S m)%nat → Nat.testbit i m = true.
Proof.
  intros [Hlo Hhi]. rewrite Nat.testbit_eqb.
  replace (i / 2 ^ m)%nat with 1%nat; [done|].
  apply (Nat.div_unique i (2 ^ m) 1 (i - 2 ^ m)); simpl in Hhi; lia.
Qed.

Lemma pow2_split (q m : nat) :
  (q < m)%nat → (2 ^ m = 2 ^ (m - q - 1) * 2 * 2 ^ q)%nat.
Proof.
  intros Hq. replace m with ((m - q - 1) + 1 + q)%nat at 1 by lia.
  by rewrite !Nat.pow_add_r.
Qed.

Lemma testbit_add_pow2 (j q m : nat) :
  (q < m)%nat → Nat.testbit (j + 2 ^ m) q = Nat.testbit j q.
Proof.
  intros Hq. rewrite !Nat.testbit_eqb, (pow2_split q m Hq).
  rewrite Nat.div_add by (apply Nat.pow_nonzero; lia).
  by rewrite Nat.Div0.mod_add.
Qed.

Lemma testbit_true_ge (i q : nat) : Nat.testbit i q = true → (2 ^ q ≤ i)%nat.
Proof.
  intros Hb. destruct (decide (2 ^ q ≤ i)%nat) as [|Hlt]; [done|].
  rewrite testbit_small in Hb by lia. done.
Qed.

Lemma testbit_false_add (i q m : nat) :
  (q < m)%nat → (i < 2 ^ m)%nat → Nat.testbit i q = false → (i + 2 ^ q < 2 ^ m)%nat.
Proof.
  intros Hq Hi Hb. rewrite Nat.testbit_eqb in Hb. apply Nat.eqb_neq in Hb.
  rewrite (pow2_split q m Hq) in *.
  pose proof (pow2_pos q) as Hp. pose proof (pow2_pos (m - q - 1)) as Ht.
  pose proof (Nat.div_mod_eq i (2 ^ q)) as Hdm.
  pose proof (Nat.mod_upper_bound i (2 ^ q) ltac:(lia)) as Hmod.
  pose proof (Nat.div_mod_eq (i / 2 ^ q) 2) as Hdm2.
  pose proof (Nat.mod_upper_bound (i / 2 ^ q) 2 ltac:(lia)) as Hmod2.
  generalize dependent (2 ^ q)%nat. intros p.
  generalize dependent (2 ^ (m - q - 1))%nat. intros t.
  intros. set (a := (i / p)%nat) in *. set (c := (a / 2)%nat) in *.
  assert (a mod 2 = 0)%nat as Ha0 by lia.
  assert (c < t)%nat by nia. nia.
Qed.

Lemma lookup_total_butterfly_l (r : R) (lo hi : list C) (i : nat) :
  (i < length lo)%nat → length lo = length hi →
  vscal r (vplus lo hi) !!! i = Cscal r (lo !!! i + hi !!! i).
Proof.
  intros Hi Hlen. unfold vscal, vplus.
  rewrite (list_lookup_total_fmap (Cscal r) (zip_with Cplus lo hi) i)
    by (rewrite length_zip_with; lia).
  by rewrite (lookup_total_zip_with Cplus lo hi i) by lia.
Qed.

Lemma lookup_total_butterfly_r (r : R) (lo hi : list C) (i : nat) :
  (i < length lo)%nat → length lo = length hi →
  vscal r (vminus lo hi) !!! i = Cscal r (lo !!! i - hi !!! i).
Proof.
  intros Hi Hlen. unfold vscal, vminus.
  rewrite (list_lookup_total_fmap (Cscal r) (zip_with Cminus lo hi) i)
    by (rewrite length_zip_with; lia).
  by rewrite (lookup_total_zip_with Cminus lo hi i) by lia.
Qed.

(** The Hadamard gate on qubit [q], index by index. *)
Lemma apply_h_lookup (n q : nat) : ∀ (v : list C) (i : nat),
  length v = (2 ^ n)%nat → (q < n)%nat → (i < 2 ^ n)%nat →
  apply_h n q v !!! i =
  if Nat.testbit i q
  then Cscal (/ sqrt 2) (v !!! (i - 2 ^ q)%nat - v !!! i)
  else Cscal (/ sqrt 2) (v !!! i + v !!! (i + 2 ^ q)%nat).
Proof.
  induction n as [|m IH]; intros v i Hv Hq Hi; [lia|].
  destruct (split_half m v Hv) as (lo & hi & -> & Hlo & Hhi). clear Hv.
  pose proof (pow2_pos m) as Hm.
  destruct (decide (q = m)) as [->|Hqm].
  - rewrite apply_h_top by done.
    destruct (decide (i < 2 ^ m)%nat) as [Hlt|Hge].
    + rewrite testbit_small by done.
      rewrite lookup_total_app_l by (rewrite length_vscal, length_vplus; lia).
      rewrite lookup_total_butterfly_l by lia.
      rewrite (lookup_total_app_l lo hi i) by lia.
      rewrite (lookup_total_app_r lo hi (i + 2 ^ m)) by lia.
      by replace (i + 2 ^ m - length lo)%nat with i by lia.
    + rewrite testbit_top by (simpl in Hi |- *; lia).
      rewrite lookup_total_app_r by (rewrite length_vscal, length_vplus; lia).
      rewrite length_vscal, length_vplus, Hlo, Hhi, Nat.min_id.
      rewrite lookup_total_butterfly_r by (simpl in Hi; lia).
      rewrite (lookup_total_app_l lo hi (i - 2 ^ m)) by (simpl in Hi; lia).
      rewrite (lookup_total_app_r lo hi i) by lia.
      by rewrite Hlo.
  - assert (q < m)%nat as Hq' by lia.
    rewrite apply_h_app by done.
    pose proof (length_apply_h m q lo Hlo) as Hal.
    destruct (decide (i < 2 ^ m)%nat) as [Hlt|Hge].
    + rewrite lookup_total_app_l by lia. rewrite IH by done.
      rewrite (lookup_total_app_l lo hi i) by lia.
      destruct (Nat.testbit i q) eqn:Hb.
      * by rewrite (lookup_total_app_l lo hi (i - 2 ^ q)) by lia.
      * pose proof (testbit_false_add i q m Hq' Hlt Hb).
        by rewrite (lookup_total_app_l lo hi (i + 2 ^ q)) by lia.
    + rewrite lookup_total_app_r by lia. rewrite Hal.
      rewrite IH by (simpl in Hi; done || lia).
      rewrite (lookup_total_app_r lo hi i) by lia. rewrite Hlo.
      replace (Nat.testbit i q) with (Nat.testbit (i - 2 ^ m) q)
        by (rewrite <- (testbit_add_pow2 (i - 2 ^ m) q m Hq'); f_equal; lia).
      destruct (Nat.testbit (i - 2 ^ m) q) eqn:Hb.
      * pose proof (testbit_true_ge _ _ Hb).
        rewrite (lookup_total_app_r lo hi (i - 2 ^ q)) by lia. rewrite Hlo.
        by replace (i - 2 ^ q - 2 ^ m)%nat with (i - 2 ^ m - 2 ^ q)%nat by lia.
      * rewrite (lookup_total_app_r lo hi (i + 2 ^ q)) by lia. rewrite Hlo.
        by replace (i + 2 ^ q - 2 ^ m)%nat with (i - 2 ^ m + 2 ^ q)%nat by lia.
Qed.

Lemma length_project (n q : nat) (b : bool) : ∀ v : list C,
  length v = (2 ^ n)%nat → length (project n q b v) = (2 ^ n)%nat.
Proof.
  induction n as [|m IH]; intros v Hv; [done|].
  destruct (split_half m v Hv) as (lo & hi & -> & Hlo & Hhi). clear Hv.
  simpl. rewrite take_app_length', drop_app_length' by done.
  destruct (q =? m)%nat; [destruct b|];
    rewrite length_app, ?length_vscal, ?IH by done; lia.
Qed.

(** The projection on "qubit [q] reads [b]", index by index. *)
Lemma project_lookup (n q : nat) (b : bool) : ∀ (v : list C) (i : nat),
  length v = (2 ^ n)%nat → (q < n)%nat → (i < 2 ^ n)%nat →
  project n q b v !!! i =
  if Bool.eqb (Nat.testbit i q) b then v !!! i else Cscal 0 (v !!! i).
Proof.
  induction n as [|m IH]; intros v i Hv Hq Hi; [lia|].
  destruct (split_half m v Hv) as (lo & hi & -> & Hlo & Hhi).
  pose proof (length_project m q b lo Hlo) as Hpl. clear Hv.
  simpl project. rewrite take_app_length', drop_app_length' by done.
  destruct (q =? m)%nat eqn:E.
  - apply Nat.eqb_eq in E as ->.
    destruct (decide (i < 2 ^ m)%nat) as [Hlt|Hge].
    + rewrite testbit_small by done. rewrite (lookup_total_app_l lo hi i) by lia.
      destruct b; simpl.
      * rewrite lookup_total_app_l by (rewrite length_vscal; lia).
        unfold vscal. by rewrite (list_lookup_total_fmap (Cscal 0) lo i) by lia.
      * by rewrite lookup_total_app_l by lia.
    + rewrite testbit_top by (simpl in Hi |- *; lia).
      rewrite (lookup_total_app_r lo hi i) by lia.
      destruct b; simpl.
      * rewrite lookup_total_app_r by (rewrite length_vscal; lia).
        by rewrite length_vscal.
      * rewrite lookup_total_app_r by lia.
        unfold vscal.
        by rewrite (list_lookup_total_fmap (Cscal 0) hi (i - length lo))
          by (simpl in Hi; lia).
  - apply Nat.eqb_neq in E. assert (q < m)%nat as Hq' by lia.
    destruct (decide (i < 2 ^ m)%nat) as [Hlt|Hge].
    + rewrite lookup_total_app_l by lia. rewrite IH by done.
      by rewrite (lookup_total_app_l lo hi i) by lia.
    + rewrite lookup_total_app_r by lia. rewrite Hpl.
      rewrite IH by (simpl in Hi; done || lia).
      rewrite (lookup_total_app_r lo hi i) by lia. rewrite Hlo.
      replace (Nat.testbit i q) with (Nat.testbit (i - 2 ^ m) q); [done|].
      rewrite <- (testbit_add_pow2 (i - 2 ^ m) q m Hq'). f_equal. lia.
Qed.

(** ** Pointwise identities on amplitude lists *)

Lemma sqrt2_inv_pow2 : (/ sqrt 2) ^ 2 = / 2.
Proof. simpl. rewrite Rmult_1_r. apply sqrt2_inv_sq. Qed.

(** Closes an equation between amplitudes that holds by ring reasoning and
    [(/ sqrt 2)^2 = / 2]. *)
Ltac csqrt :=
  apply C_eq; cunfold;
  pose proof sqrt2_inv_pow2 as Hsqrt2; revert Hsqrt2;
  generalize (/ sqrt 2); intros s Hsqrt2;
  ring_simplify; rewrite ?Hsqrt2; field.

(** Induction along lists of one length, the heads handled by [tac]. *)
Ltac pointwise tac :=
  match goal with
  | |- ∀ a : list C, _ =>
    let x := fresh "x" in let IH := fresh "IH" in
    induction a as [|x a IH];
    repeat (match goal with
            | |- ∀ _ : list C, _ => let l := fresh "l" in intros l; destruct l
            end);
    intros; simplify_eq/=; try done;
    f_equal; [tac | try (apply IH; (done || lia))]
  end.

Lemma butterfly_vplus_l : ∀ a b c d : list C,
  length a = length b → length a = length c → length a = length d →
  vscal (/ sqrt 2) (vplus (vplus a c) (vplus b d)) =
  vplus (vscal (/ sqrt 2) (vplus a b)) (vscal (/ sqrt 2) (vplus c d)).
Proof. pointwise csolve. Qed.

Lemma butterfly_vplus_r : ∀ a b c d : list C,
  length a = length b → length a = length c → length a = length d →
  vscal (/ sqrt 2) (vminus (vplus a c) (vplus b d)) =
  vplus (vscal (/ sqrt 2) (vminus a b)) (vscal (/ sqrt 2) (vminus c d)).
Proof. pointwise csolve. Qed.

Lemma butterfly_vminus_l : ∀ a b c d : list C,
  length a = length b → length a = length c → length a = length d →
  vscal (/ sqrt 2) (vplus (vminus a c) (vminus b d)) =
  vminus (vscal (/ sqrt 2) (vplus a b)) (vscal (/ sqrt 2) (vplus c d)).
Proof. pointwise csolve. Qed.

Lemma butterfly_vminus_r : ∀ a b c d : list C,
  length a = length b → length a = length c → length a = length d →
  vscal (/ sqrt 2) (vminus (vminus a c) (vminus b d)) =
  vminus (vscal (/ sqrt 2) (vminus a b)) (vscal (/ sqrt 2) (vminus c d)).
Proof. pointwise csolve. Qed.

Lemma butterfly_vscal_l r : ∀ a b : list C,
  length a = length b →
  vscal (/ sqrt 2) (vplus (vscal r a) (vscal r b)) =
  vscal r (vscal (/ sqrt 2) (vplus a b)).
Proof. pointwise csolve. Qed.

Lemma butterfly_vscal_r r : ∀ a b : list C,
  length a = length b →
  vscal (/ sqrt 2) (vminus (vscal r a) (vscal r b)) =
  vscal r (vscal (/ sqrt 2) (vminus a b)).
Proof. pointwise csolve. Qed.

Lemma butterfly_twice_l : ∀ a b : list C,
  length a = length b →
  vscal (/ sqrt 2)
    (vplus (vscal (/ sqrt 2) (vplus a b)) (vscal (/ sqrt 2) (vminus a b))) = a.
Proof. pointwise csqrt. Qed.

Lemma butterfly_twice_r : ∀ b a : list C,
  length b = length a →
  vscal (/ sqrt 2)
    (vminus (vscal (/ sqrt 2) (vplus a b)) (vscal (/ sqrt 2) (vminus a b))) = b.
Proof. pointwise csqrt. Qed.

(** ** The Walsh-Hadamard transform is linear and its own inverse *)

Lemma wht_vplus n u v :
  length u = (2 ^ n)%nat → length v = (2 ^ n)%nat →
  wht n (vplus u v) = vplus (wht n u) (wht n v).
Proof.
  revert u v. induction n as [|m IH]; intros u v Hu Hv; [done|].
  destruct (split_half m u Hu) as (ul & uh & -> & Hul & Huh).
  destruct (split_half m v Hv) as (vl & vh & -> & Hvl & Hvh).
  rewrite vplus_app by congruence.
  rewrite !wht_app by (rewrite ?length_vplus; lia).
  rewrite !IH by done.
  pose proof (length_wht m ul Hul). pose proof (length_wht m uh Huh).
  pose proof (length_wht m vl Hvl). pose proof (length_wht m vh Hvh).
  rewrite vplus_app by (rewrite !length_vscal, !length_vplus; lia).
  f_equal; [apply butterfly_vplus_l | apply butterfly_vplus_r]; congruence.
Qed.

Lemma wht_vminus n u v :
  length u = (2 ^ n)%nat → length v = (2 ^ n)%nat →
  wht n (vminus u v) = vminus (wht n u) (wht n v).
Proof.
  revert u v. induction n as [|m IH]; intros u v Hu Hv; [done|].
  destruct (split_half m u Hu) as (ul & uh & -> & Hul & Huh).
  destruct (split_half m v Hv) as (vl & vh & -> & Hvl & Hvh).
  rewrite vminus_app by congruence.
  rewrite !wht_app by (rewrite ?length_vminus; lia).
  rewrite !IH by done.
  pose proof (length_wht m ul Hul). pose proof (length_wht m uh Huh).
  pose proof (length_wht m vl Hvl). pose proof (length_wht m vh Hvh).
  rewrite vminus_app by (rewrite !length_vscal, !length_vplus; lia).
  f_equal; [apply butterfly_vminus_l | apply butterfly_vminus_r]; congruence.
Qed.

Lemma wht_vscal n r v :
  length v = (2 ^ n)%nat → wht n (vscal r v) = vscal r (wht n v).
Proof.
  revert v. induction n as [|m IH]; intros v Hv; [done|].
  destruct (split_half m v Hv) as (lo & hi & -> & Hlo & Hhi).
  rewrite vscal_app, !wht_app by (rewrite ?length_vscal; lia).
  rewrite !IH by done.
  pose proof (length_wht m lo Hlo). pose proof (length_wht m hi Hhi).
  rewrite vscal_app.
  f_equal; [apply butterfly_vscal_l | apply butterfly_vscal_r]; congruence.
Qed.

Lemma wht_involutive n v : length v = (2 ^ n)%nat → wht n (wht n v) = v.
Proof.
  revert v. induction n as [|m IH]; intros v Hv; [done|].
  destruct (split_half m v Hv) as (lo & hi & -> & Hlo & Hhi).
  pose proof (length_wht m lo Hlo). pose proof (length_wht m hi Hhi).
  rewrite (wht_app m lo hi) by done.
  rewrite wht_app by (rewrite length_vscal, length_vplus; lia).
  rewrite !wht_vscal by (rewrite ?length_vplus, ?length_vminus; lia).
  rewrite wht_vplus, wht_vminus, !IH by done.
  f_equal; [apply butterfly_twice_l | apply butterfly_twice_r]; congruence.
Qed.

(** ** Sums of amplitudes *)

Lemma Csum_app (u v : list C) : Csum (u ++ v) = (Csum u + Csum v)%C.
Proof. induction u as [|x u IH]; simpl; [|rewrite IH]; csolve. Qed.

Lemma Csum_vplus : ∀ u v : list C,
  length u = length v → Csum (vplus u v) = (Csum u + Csum v)%C.
Proof.
  induction u as [|x u IH]; intros [|y v] ?; simplify_eq/=; [csolve|].
  rewrite IH by done. csolve.
Qed.

Lemma Csum_vscal r (v : list C) : Csum (vscal r v) = Cscal r (Csum v).
Proof. induction v as [|x v IH]; simpl; [|rewrite IH]; csolve. Qed.

Lemma Csum_shift (K : C) (v : list C) :
  Csum ((fun a => a - K)%C <$> v) = (Csum v - Cscal (INR (length v)) K)%C.
Proof.
  induction v as [|x v IH]; [simpl; csolve|].
  rewrite fmap_cons. change (length (x :: v)) with (S (length v)).
  change (Csum (?a :: ?l)) with (a + Csum l)%C.
  rewrite IH, S_INR. csolve.
Qed.

(** ** The diffusion transform in closed form *)

Lemma flip0_app (u v : list C) : (0 < length u)%nat → flip0 (u ++ v) = flip0 u ++ v.
Proof. by destruct u; [simpl; lia|]. Qed.

Lemma length_flip0 (v : list C) : length (flip0 v) = length v.
Proof. by destruct v. Qed.

Lemma diffusion_half_l (K1 K : C) :
  Cscal (/ sqrt 2) K1 = K →
  ∀ lo hi : list C, length lo = length hi →
  vscal (/ sqrt 2)
    (vplus ((fun a => a - K1)%C <$> vscal (/ sqrt 2) (vplus lo hi))
           (vscal (/ sqrt 2) (vminus lo hi))) =
  (fun a => a - K)%C <$> lo.
Proof. intros <-. pointwise csqrt. Qed.

Lemma diffusion_half_r (K1 K : C) :
  Cscal (/ sqrt 2) K1 = K →
  ∀ hi lo : list C, length hi = length lo →
  vscal (/ sqrt 2)
    (vminus ((fun a => a - K1)%C <$> vscal (/ sqrt 2) (vplus lo hi))
            (vscal (/ sqrt 2) (vminus lo hi))) =
  (fun a => a - K)%C <$> hi.
Proof. intros <-. pointwise csqrt. Qed.

(** Hadamard layer, sign change at index 0, Hadamard layer: every amplitude
    loses twice the mean. *)
Lemma wht_flip0_wht n v :
  length v = (2 ^ n)%nat →
  wht n (flip0 (wht n v)) = (fun a => a - Cscal (2 * / 2 ^ n) (Csum v))%C <$> v.
Proof.
  revert v. induction n as [|m IH]; intros v Hv.
  - destruct v as [|a [|??]]; simplify_eq/=. f_equal. csolve.
  - destruct (split_half m v Hv) as (lo & hi & -> & Hlo & Hhi).
    pose proof (length_wht m lo Hlo) as Hwl. pose proof (length_wht m hi Hhi) as Hwh.
    pose proof (pow2_pos m). clear Hv.
    rewrite (wht_app m lo hi) by done.
    rewrite flip0_app by (rewrite length_vscal, length_vplus; lia).
    rewrite wht_app by (rewrite length_flip0, length_vscal, length_vplus; lia).
    rewrite <- (wht_vplus m lo hi), <- (wht_vminus m lo hi) by done.
    rewrite <- (wht_vscal m _ (vplus lo hi)), <- (wht_vscal m _ (vminus lo hi))
      by (rewrite ?length_vplus, ?length_vminus; lia).
    rewrite IH by (rewrite length_vscal, length_vplus; lia).
    rewrite wht_involutive by (rewrite length_vscal, length_vminus; lia).
    rewrite fmap_app.
    assert (Cscal (/ sqrt 2)
              (Cscal (2 * / 2 ^ m) (Csum (vscal (/ sqrt 2) (vplus lo hi)))) =
            Cscal (2 * / 2 ^ S m) (Csum (lo ++ hi))) as HK.
    { rewrite Csum_vscal, Csum_vplus, Csum_app by congruence.
      pose proof (pow_nonzero 2 m ltac:(lra)).
      pose proof sqrt2_inv_pow2 as Hs. revert Hs.
      generalize (/ sqrt 2). intros s Hs.
      apply C_eq; cunfold; simpl pow;
        match goal with
        | |- s * (?c * (s * ?X)) = _ => transitivity (s ^ 2 * (c * X)); [ring|]
        end; rewrite Hs; field; done. }
    f_equal; [eapply diffusion_half_l | eapply diffusion_half_r]; done || congruence.
Qed.

(** ** The oracle array *)

Lemma range_nat (n : nat) : range n = seq 0 n.
Proof. unfold range. by rewrite Nat2Z.id. Qed.

Lemma np_index_in_range (N : nat) (i : Z) :
  (0 ≤ i < Z.of_nat N)%Z → np_index N i = Ok (Z.to_nat i).
Proof. intros Hi. unfold np_index. by rewrite decide_True. Qed.

Lemma np_index_out_of_range (N : nat) (i : Z) :
  (i < - Z.of_nat N ∨ Z.of_nat N ≤ i)%Z → np_index N i = Raise (index_error i).
Proof.
  intros Hi. unfold np_index, index_error.
  rewrite (decide_False (P := (0 ≤ i < Z.of_nat N)%Z)) by lia.
  rewrite (decide_False (P := (- Z.of_nat N ≤ i < 0)%Z)) by lia.
  by destruct (decide _).
Qed.

Lemma index_error_cases (i : Z) :
  index_error i = IndexError ∨ index_error i = OverflowError.
Proof. unfold index_error. destruct (decide _); auto. Qed.

Lemma index_error_small (i : Z) : (i < 2 ^ 63)%Z → index_error i = IndexError.
Proof. intros Hi. unfold index_error. by rewrite decide_False by lia. Qed.

Lemma index_error_large (i : Z) :
  (2 ^ 63 ≤ i < 2 ^ 64)%Z → index_error i = OverflowError.
Proof. intros Hi. unfold index_error. by rewrite decide_True. Qed.

Lemma np_identity_diag N : np_identity N = diag (fun _ => 1) N.
Proof. done. Qed.

Lemma length_diag d N : length (diag d N) = N.
Proof. unfold diag. by rewrite length_fmap, length_seq. Qed.

Lemma lookup_diag d N i :
  (i < N)%nat →
  diag d N !! i = Some ((fun j => if (i =? j)%nat then d i else 0) <$> seq 0 N).
Proof. intros Hi. unfold diag. by rewrite list_lookup_fmap, lookup_seq_lt. Qed.

Lemma lookup_fmap_seq {A} (f : nat → A) N j :
  (j < N)%nat → (f <$> seq 0 N) !! j = Some (f j).
Proof. intros Hj. by rewrite list_lookup_fmap, lookup_seq_lt. Qed.

Lemma diag_ext d d' N :
  (∀ i, (i < N)%nat → d i = d' i) → diag d N = diag d' N.
Proof.
  intros Hd. unfold diag. apply list_fmap_ext.
  intros k i [-> Hi]%lookup_seq. rewrite Hd by lia. done.
Qed.

(** Writing -1 at a diagonal cell of a diagonal array. *)
Lemma np_setitem_diag d N (i : Z) :
  (0 ≤ i < Z.of_nat N)%Z →
  np_setitem (diag d N) i i (-1) =
  Ok (diag (fun k => if (k =? Z.to_nat i)%nat then -1 else d k) N).
Proof.
  intros Hi. unfold np_setitem.
  rewrite length_diag, lookup_diag by lia. cbv [default from_option Datatypes.id].
  rewrite length_fmap, length_seq, !(np_index_in_range N i) by done.
  cbn [mbind result_bind].
  f_equal. set (a := Z.to_nat i). assert (a < N)%nat by lia.
  apply list_eq. intros k.
  destruct (decide (k < N)%nat) as [Hk|Hk].
  2:{ rewrite !lookup_ge_None_2; [done| |];
      rewrite ?length_alter, length_diag; lia. }
  rewrite lookup_diag by done.
  destruct (decide (k = a)) as [->|Hka].
  - rewrite list_lookup_alter_eq, lookup_diag by done. cbn [fmap option_fmap option_map].
    f_equal. apply list_eq. intros j.
    destruct (decide (j < N)%nat) as [Hj|Hj].
    2:{ rewrite !lookup_ge_None_2; [done| |];
        rewrite ?length_insert, length_fmap, length_seq; lia. }
    rewrite lookup_fmap_seq by done.
    destruct (decide (j = a)) as [->|Hja].
    + rewrite list_lookup_insert_eq by (rewrite length_fmap, length_seq; lia).
      by rewrite Nat.eqb_refl.
    + rewrite list_lookup_insert_ne, lookup_fmap_seq by done.
      destruct (a =? j)%nat eqn:E; [apply Nat.eqb_eq in E; lia|done].
  - rewrite list_lookup_alter_ne, lookup_diag by done.
    by apply Nat.eqb_neq in Hka as ->.
Qed.

(** The marking loop of [phase_oracle], started on any diagonal array. *)
Lemma mark_loop_diag N (marks : list Z) : ∀ d,
  Forall (fun i => 0 ≤ i < Z.of_nat N)%Z marks →
  for_loop (fun m index_to_mark => np_setitem m index_to_mark index_to_mark (-1))
    marks (diag d N) =
  Ok (diag (fun k => if decide (Z.of_nat k ∈ marks) then -1 else d k) N).
Proof.
  induction marks as [|i marks IH]; intros d Hm.
  - done.
  - apply Forall_cons in Hm as [Hi Hm]. cbn [for_loop].
    rewrite np_setitem_diag by done. cbn [mbind result_bind].
    rewrite IH by done. f_equal. apply diag_ext. intros k Hk.
    destruct (k =? Z.to_nat i)%nat eqn:E.
    + apply Nat.eqb_eq in E.
      rewrite (decide_True (P := Z.of_nat k ∈ i :: marks))
        by (apply elem_of_cons; left; lia).
      by destruct (decide _).
    + apply Nat.eqb_neq in E. apply decide_ext.
      rewrite elem_of_cons. split; [tauto|]. intros [?|?]; [lia|done].
Qed.

Lemma pow2_of_nat (n : nat) : Z.of_nat (2 ^ n) = (2 ^ Z.of_nat n)%Z.
Proof. by rewrite Nat2Z.inj_pow. Qed.

(** What [phase_oracle] returns on indices in range. *)
Lemma phase_oracle_ok n (marks : list Z) nm :
  Forall (fun i => 0 ≤ i < 2 ^ Z.of_nat n)%Z marks →
  phase_oracle n marks nm =
  Ok (mkCircuit (Some nm) n 0
        [UnitaryGate (Operator (diag (oracle_sign marks) (2 ^ n))) (seq 0 n)]).
Proof.
  intros Hm. unfold phase_oracle.
  rewrite np_identity_diag, mark_loop_diag.
  - cbn [mbind result_bind]. by rewrite range_nat.
  - eapply Forall_impl; [exact Hm|]. intros i. simpl. rewrite pow2_of_nat. done.
Qed.

(** ** Diagonal matrices as operators *)

Lemma Operator_diag d N : Operator (diag d N) = cdiag d N.
Proof.
  unfold Operator, diag, cdiag. rewrite <- list_fmap_compose.
  apply list_fmap_ext. intros _ i _. simpl. rewrite <- list_fmap_compose.
  apply list_fmap_ext. intros _ j _. simpl. by destruct (i =? j)%nat.
Qed.

Lemma length_cdiag d N : length (cdiag d N) = N.
Proof. unfold cdiag. by rewrite length_fmap, length_seq. Qed.

Lemma lookup_cdiag d N i :
  (i < N)%nat →
  cdiag d N !! i =
  Some ((fun j => if (i =? j)%nat then RtoC (d i) else C0) <$> seq 0 N).
Proof. intros Hi. unfold cdiag. by rewrite lookup_fmap_seq. Qed.

Lemma square_cdiag d N : square N (cdiag d N).
Proof.
  split; [apply length_cdiag|]. unfold cdiag. apply Forall_fmap, Forall_forall.
  intros i _. simpl. by rewrite length_fmap, length_seq.
Qed.

Lemma entry_cdiag d N i j :
  (i < N)%nat → (j < N)%nat →
  entry (cdiag d N) i j = if (i =? j)%nat then RtoC (d i) else C0.
Proof.
  intros Hi Hj. unfold entry.
  rewrite (list_lookup_total_correct _ _ _ (lookup_cdiag d N i Hi)).
  apply list_lookup_total_correct. by rewrite lookup_fmap_seq.
Qed.

Lemma dot_cons x y (u v : list C) : dot (x :: u) (y :: v) = (x * y + dot u v)%C.
Proof. done. Qed.

(** A row with a single non-zero cell picks one amplitude. *)
Lemma dot_delta_zero (c : C) : ∀ (v : list C) (s k : nat),
  (k < s)%nat →
  dot ((fun j => if (k =? j)%nat then c else C0) <$> seq s (length v)) v = C0.
Proof.
  induction v as [|x v IH]; intros s k Hk; [done|].
  cbn [length seq]. rewrite fmap_cons, dot_cons, IH by lia. destruct (k =? s)%nat eqn:E; [apply Nat.eqb_eq in E; lia|].
  csolve.
Qed.

Lemma dot_delta (c : C) : ∀ (v : list C) (s i : nat) (a : C),
  v !! i = Some a →
  dot ((fun j => if (s + i =? j)%nat then c else C0) <$> seq s (length v)) v = (c * a)%C.
Proof.
  induction v as [|x v IH]; intros s i a Hi; [done|].
  cbn [length seq]. rewrite fmap_cons, dot_cons.
  destruct i as [|i]; simplify_eq/=.
  - rewrite Nat.add_0_r, Nat.eqb_refl, dot_delta_zero by lia. csolve.
  - replace (s + S i)%nat with (S s + i)%nat by lia.
    rewrite (IH (S s) i a) by done.
    destruct (S s + i =? s)%nat eqn:E; [apply Nat.eqb_eq in E; lia|]. csolve.
Qed.

(** A diagonal matrix scales every amplitude by its diagonal entry. *)
Lemma mat_vec_cdiag d (v : list C) :
  mat_vec (cdiag d (length v)) v = imap (fun i a => Cscal (d i) a) v.
Proof.
  apply list_eq. intros i. unfold mat_vec.
  rewrite list_lookup_fmap, list_lookup_imap.
  destruct (v !! i) as [a|] eqn:Hi.
  - pose proof (lookup_lt_Some _ _ _ Hi).
    rewrite lookup_cdiag by done. cbn [fmap option_fmap option_map]. f_equal.
    pose proof (dot_delta (RtoC (d i)) v 0 i a Hi) as Hd.
    cbn [Nat.add] in Hd. rewrite Hd. csolve.
  - apply lookup_ge_None in Hi. rewrite lookup_ge_None_2; [done|].
    by rewrite length_cdiag.
Qed.

Lemma imap_Cscal_1 (v : list C) : imap (fun _ a => Cscal 1 a) v = v.
Proof.
  rewrite (imap_const (Cscal 1)). induction v as [|x v IH]; [done|].
  rewrite fmap_cons, IH. f_equal. csolve.
Qed.

Lemma oracle_sign_0 i : oracle_sign [0%Z] i = if (i =? 0)%nat then -1 else 1.
Proof.
  unfold oracle_sign. destruct i as [|i].
  - by rewrite decide_True by apply list_elem_of_here.
  - by rewrite decide_False by (intros ?%list_elem_of_singleton; lia).
Qed.

(** The oracle marking index 0 changes the sign of the first amplitude. *)
Lemma mat_vec_oracle_0 (v : list C) :
  mat_vec (cdiag (oracle_sign [0%Z]) (length v)) v = flip0 v.
Proof.
  rewrite mat_vec_cdiag. destruct v as [|x v]; [done|].
  rewrite imap_cons. cbn [flip0]. f_equal.
  - rewrite oracle_sign_0. cbn [Nat.eqb]. csolve.
  - rewrite <- (imap_Cscal_1 v) at 2. apply imap_ext. intros i a _. simpl.
    by rewrite oracle_sign_0.
Qed.

(** ** Running instruction lists *)

Lemma exec_list_app n l1 l2 s :
  exec_list n (l1 ++ l2) s = exec_list n l1 s ≫= exec_list n l2.
Proof.
  revert s. induction l1 as [|i l1 IH]; intros s; [done|].
  simpl. destruct (exec n i s); [apply IH|done].
Qed.

Lemma exec_sub n nm body s :
  exec n (SubCircuit nm n body (seq 0 n)) s = exec_list n body s.
Proof.
  cbn [exec]. rewrite decide_True by done.
  revert s. induction body as [|i l IH]; intros s; [done|].
  cbn [exec_list]. destruct (exec n i s); [apply IH|done].
Qed.

Lemma exec_unitary n U s :
  square (2 ^ n) U →
  exec n (UnitaryGate U (seq 0 n)) s = Some (with_sv s (mat_vec U (sv s))).
Proof. intros HU. cbn [exec]. by rewrite decide_True. Qed.

Lemma exec_h_gates n (qs : list nat) : ∀ s,
  Forall (fun q => q < n)%nat qs →
  exec_list n (HGate <$> qs) s =
  Some (with_sv s (foldl (fun v q => apply_h n q v) (sv s) qs)).
Proof.
  induction qs as [|q qs IH]; intros s Hqs.
  - by destruct s.
  - apply Forall_cons in Hqs as [Hq Hqs]. rewrite fmap_cons. cbn [exec_list exec].
    rewrite decide_True by done. rewrite IH by done. done.
Qed.

(** The Hadamard layer on a register of the right size. *)
Lemma exec_h_layer n s :
  length (sv s) = (2 ^ n)%nat →
  exec_list n (HGate <$> seq 0 n) s = Some (with_sv s (wht n (sv s))).
Proof.
  intros Hs. rewrite exec_h_gates.
  - fold (h_layer n (sv s)). by rewrite h_layer_wht.
  - apply Forall_forall. intros q Hq%elem_of_seq. lia.
Qed.

(** ** Powers of two *)

Lemma p2_pos e : 0 < bpow e.
Proof. unfold bpow. apply powerRZ_lt. lra. Qed.

Lemma p2_add a b : bpow (a + b) = bpow a * bpow b.
Proof. unfold bpow. apply powerRZ_add. lra. Qed.

Lemma p2_IZR e : (0 ≤ e)%Z → bpow e = IZR (2 ^ e).
Proof.
  intros He. unfold bpow. rewrite <- (Z2Nat.id e He) at 1.
  rewrite <- pow_powerRZ, pow_IZR. by rewrite Z2Nat.id.
Qed.

Lemma p2_neg e : bpow (- e) = / bpow e.
Proof. unfold bpow. apply powerRZ_neg'. Qed.

Lemma p2_ge_1 e : (0 ≤ e)%Z → 1 <= bpow e.
Proof.
  intros He. rewrite p2_IZR by done. apply IZR_le.
  pose proof (Z.pow_pos_nonneg 2 e ltac:(lia) He). lia.
Qed.

Lemma p2_le a b : (a ≤ b)%Z → bpow a <= bpow b.
Proof.
  intros Hab. replace b with (a + (b - a))%Z by lia. rewrite p2_add.
  pose proof (p2_pos a). pose proof (p2_ge_1 (b - a) ltac:(lia)). nra.
Qed.

Lemma p2_lt a b : (a < b)%Z → bpow a < bpow b.
Proof.
  intros Hab. replace b with (a + 1 + (b - a - 1))%Z by lia.
  rewrite !p2_add. change (bpow 1) with (2 * 1).
  pose proof (p2_pos a). pose proof (p2_ge_1 (b - a - 1) ltac:(lia)). nra.
Qed.

Lemma p2_lt_inv a b : bpow a < bpow b → (a < b)%Z.
Proof.
  intros H. destruct (Z_lt_le_dec a b) as [|Hle]; [done|].
  apply p2_le in Hle. lra.
Qed.

Lemma p2_half e : bpow (e - 1) = bpow e / 2.
Proof.
  replace (e - 1)%Z with (e + - (1))%Z by lia. rewrite p2_add, p2_neg.
  change (bpow 1) with (2 * 1). field.
Qed.

Lemma p2_double e : bpow (e + 1) = 2 * bpow e.
Proof. rewrite p2_add. change (bpow 1) with (2 * 1). ring. Qed.

Lemma p2_square e : bpow (2 * e) = bpow e * bpow e.
Proof. replace (2 * e)%Z with (e + e)%Z by lia. apply p2_add. Qed.

(** [IZR (a * 2^e)] and friends, for either sign of the exponent. *)
Lemma IZR_shift (a e : Z) : (0 ≤ e)%Z → IZR (a * 2 ^ e) = IZR a * bpow e.
Proof. intros He. by rewrite mult_IZR, p2_IZR. Qed.

Lemma pow2_pos_Z (e : Z) : (0 ≤ e)%Z → (0 < 2 ^ e)%Z.
Proof. intros. by apply Z.pow_pos_nonneg. Qed.

(** ** Binary digits and binades *)

Lemma digits_bounds (a : Z) :
  (0 < a)%Z → (2 ^ (digits a - 1) ≤ a < 2 ^ digits a)%Z.
Proof.
  intros Ha. unfold digits. rewrite (proj2 (Z.eqb_neq a 0)) by lia.
  rewrite Z.abs_eq by lia. pose proof (Z.log2_spec a Ha) as H.
  replace (Z.log2 a + 1 - 1)%Z with (Z.log2 a) by lia.
  replace (Z.log2 a + 1)%Z with (Z.succ (Z.log2 a)) by lia. done.
Qed.

Lemma digits_pos (a : Z) : (0 < a)%Z → (1 ≤ digits a)%Z.
Proof.
  intros Ha. unfold digits. rewrite (proj2 (Z.eqb_neq a 0)) by lia.
  pose proof (Z.log2_nonneg (Z.abs a)). lia.
Qed.

Lemma digits_bounds_R (a : Z) :
  (0 < a)%Z → bpow (digits a - 1) <= IZR a < bpow (digits a).
Proof.
  intros Ha. pose proof (digits_bounds a Ha) as [H1 H2].
  pose proof (digits_pos a Ha).
  rewrite !p2_IZR by lia. split; [by apply IZR_le | by apply IZR_lt].
Qed.

Lemma ge_pow2_spec (a b e : Z) :
  (0 < a)%Z → (0 < b)%Z →
  ge_pow2 a b e = true ↔ bpow e <= IZR a / IZR b.
Proof.
  intros Ha Hb. unfold ge_pow2.
  assert (0 < IZR b) as HbR by (by apply IZR_lt).
  assert (0 < IZR a) as HaR by (by apply IZR_lt).
  destruct (0 <=? e)%Z eqn:He.
  - apply Z.leb_le in He. rewrite Z.leb_le.
    split.
    + intros H%IZR_le. rewrite IZR_shift in H by done.
      apply (Rmult_le_reg_r (IZR b)); [done|].
      replace (IZR a / IZR b * IZR b) with (IZR a) by (field; lra). lra.
    + intros H. apply le_IZR. rewrite IZR_shift by done.
      apply (Rmult_le_compat_r (IZR b)) in H; [|lra].
      replace (IZR a / IZR b * IZR b) with (IZR a) in H by (field; lra). lra.
  - apply Z.leb_gt in He. rewrite Z.leb_le.
    assert (bpow e = / bpow (- e)) as -> by (rewrite <- p2_neg; f_equal; lia).
    pose proof (p2_pos (- e)) as Hp.
    split.
    + intros H%IZR_le. rewrite IZR_shift in H by lia.
      apply (Rmult_le_reg_r (IZR b * bpow (- e))); [nra|].
      replace (/ bpow (- e) * (IZR b * bpow (- e))) with (IZR b) by (field; lra).
      replace (IZR a / IZR b * (IZR b * bpow (- e))) with (IZR a * bpow (- e))
        by (field; lra). done.
    + intros H. apply le_IZR. rewrite IZR_shift by lia.
      apply (Rmult_le_compat_r (IZR b * bpow (- e))) in H; [|nra].
      replace (/ bpow (- e) * (IZR b * bpow (- e))) with (IZR b) in H by (field; lra).
      replace (IZR a / IZR b * (IZR b * bpow (- e))) with (IZR a * bpow (- e)) in H
        by (field; lra). done.
Qed.

Lemma mag_correct (a b : Z) :
  (0 < a)%Z → (0 < b)%Z →
  bpow (mag a b - 1) <= IZR a / IZR b < bpow (mag a b).
Proof.
  intros Ha Hb. unfold mag.
  pose proof (digits_bounds_R a Ha) as [Ha1 Ha2].
  pose proof (digits_bounds_R b Hb) as [Hb1 Hb2].
  assert (0 < IZR b) as HbR by (by apply IZR_lt).
  assert (0 < IZR a) as HaR by (by apply IZR_lt).
  set (e := (digits a - digits b)%Z).
  pose proof (p2_pos (digits b)) as Hpb. pose proof (p2_pos (digits b - 1)) as Hpb'.
  assert (bpow (e - 1) < IZR a / IZR b) as Hlo.
  { apply (Rmult_lt_reg_r (IZR b)); [done|].
    replace (IZR a / IZR b * IZR b) with (IZR a) by (field; lra).
    apply Rlt_le_trans with (bpow (e - 1) * bpow (digits b));
      [apply Rmult_lt_compat_l; [apply p2_pos|lra]|].
    rewrite <- p2_add. replace (e - 1 + digits b)%Z with (digits a - 1)%Z by lia. done. }
  assert (IZR a / IZR b < bpow (e + 1)) as Hhi.
  { apply (Rmult_lt_reg_r (IZR b)); [done|].
    replace (IZR a / IZR b * IZR b) with (IZR a) by (field; lra).
    apply Rlt_le_trans with (bpow (e + 1) * bpow (digits b - 1)).
    - rewrite <- p2_add. replace (e + 1 + (digits b - 1))%Z with (digits a) by lia. done.
    - apply Rmult_le_compat_l; [pose proof (p2_pos (e + 1)); lra|lra]. }
  destruct (ge_pow2 a b e) eqn:Hge.
  - apply ge_pow2_spec in Hge; [|done..].
    replace (e + 1 - 1)%Z with e by lia. lra.
  - assert (¬ bpow e <= IZR a / IZR b) as Hn.
    { intros H%ge_pow2_spec; [congruence|done..]. }
    lra.
Qed.

Lemma mag_unique (x : R) (e e' : Z) :
  bpow (e - 1) <= x < bpow e → bpow (e' - 1) <= x < bpow e' → e = e'.
Proof.
  intros [H1 H2] [H3 H4].
  assert (e - 1 < e')%Z by (apply p2_lt_inv; lra).
  assert (e' - 1 < e)%Z by (apply p2_lt_inv; lra). lia.
Qed.

Lemma mag_le_upper (a b e' : Z) :
  (0 < a)%Z → (0 < b)%Z → IZR a / IZR b < bpow e' → (mag a b ≤ e')%Z.
Proof.
  intros Ha Hb Hx. pose proof (mag_correct a b Ha Hb) as [H1 H2].
  assert (mag a b - 1 < e')%Z by (apply p2_lt_inv; lra). lia.
Qed.

Lemma mag_ge_lower (a b e' : Z) :
  (0 < a)%Z → (0 < b)%Z → bpow e' <= IZR a / IZR b → (e' + 1 ≤ mag a b)%Z.
Proof.
  intros Ha Hb Hx. pose proof (mag_correct a b Ha Hb) as [H1 H2].
  assert (e' < mag a b)%Z by (apply p2_lt_inv; lra). lia.
Qed.

Lemma fexp_mono e e' : (e ≤ e')%Z → (fexp e ≤ fexp e')%Z.
Proof. unfold fexp. lia. Qed.

(** ** Rounding to the nearest integer *)

Lemma nearest_even_spec (A B : Z) :
  (0 ≤ A)%Z → (0 < B)%Z →
  Rabs (IZR (nearest_even A B) - IZR A / IZR B) <= / 2 ∧
  (Rabs (IZR (nearest_even A B) - IZR A / IZR B) = / 2 →
   Z.even (nearest_even A B) = true).
Proof.
  intros HA HB. unfold nearest_even.
  pose proof (Z.div_mod A B ltac:(lia)) as Hdm.
  pose proof (Z.mod_pos_bound A B HB) as [Hr0 Hr1].
  set (q := (A / B)%Z) in *. set (r := (A mod B)%Z) in *.
  assert (0 < IZR B) as HBR by (by apply IZR_lt).
  assert (IZR A / IZR B = IZR q + IZR r / IZR B) as ->.
  { rewrite Hdm, plus_IZR, mult_IZR. field. lra. }
  assert (0 <= IZR r / IZR B < 1) as [Hf0 Hf1].
  { split.
    - apply Rmult_le_pos; [by apply IZR_le|]. apply Rlt_le, Rinv_0_lt_compat. done.
    - apply (Rmult_lt_reg_r (IZR B)); [done|].
      replace (IZR r / IZR B * IZR B) with (IZR r) by (field; lra).
      rewrite Rmult_1_l. by apply IZR_lt. }
  destruct (2 * r ?= B)%Z eqn:Hc.
  - apply Z.compare_eq in Hc.
    assert (IZR r / IZR B = / 2) as Hhalf.
    { rewrite <- Hc, mult_IZR. field. apply (f_equal IZR) in Hc.
      rewrite mult_IZR in Hc. lra. }
    rewrite Hhalf. destruct (Z.even q) eqn:Hev.
    + split; [|done]. replace (IZR q - (IZR q + / 2)) with (- / 2) by ring.
      rewrite Rabs_Ropp, Rabs_pos_eq by lra. lra.
    + split.
      * rewrite plus_IZR. replace (IZR q + 1 - (IZR q + / 2)) with (/ 2) by field.
        rewrite Rabs_pos_eq by lra. lra.
      * intros _. rewrite Z.even_add, Hev. done.
  - apply Z.compare_lt_iff in Hc.
    assert (IZR r / IZR B < / 2) as Hlt.
    { apply (Rmult_lt_reg_r (IZR B)); [done|].
      replace (IZR r / IZR B * IZR B) with (IZR r) by (field; lra).
      apply IZR_lt in Hc. rewrite mult_IZR in Hc. lra. }
    replace (IZR q - (IZR q + IZR r / IZR B)) with (- (IZR r / IZR B)) by ring.
    rewrite Rabs_Ropp, Rabs_pos_eq by lra. split; [lra|]. intros H. lra.
  - apply Z.compare_gt_iff in Hc.
    assert (/ 2 < IZR r / IZR B) as Hgt.
    { apply (Rmult_lt_reg_r (IZR B)); [done|].
      replace (IZR r / IZR B * IZR B) with (IZR r) by (field; lra).
      apply IZR_lt in Hc. rewrite mult_IZR in Hc. lra. }
    rewrite plus_IZR.
    replace (IZR q + 1 - (IZR q + IZR r / IZR B)) with (1 - IZR r / IZR B) by ring.
    rewrite Rabs_pos_eq by lra. split; [lra|]. intros H. lra.
Qed.

Lemma nearest_even_nonneg (A B : Z) :
  (0 ≤ A)%Z → (0 < B)%Z → (0 ≤ nearest_even A B)%Z.
Proof.
  intros HA HB. unfold nearest_even.
  pose proof (Z.div_pos A B HA HB).
  destruct (_ ?= _)%Z; [destruct (Z.even _)|..]; lia.
Qed.

(** ** The double nearest to a ratio *)

Lemma round_ratio_mantissa (a b : Z) :
  (0 < a)%Z → (0 < b)%Z →
  let c := fexp (mag a b) in
  let y := IZR a / IZR b * bpow (- c) in
  Fexp (round_ratio a b) = c ∧
  (0 ≤ Fnum (round_ratio a b))%Z ∧
  Rabs (IZR (Fnum (round_ratio a b)) - y) <= / 2 ∧
  (Rabs (IZR (Fnum (round_ratio a b)) - y) = / 2 →
   Z.even (Fnum (round_ratio a b)) = true).
Proof.
  intros Ha Hb c y. unfold round_ratio.
  rewrite (proj2 (Z.eqb_neq a 0)) by lia. fold c. cbn [Fexp Fnum].
  assert (0 < IZR b) as HbR by (by apply IZR_lt).
  split; [done|].
  destruct (0 <=? c)%Z eqn:Hc.
  - apply Z.leb_le in Hc. pose proof (pow2_pos_Z c Hc).
    pose proof (p2_pos c) as Hp.
    assert (IZR a / IZR (b * 2 ^ c) = y) as Hy.
    { unfold y. rewrite IZR_shift, p2_neg by done. field. lra. }
    rewrite <- Hy. split; [apply nearest_even_nonneg; lia|].
    apply nearest_even_spec; lia.
  - apply Z.leb_gt in Hc. pose proof (pow2_pos_Z (- c) ltac:(lia)).
    assert (IZR (a * 2 ^ (- c)) / IZR b = y) as Hy.
    { unfold y. rewrite IZR_shift by lia. field. lra. }
    rewrite <- Hy. split; [apply nearest_even_nonneg; lia|].
    apply nearest_even_spec; lia.
Qed.

Lemma F2R_round_ratio_nonneg (a b : Z) :
  (0 ≤ a)%Z → (0 < b)%Z → 0 <= F2R (round_ratio a b).
Proof.
  intros Ha Hb. destruct (Z.eq_dec a 0%Z) as [->|Hne].
  - unfold round_ratio, F2R. simpl. lra.
  - destruct (round_ratio_mantissa a b ltac:(lia) Hb) as (_ & Hm & _).
    unfold F2R. apply Rmult_le_pos; [by apply IZR_le|]. apply Rlt_le, p2_pos.
Qed.

(** The error of a rounding is at most half a unit in the last place of
    the binade of the exact value. *)
Lemma round_ratio_error (a b e' : Z) :
  (0 < a)%Z → (0 < b)%Z → IZR a / IZR b < bpow e' →
  Rabs (F2R (round_ratio a b) - IZR a / IZR b) <= bpow (fexp e' - 1).
Proof.
  intros Ha Hb Hx.
  destruct (round_ratio_mantissa a b Ha Hb) as (Hc & _ & Herr & _).
  set (c := fexp (mag a b)) in *.
  pose proof (p2_pos c) as Hp.
  assert (0 < IZR b) as HbR by (by apply IZR_lt).
  apply Rle_trans with (bpow (c - 1)).
  - unfold F2R. rewrite Hc.
    replace (IZR (Fnum (round_ratio a b)) * bpow c - IZR a / IZR b)
      with ((IZR (Fnum (round_ratio a b)) - IZR a / IZR b * bpow (- c)) * bpow c)
      by (rewrite p2_neg; field; split; lra).
    rewrite Rabs_mult, (Rabs_pos_eq (bpow c)) by lra.
    rewrite p2_half. apply Rle_trans with (/ 2 * bpow c); [|lra].
    apply Rmult_le_compat_r; [lra|done].
  - apply p2_le. pose proof (mag_le_upper a b e' Ha Hb Hx).
    pose proof (fexp_mono _ _ H). unfold c. lia.
Qed.

(** In the normal range the error is relative: at most [2^-53] of the
    exact value. *)
Lemma round_ratio_relative (a b : Z) :
  (0 < a)%Z → (0 < b)%Z → bpow (-1022) <= IZR a / IZR b →
  Rabs (F2R (round_ratio a b) - IZR a / IZR b) <= bpow (-53) * (IZR a / IZR b).
Proof.
  intros Ha Hb Hx. pose proof (mag_correct a b Ha Hb) as [H1 H2].
  pose proof (mag_ge_lower a b _ Ha Hb Hx) as Hm.
  eapply Rle_trans; [apply (round_ratio_error a b (mag a b)); done|].
  unfold fexp. rewrite Z.max_l by lia.
  replace (mag a b - 53 - 1)%Z with (-53 + (mag a b - 1))%Z by lia.
  rewrite p2_add. apply Rmult_le_compat_l; [apply Rlt_le, p2_pos|done].
Qed.

Lemma F2R_pos_Fnum (x : float) : 0 < F2R x → (0 < Fnum x)%Z.
Proof.
  unfold F2R. intros H. pose proof (p2_pos (Fexp x)) as Hp.
  apply lt_IZR. destruct (Rle_or_lt (IZR (Fnum x)) 0) as [Hle|]; [|done].
  assert (IZR (Fnum x) * bpow (Fexp x) <= 0); [|lra].
  replace 0 with (0 * bpow (Fexp x)) by ring. apply Rmult_le_compat_r; lra.
Qed.

Lemma Fexp_round_ratio (a b : Z) :
  (0 < a)%Z → (0 < b)%Z → (-1074 ≤ Fexp (round_ratio a b))%Z.
Proof.
  intros Ha Hb. destruct (round_ratio_mantissa a b Ha Hb) as (-> & _).
  unfold fexp. lia.
Qed.

(** ** Integer floor of a quotient *)

Lemma Zfloor_div (m d : Z) : (0 < d)%Z → Zfloor (IZR m / IZR d) = (m / d)%Z.
Proof.
  intros Hd. apply Zfloor_eq.
  pose proof (Z.div_mod m d ltac:(lia)) as Hdm.
  pose proof (Z.mod_pos_bound m d Hd) as [Hr0 Hr1].
  assert (0 < IZR d) as HdR by (by apply IZR_lt).
  assert (IZR m / IZR d = IZR (m / d) + IZR (m mod d) / IZR d) as ->.
  { rewrite Hdm at 1. rewrite plus_IZR, mult_IZR. field. lra. }
  assert (0 <= IZR (m mod d) / IZR d < 1); [|lra].
  split.
  - apply Rmult_le_pos; [by apply IZR_le|]. by apply Rlt_le, Rinv_0_lt_compat.
  - apply (Rmult_lt_reg_r (IZR d)); [done|].
    replace (IZR (m mod d) / IZR d * IZR d) with (IZR (m mod d)) by (field; lra).
    rewrite Rmult_1_l. by apply IZR_lt.
Qed.

(** [int(np.floor(x))] is the floor of the number [x] stands for. *)
Lemma py_int_np_floor (x : float) : py_int (np_floor x) = Zfloor (F2R x).
Proof.
  unfold py_int, np_floor, F2R. cbn [Fexp Fnum]. cbn [Z.leb Z.compare].
  rewrite Z.pow_0_r, Z.mul_1_r.
  destruct (0 <=? Fexp x)%Z eqn:He.
  - apply Z.leb_le in He. rewrite <- IZR_shift by done. by rewrite ZfloorZ.
  - apply Z.leb_gt in He.
    rewrite <- Zfloor_div by (apply pow2_pos_Z; lia).
    f_equal. rewrite <- p2_IZR by lia. rewrite p2_neg. unfold Rdiv.
    by rewrite Rinv_inv.
Qed.

(** ** Products *)

Lemma float_mul_ratio (x y : float) :
  (0 < Fnum x)%Z → (0 < Fnum y)%Z →
  ∃ a b, (0 < a)%Z ∧ (0 < b)%Z ∧
         float_mul x y = round_ratio a b ∧
         IZR a / IZR b = F2R x * F2R y.
Proof.
  intros Hx Hy. unfold float_mul, F2R.
  assert (0 < Fnum x * Fnum y)%Z as Hm by lia.
  destruct (0 <=? Fexp x + Fexp y)%Z eqn:He.
  - apply Z.leb_le in He. eexists _, 1%Z. split_and!; [|lia|done|].
    + pose proof (pow2_pos_Z _ He). lia.
    + rewrite IZR_shift, mult_IZR, p2_add by done. field.
  - apply Z.leb_gt in He. eexists _, _. split_and!; [done| |done|].
    + apply pow2_pos_Z. lia.
    + rewrite <- p2_IZR by lia. rewrite p2_neg, mult_IZR, p2_add.
      pose proof (p2_pos (Fexp x)). pose proof (p2_pos (Fexp y)).
      field. split; lra.
Qed.

Lemma float_mul_zero_r (x : float) (e : Z) : F2R (float_mul x (mkFloat 0 e)) = 0.
Proof.
  unfold float_mul. cbn [Fnum Fexp]. rewrite Z.mul_0_r.
  destruct (0 <=? _)%Z; unfold round_ratio; simpl; unfold F2R; simpl; lra.
Qed.

(** ** Square roots *)

Lemma sqrt_bpow (e : Z) : sqrt (bpow (2 * e)) = bpow e.
Proof.
  rewrite p2_square. apply sqrt_square. apply Rlt_le, p2_pos.
Qed.

Lemma Zsqrt_bounds (w : R) (f : Z) :
  (0 ≤ f)%Z → IZR f <= w < IZR f + 1 →
  IZR (Z.sqrt f) <= sqrt w < IZR (Z.sqrt f) + 1.
Proof.
  intros Hf [Hw1 Hw2]. pose proof (Z.sqrt_spec f Hf) as [Hs1 Hs2].
  pose proof (Z.sqrt_nonneg f) as Hq.
  set (q := Z.sqrt f) in *. clearbody q.
  assert (0 <= IZR q) as HqR by (by apply IZR_le).
  apply IZR_le in Hs1. rewrite mult_IZR in Hs1.
  assert (IZR f + 1 <= IZR (Z.succ q) * IZR (Z.succ q)) as Hs2'.
  { rewrite <- mult_IZR, <- plus_IZR. apply IZR_le. lia. }
  rewrite succ_IZR in Hs2'.
  assert (0 <= IZR f) as HfR by (by apply IZR_le).
  split.
  - rewrite <- (sqrt_square (IZR q)) by done. apply sqrt_le_1_alt.
    eapply Rle_trans; eassumption.
  - rewrite <- (sqrt_square (IZR q + 1)) by lra. apply sqrt_lt_1_alt.
    split; [lra|]. eapply Rlt_le_trans; eassumption.
Qed.

Lemma sqrt_arg_pos (x : float) : (0 < Fnum x)%Z → 0 < F2R x.
Proof.
  intros Hm. unfold F2R. apply Rmult_lt_0_compat; [by apply IZR_lt|apply p2_pos].
Qed.

Lemma sqrt_binade (x : float) :
  (0 < Fnum x)%Z →
  bpow (sqrt_mag x - 1) <= sqrt (F2R x) < bpow (sqrt_mag x).
Proof.
  intros Hm.
  pose proof (digits_bounds_R (Fnum x) Hm) as [Hd1 Hd2].
  pose proof (p2_pos (Fexp x)) as Hp.
  pose proof (sqrt_arg_pos x Hm) as Hv.
  unfold sqrt_mag.
  set (E := (digits (Fnum x) + Fexp x)%Z).
  assert (bpow (E - 1) <= F2R x < bpow E) as [Hv1 Hv2].
  { unfold F2R, E. split.
    - replace (digits (Fnum x) + Fexp x - 1)%Z
        with ((digits (Fnum x) - 1) + Fexp x)%Z by lia.
      rewrite p2_add. apply Rmult_le_compat_r; lra.
    - rewrite p2_add. apply Rmult_lt_compat_r; lra. }
  pose proof (Z.div_mod (E + 1) 2 ltac:(lia)) as Hdm.
  pose proof (Z.mod_pos_bound (E + 1) 2 ltac:(lia)) as Hmod.
  set (d := ((E + 1) / 2)%Z) in *. clearbody d. clearbody E.
  split.
  - rewrite <- sqrt_bpow. apply sqrt_le_1_alt.
    apply Rle_trans with (bpow (E - 1)); [|done]. apply p2_le. lia.
  - rewrite <- sqrt_bpow. apply sqrt_lt_1_alt. split; [lra|].
    apply Rlt_le_trans with (bpow E); [done|]. apply p2_le. lia.
Qed.

Lemma np_sqrt_mantissa (x : float) :
  (0 < Fnum x)%Z →
  let c := fexp (sqrt_mag x) in
  let y := sqrt (F2R x) * bpow (- c) in
  Fexp (np_sqrt x) = c ∧
  Rabs (IZR (Fnum (np_sqrt x)) - y) <= / 2 ∧
  (Rabs (IZR (Fnum (np_sqrt x)) - y) = / 2 → Z.even (Fnum (np_sqrt x)) = true).
Proof.
  intros Hm c y. unfold y. clear y.
  pose proof (sqrt_arg_pos x Hm) as Hv.
  unfold np_sqrt. rewrite (proj2 (Z.eqb_neq (Fnum x) 0)) by lia.
  fold c. cbn [Fexp Fnum]. split; [done|].
  set (k := (Fexp x - 2 * c)%Z).
  set (A := if (0 <=? k)%Z then (Fnum x * 2 ^ k)%Z else Fnum x).
  set (B := if (0 <=? k)%Z then 1%Z else (2 ^ (- k))%Z).
  assert (0 < A ∧ 0 < B)%Z as [HA HB].
  { unfold A, B. destruct (0 <=? k)%Z eqn:Hk.
    - apply Z.leb_le in Hk. pose proof (pow2_pos_Z k Hk). lia.
    - apply Z.leb_gt in Hk. pose proof (pow2_pos_Z (- k) ltac:(lia)). lia. }
  set (w := IZR A / IZR B).
  assert (0 < IZR B) as HBR by (by apply IZR_lt).
  assert (0 < IZR A) as HAR by (by apply IZR_lt).
  assert (w = F2R x * bpow (- (2 * c))) as Hw.
  { unfold w, A, B, F2R. rewrite Rmult_assoc, <- p2_add.
    replace (Fexp x + - (2 * c))%Z with k by (unfold k; lia).
    destruct (0 <=? k)%Z eqn:Hk.
    - apply Z.leb_le in Hk. rewrite IZR_shift by done. field.
    - apply Z.leb_gt in Hk. rewrite <- p2_IZR by lia. rewrite p2_neg.
      pose proof (p2_pos k). field. lra. }
  assert (sqrt (F2R x) * bpow (- c) = sqrt w) as ->.
  { rewrite Hw, sqrt_mult_alt by lra.
    f_equal. replace (- (2 * c))%Z with (2 * - c)%Z by lia. by rewrite sqrt_bpow. }
  assert (0 < w) as Hwpos by (unfold w; by apply Rdiv_lt_0_compat).
  assert (IZR (A / B) <= w < IZR (A / B) + 1) as Hfl.
  { unfold w. rewrite <- Zfloor_div by done. apply Zfloor_bound. }
  assert (IZR (4 * A) = 4 * w * IZR B) as H4A.
  { rewrite mult_IZR. unfold w. field. lra. }
  pose proof (Z.div_pos A B ltac:(lia) HB) as Hfpos.
  pose proof (Zsqrt_bounds w (A / B) Hfpos Hfl) as [Hq1 Hq2].
  set (q := Z.sqrt (A / B)) in *.
  assert (0 ≤ q)%Z as Hq by apply Z.sqrt_nonneg.
  clearbody q. clear Hw. clearbody w. clearbody A B.
  assert (0 <= IZR q) as HqR by (by apply IZR_le).
  assert (IZR ((2 * q + 1) * (2 * q + 1) * B)
          = 4 * ((IZR q + / 2) * (IZR q + / 2)) * IZR B) as Hsq.
  { rewrite !mult_IZR, plus_IZR, mult_IZR. field. }
  assert (sqrt w * sqrt w = w) as Hss by (apply sqrt_sqrt; lra).
  pose proof (sqrt_pos w) as Hsp.
  destruct (4 * A ?= (2 * q + 1) * (2 * q + 1) * B)%Z eqn:Hcmp.
  - apply Z.compare_eq in Hcmp. apply (f_equal IZR) in Hcmp.
    rewrite H4A, Hsq in Hcmp.
    assert (w = (IZR q + / 2) * (IZR q + / 2)) as Hweq by nra.
    assert (sqrt w = IZR q + / 2) as Hs.
    { rewrite Hweq. apply sqrt_square. lra. }
    rewrite Hs. destruct (Z.even q) eqn:Hev.
    + split; [|done]. replace (IZR q - (IZR q + / 2)) with (- / 2) by ring.
      rewrite Rabs_Ropp, Rabs_pos_eq by lra. lra.
    + split.
      * rewrite plus_IZR. replace (IZR q + 1 - (IZR q + / 2)) with (/ 2) by field.
        rewrite Rabs_pos_eq by lra. lra.
      * intros _. by rewrite Z.even_add, Hev.
  - apply Z.compare_lt_iff in Hcmp. apply IZR_lt in Hcmp.
    rewrite H4A, Hsq in Hcmp.
    assert (w < (IZR q + / 2) * (IZR q + / 2)) as Hwlt by nra.
    assert (sqrt w < IZR q + / 2) as Hs.
    { rewrite <- (sqrt_square (IZR q + / 2)) by lra. apply sqrt_lt_1_alt. lra. }
    rewrite Rabs_left1 by lra. split; [lra|]. intros H. lra.
  - apply Z.compare_gt_iff in Hcmp. apply IZR_lt in Hcmp.
    rewrite H4A, Hsq in Hcmp.
    assert ((IZR q + / 2) * (IZR q + / 2) < w) as Hwgt by nra.
    assert (IZR q + / 2 < sqrt w) as Hs.
    { rewrite <- (sqrt_square (IZR q + / 2)) by lra. apply sqrt_lt_1_alt.
      split; [nra|done]. }
    rewrite plus_IZR, Rabs_pos_eq by lra. split; [lra|]. intros H. lra.
Qed.

Lemma np_sqrt_error (x : float) (e' : Z) :
  (0 < Fnum x)%Z →
  sqrt (F2R x) < bpow e' →
  Rabs (F2R (np_sqrt x) - sqrt (F2R x)) <= bpow (fexp e' - 1).
Proof.
  intros Hm He'. destruct (np_sqrt_mantissa x Hm) as (Hc & Herr & _).
  pose proof (sqrt_binade x Hm) as [Hb1 Hb2].
  set (c := fexp (sqrt_mag x)) in *.
  pose proof (p2_pos c) as Hp.
  apply Rle_trans with (bpow (c - 1)).
  - unfold F2R at 1. rewrite Hc.
    replace (IZR (Fnum (np_sqrt x)) * bpow c - sqrt (F2R x))
      with ((IZR (Fnum (np_sqrt x)) - sqrt (F2R x) * bpow (- c)) * bpow c)
      by (rewrite p2_neg; field; lra).
    rewrite Rabs_mult, (Rabs_pos_eq (bpow c)) by lra.
    rewrite p2_half. apply Rle_trans with (/ 2 * bpow c); [|lra].
    apply Rmult_le_compat_r; [lra|done].
  - apply p2_le. assert (sqrt_mag x - 1 < e')%Z by (apply p2_lt_inv; lra).
    pose proof (fexp_mono (sqrt_mag x) e' ltac:(lia)). unfold c. lia.
Qed.

Lemma np_sqrt_relative (x : float) :
  (0 < Fnum x)%Z → (-1074 ≤ Fexp x)%Z →
  Rabs (F2R (np_sqrt x) - sqrt (F2R x)) <= bpow (-53) * sqrt (F2R x).
Proof.
  intros Hm Hex. pose proof (sqrt_binade x Hm) as [Hb1 Hb2].
  eapply Rle_trans; [apply (np_sqrt_error x (sqrt_mag x)); done|].
  pose proof (digits_pos (Fnum x) Hm) as Hd.
  pose proof (Z.div_mod (digits (Fnum x) + Fexp x + 1) 2 ltac:(lia)) as Hdm.
  pose proof (Z.mod_pos_bound (digits (Fnum x) + Fexp x + 1) 2 ltac:(lia)) as Hmod.
  unfold sqrt_mag in *.
  set (d := ((digits (Fnum x) + Fexp x + 1) / 2)%Z) in *. clearbody d.
  unfold fexp. rewrite Z.max_l by lia.
  replace (d - 53 - 1)%Z with (-53 + (d - 1))%Z by lia.
  rewrite p2_add. apply Rmult_le_compat_l; [apply Rlt_le, p2_pos|done].
Qed.

Lemma Fexp_np_sqrt (x : float) : (0 < Fnum x)%Z → (-1074 ≤ Fexp (np_sqrt x))%Z.
Proof. intros Hm. destruct (np_sqrt_mantissa x Hm) as (-> & _). unfold fexp. lia. Qed.

Lemma np_sqrt_zero (e : Z) : np_sqrt (mkFloat 0 e) = mkFloat 0 0.
Proof. done. Qed.

(** ** Bounds on pi *)

Lemma machin_term_den (i : nat) : (0 < snd (machin_term i))%Z.
Proof.
  unfold machin_term. cbn [snd].
  apply Z.mul_pos_pos; [|lia]. apply Z.pow_pos_nonneg; lia.
Qed.

Lemma machin_term_R (i : nat) :
  tg_alt PI_2_3_7_tg i = IZR (fst (machin_term i)) / IZR (snd (machin_term i)).
Proof.
  unfold machin_term, tg_alt, PI_2_3_7_tg, Ratan_seq. cbn [fst snd].
  set (j := (2 * i + 1)%nat).
  rewrite !mult_IZR, plus_IZR, mult_IZR, <- !pow_IZR, <- INR_IZR_INZ.
  assert (0 < INR j) as Hj by (apply lt_0_INR; lia).
  assert (0 < 3 ^ j) as H3 by (apply pow_lt; lra).
  assert (0 < 7 ^ j) as H7 by (apply pow_lt; lra).
  replace (21 ^ j) with (3 ^ j * 7 ^ j) by (rewrite <- Rpow_mult_distr; f_equal; lra).
  rewrite !pow_inv. field. lra.
Qed.

Lemma machin_sum_den (n : nat) : (0 < snd (machin_sum n))%Z.
Proof.
  induction n as [|n IH]; [apply machin_term_den|].
  cbn [machin_sum snd]. pose proof (machin_term_den (S n)). lia.
Qed.

Lemma machin_sum_R (n : nat) :
  sum_f_R0 (tg_alt PI_2_3_7_tg) n = IZR (fst (machin_sum n)) / IZR (snd (machin_sum n)).
Proof.
  induction n as [|n IH]; [apply machin_term_R|].
  cbn [sum_f_R0 machin_sum fst snd]. rewrite IH, machin_term_R.
  pose proof (machin_sum_den n) as Hs%IZR_lt.
  pose proof (machin_term_den (S n)) as Ht%IZR_lt.
  rewrite plus_IZR, !mult_IZR. field. lra.
Qed.

Lemma frac_le (a b c d : Z) :
  (0 < b)%Z → (0 < d)%Z → (a * d ≤ c * b)%Z → IZR a / IZR b <= IZR c / IZR d.
Proof.
  intros Hb%IZR_lt Hd%IZR_lt H%IZR_le. rewrite !mult_IZR in H.
  apply (Rmult_le_reg_r (IZR b * IZR d)); [nra|].
  replace (IZR a / IZR b * (IZR b * IZR d)) with (IZR a * IZR d) by (field; lra).
  replace (IZR c / IZR d * (IZR b * IZR d)) with (IZR c * IZR b) by (field; lra).
  done.
Qed.

(** Twenty-four digits of pi. *)
Lemma PI_digits :
  314159265358979323846264 / 100000000000000000000000 <= PI <=
  314159265358979323846265 / 100000000000000000000000.
Proof.
  pose proof (PI_2_3_7_ineq 12) as [Hlo Hhi].
  rewrite machin_sum_R in Hlo, Hhi.
  assert (IZR 314159265358979323846264 / IZR 400000000000000000000000
          <= IZR (fst (machin_sum (S (2 * 12)))) / IZR (snd (machin_sum (S (2 * 12)))))
    as Hlo'.
  { apply frac_le; [by vm_compute|apply machin_sum_den|by vm_compute]. }
  assert (IZR (fst (machin_sum (2 * 12))) / IZR (snd (machin_sum (2 * 12)))
          <= IZR 314159265358979323846265 / IZR 400000000000000000000000) as Hhi'.
  { apply frac_le; [apply machin_sum_den|by vm_compute|by vm_compute]. }
  set (L := IZR (fst (machin_sum (S (2 * 12)))) / IZR (snd (machin_sum (S (2 * 12))))) in *.
  set (U := IZR (fst (machin_sum (2 * 12))) / IZR (snd (machin_sum (2 * 12)))) in *.
  clearbody L U.
  lra.
Qed.

(** ** Accuracy of the computed round count *)

Lemma bpow_m53 : bpow (-53) = / 9007199254740992.
Proof. change (-53)%Z with (- (53))%Z. by rewrite p2_neg, p2_IZR. Qed.

Lemma bpow_m54 : bpow (-54) = / 18014398509481984.
Proof. change (-54)%Z with (- (54))%Z. by rewrite p2_neg, p2_IZR. Qed.

Lemma bpow_m50 : bpow (-50) = / 1125899906842624.
Proof. change (-50)%Z with (- (50))%Z. by rewrite p2_neg, p2_IZR. Qed.

Lemma pi_over_4_value :
  float_truediv np_pi (float_of_int 4) = mkFloat 7074237752028440 (-53).
Proof. by vm_compute. Qed.

Lemma F2R_pi_over_4 :
  F2R (mkFloat 7074237752028440 (-53)) = 7074237752028440 / 9007199254740992.
Proof. unfold F2R. cbn [Fnum Fexp]. rewrite bpow_m53. done. Qed.

(** [np.pi / 4] is within [2^-53] of pi/4, relatively. *)
Lemma pi_over_4_accuracy :
  (1 - bpow (-53)) * (PI / 4) <= F2R (mkFloat 7074237752028440 (-53))
  <= (1 + bpow (-53)) * (PI / 4).
Proof.
  rewrite F2R_pi_over_4, bpow_m53. pose proof PI_digits. lra.
Qed.

Lemma rel_bounds (a b u : R) :
  Rabs (a - b) <= u * b → (1 - u) * b <= a <= (1 + u) * b.
Proof.
  unfold Rabs. destruct (Rcase_abs (a - b)); lra.
Qed.

Lemma sqrt_scale_le (t y : R) : 1 <= t → 0 <= y → sqrt (t * y) <= t * sqrt y.
Proof.
  intros Ht Hy. rewrite sqrt_mult by lra.
  apply Rmult_le_compat_r; [apply sqrt_pos|].
  rewrite <- (sqrt_square t) at 2 by lra. apply sqrt_le_1_alt. nra.
Qed.

Lemma sqrt_scale_ge (t y : R) : 0 <= t <= 1 → 0 <= y → t * sqrt y <= sqrt (t * y).
Proof.
  intros Ht Hy. rewrite sqrt_mult by lra.
  apply Rmult_le_compat_r; [apply sqrt_pos|].
  rewrite <- (sqrt_square t) at 1 by lra. apply sqrt_le_1_alt. nra.
Qed.

Lemma ratio_R (n k : nat) :
  IZR (2 ^ Z.of_nat n) / IZR (Z.of_nat k) = 2 ^ n / INR k.
Proof. by rewrite <- pow_IZR, <- INR_IZR_INZ. Qed.

Lemma computed_rounds_floor (n k : nat) :
  computed_rounds n k =
  Zfloor (F2R (float_mul (mkFloat 7074237752028440 (-53))
                 (np_sqrt (round_ratio (2 ^ Z.of_nat n) (Z.of_nat k))))).
Proof. unfold computed_rounds. by rewrite py_int_np_floor, pi_over_4_value. Qed.

(** The three roundings and the rounding of [np.pi] each cost at most
    [2^-53] of the value: the double the driver floors is within [2^-50]
    of the exact [pi/4 * sqrt(2^n / k)], relatively. *)
Lemma product_accuracy (n k : nat) :
  (1 ≤ k)%nat → (k ≤ 2 ^ n)%nat →
  let p := float_mul (mkFloat 7074237752028440 (-53))
             (np_sqrt (round_ratio (2 ^ Z.of_nat n) (Z.of_nat k))) in
  let x := PI / 4 * sqrt (2 ^ n / INR k) in
  (1 - bpow (-50)) * x <= F2R p <= (1 + bpow (-50)) * x.
Proof.
  intros Hk1 Hk2 p x.
  set (a := (2 ^ Z.of_nat n)%Z). set (b := Z.of_nat k).
  assert (0 < a)%Z as Ha by (apply Z.pow_pos_nonneg; lia).
  assert (0 < b)%Z as Hb by (unfold b; lia).
  set (x0 := 2 ^ n / INR k).
  assert (IZR a / IZR b = x0) as Hx0 by apply ratio_R.
  assert (1 <= x0) as Hx0ge.
  { unfold x0. assert (0 < INR k) by (apply lt_0_INR; lia).
    apply (Rmult_le_reg_r (INR k)); [done|].
    replace (2 ^ n / INR k * INR k) with (2 ^ n) by (field; lra).
    rewrite Rmult_1_l. apply le_INR in Hk2. rewrite pow_INR in Hk2. done. }
  set (q := round_ratio a b) in *.
  (* the quotient *)
  assert ((1 - bpow (-53)) * x0 <= F2R q <= (1 + bpow (-53)) * x0) as HQ.
  { apply rel_bounds. rewrite <- Hx0. apply round_ratio_relative; [done..|].
    rewrite Hx0. apply Rle_trans with 1; [|done].
    change 1 with (bpow 0). apply p2_le. lia. }
  pose proof (Fexp_round_ratio a b Ha Hb) as HqE. fold q in HqE.
  rewrite bpow_m53 in HQ.
  assert (0 < F2R q) as HQpos by lra.
  pose proof (F2R_pos_Fnum q HQpos) as Hqm.
  (* the square root *)
  pose proof (rel_bounds _ _ _ (np_sqrt_relative q Hqm HqE)) as HS.
  rewrite bpow_m53 in HS.
  set (s := np_sqrt q) in *.
  set (X := sqrt x0).
  assert (1 <= X) as HX.
  { unfold X. rewrite <- sqrt_1. by apply sqrt_le_1_alt. }
  assert ((1 - / 9007199254740992) * X <= sqrt (F2R q)
          <= (1 + / 9007199254740992) * X) as HsqQ.
  { split.
    - eapply Rle_trans; [apply sqrt_scale_ge; lra|]. apply sqrt_le_1_alt. lra.
    - eapply Rle_trans; [|apply sqrt_scale_le; lra]. apply sqrt_le_1_alt. lra. }
  pose proof (sqrt_pos (F2R q)) as HsqQ0.
  assert (0 < F2R s) as HSpos by lra.
  pose proof (F2R_pos_Fnum s HSpos) as Hsm.
  (* the product *)
  set (c := mkFloat 7074237752028440 (-53)) in *.
  destruct (float_mul_ratio c s) as (a' & b' & Ha' & Hb' & Hmul & Hprod);
    [done|done|].
  pose proof pi_over_4_accuracy as Hc. fold c in Hc. rewrite bpow_m53 in Hc.
  pose proof PI_digits as Hpi.
  assert (0 < F2R c) as Hcpos by lra.
  assert (/ 2 <= F2R c * F2R s) as Hprod_lo.
  { apply Rle_trans with ((3 / 4) * (3 / 4)); [lra|].
    apply Rmult_le_compat; lra. }
  assert ((1 - bpow (-53)) * (F2R c * F2R s) <= F2R p
          <= (1 + bpow (-53)) * (F2R c * F2R s)) as HP.
  { apply rel_bounds. change p with (float_mul c s). rewrite Hmul, <- Hprod.
    apply round_ratio_relative; [done..|]. rewrite Hprod.
    apply Rle_trans with (/ 2); [|done].
    replace (/ 2) with (bpow (-1)) by (change (-1)%Z with (- (1))%Z; by rewrite p2_neg, p2_IZR).
    apply p2_le. lia. }
  rewrite bpow_m53 in HP. rewrite bpow_m50.
  (* chaining *)
  assert (x = PI / 4 * X) as -> by done.
  assert ((1 - / 9007199254740992) * (PI / 4) * ((1 - / 9007199254740992) * ((1 - / 9007199254740992) * X))
          <= F2R c * F2R s) as Hlow.
  { apply Rmult_le_compat; lra. }
  assert (F2R c * F2R s <=
          (1 + / 9007199254740992) * (PI / 4) * ((1 + / 9007199254740992) * ((1 + / 9007199254740992) * X)))
    as Hupp.
  { apply Rmult_le_compat; lra. }
  assert (0 < PI / 4 * X) as Hxpos by (apply Rmult_lt_0_compat; lra).
  clearbody X p s c q x0.
  set (T := F2R c * F2R s) in *. set (Y := PI / 4 * X) in *.
  assert ((1 - / 9007199254740992) * (PI / 4) * ((1 - / 9007199254740992) * ((1 - / 9007199254740992) * X))
          = (1 - / 9007199254740992) * (1 - / 9007199254740992) * (1 - / 9007199254740992) * Y)
    as E1 by (unfold Y; ring).
  assert ((1 + / 9007199254740992) * (PI / 4) * ((1 + / 9007199254740992) * ((1 + / 9007199254740992) * X))
          = (1 + / 9007199254740992) * (1 + / 9007199254740992) * (1 + / 9007199254740992) * Y)
    as E2 by (unfold Y; ring).
  rewrite E1 in Hlow. rewrite E2 in Hupp.
  clearbody T Y. clear -Hlow Hupp HP Hxpos.
  split; nra.
Qed.

Lemma Fnum_np_sqrt_nonneg (x : float) : (0 ≤ Fnum (np_sqrt x))%Z.
Proof.
  unfold np_sqrt. destruct (Fnum x =? 0)%Z; [done|]. cbn [Fnum].
  match goal with |- context [Z.sqrt ?t] => pose proof (Z.sqrt_nonneg t) end.
  destruct (_ ?= _)%Z; [destruct (Z.even _)|..]; lia.
Qed.

Lemma F2R_zero (x : float) : Fnum x = 0%Z → F2R x = 0.
Proof. unfold F2R. intros ->. ring. Qed.

Lemma F2R_nonneg (x : float) : (0 ≤ Fnum x)%Z → 0 <= F2R x.
Proof.
  intros H. unfold F2R. apply Rmult_le_pos; [by apply IZR_le|apply Rlt_le, p2_pos].
Qed.

Lemma float_mul_zero (x y : float) : Fnum y = 0%Z → F2R (float_mul x y) = 0.
Proof.
  intros Hy. unfold float_mul. rewrite Hy, Z.mul_0_r.
  destruct (0 <=? _)%Z; unfold round_ratio; simpl; unfold F2R; simpl; lra.
Qed.

(** The bounds of the exact value carry over to the count. *)
Lemma computed_rounds_near_floor (n k : nat) :
  (1 ≤ k)%nat → (k ≤ 2 ^ n)%nat →
  let x := PI / 4 * sqrt (2 ^ n / INR k) in
  (1 - bpow (-50)) * x - 1 < IZR (computed_rounds n k) <= (1 + bpow (-50)) * x.
Proof.
  intros Hk1 Hk2 x. pose proof (product_accuracy n k Hk1 Hk2) as [H1 H2].
  cbv zeta in H1, H2. fold x in H1, H2.
  rewrite computed_rounds_floor.
  match goal with |- context [Zfloor ?t] => pose proof (Zfloor_bound t) as [H3 H4] end.
  lra.
Qed.

(** Where the exact value keeps a relative distance of [2^-50] from the
    integers around it, the computed count is its floor. *)
Lemma computed_rounds_exact (n k : nat) (z : Z) :
  (1 ≤ k)%nat → (k ≤ 2 ^ n)%nat →
  let x := PI / 4 * sqrt (2 ^ n / INR k) in
  IZR z <= (1 - bpow (-50)) * x → (1 + bpow (-50)) * x < IZR z + 1 →
  computed_rounds n k = z ∧ Zfloor x = z.
Proof.
  intros Hk1 Hk2 x Hlo Hhi. pose proof (product_accuracy n k Hk1 Hk2) as [H1 H2].
  cbv zeta in H1, H2. fold x in H1, H2.
  assert (0 <= x) as Hx.
  { unfold x. apply Rmult_le_pos; [pose proof PI_RGT_0; lra|apply sqrt_pos]. }
  rewrite bpow_m50 in *.
  split.
  - rewrite computed_rounds_floor. apply Zfloor_eq. lra.
  - apply Zfloor_eq. lra.
Qed.

Lemma sqrt_4 : sqrt 4 = 2.
Proof. replace 4 with (2 * 2) by ring. apply sqrt_square. lra. Qed.

Lemma quarter_ratio (n k : nat) : (4 * k = 2 ^ n)%nat → 2 ^ n / INR k = 4.
Proof.
  intros Hk. assert (0 < k)%nat by (destruct k; [|lia]; simpl in Hk;
    pose proof (Nat.pow_nonzero 2 n); lia).
  assert (0 < INR k) by (apply lt_0_INR; lia).
  apply (f_equal INR) in Hk. rewrite mult_INR, pow_INR in Hk.
  change (INR 4) with (INR (2 * 2)) in Hk. rewrite mult_INR in Hk.
  change (INR 2) with 2 in Hk. rewrite <- Hk. field. lra.
Qed.

Lemma computed_rounds_quarter (n k : nat) :
  (4 * k = 2 ^ n)%nat → computed_rounds n k = 1%Z.
Proof.
  intros Hk.
  assert (0 < k)%nat by (destruct k; [|lia]; simpl in Hk;
    pose proof (Nat.pow_nonzero 2 n); lia).
  apply (computed_rounds_exact n k 1); [lia|lia|..];
    rewrite quarter_ratio, sqrt_4, bpow_m50 by done;
    pose proof PI_digits; lra.
Qed.

Lemma half_ratio (n k : nat) : (1 ≤ k)%nat → (2 * k ≤ 2 ^ n)%nat → 2 <= 2 ^ n / INR k.
Proof.
  intros Hk1 Hk. assert (0 < INR k) by (apply lt_0_INR; lia).
  apply le_INR in Hk. rewrite mult_INR, pow_INR in Hk. change (INR 2) with 2 in Hk.
  apply (Rmult_le_reg_r (INR k)); [done|].
  replace (2 ^ n / INR k * INR k) with (2 ^ n) by (field; lra). done.
Qed.

Lemma sqrt_2_lower : 141 / 100 <= sqrt 2.
Proof.
  rewrite <- (sqrt_square (141 / 100)) by lra. apply sqrt_le_1_alt. lra.
Qed.

Lemma computed_rounds_positive (n k : nat) :
  (1 ≤ k)%nat → (2 * k ≤ 2 ^ n)%nat → (1 ≤ computed_rounds n k)%Z.
Proof.
  intros Hk1 Hk. pose proof (computed_rounds_near_floor n k Hk1 ltac:(lia)) as [H1 _].
  cbv zeta in H1. rewrite bpow_m50 in H1.
  assert (141 / 100 <= sqrt (2 ^ n / INR k)) as Hs.
  { eapply Rle_trans; [apply sqrt_2_lower|]. apply sqrt_le_1_alt. by apply half_ratio. }
  pose proof PI_digits as Hpi.
  assert (3 / 4 * (141 / 100) <= PI / 4 * sqrt (2 ^ n / INR k)) as Hx.
  { apply Rmult_le_compat; lra. }
  assert (0 < IZR (computed_rounds n k)) as Hr by lra.
  apply lt_IZR in Hr. lia.
Qed.

Lemma computed_rounds_nonneg (n k : nat) : (0 ≤ computed_rounds n k)%Z.
Proof.
  rewrite computed_rounds_floor. apply Zfloor_lub.
  set (s := np_sqrt _).
  pose proof (Fnum_np_sqrt_nonneg (round_ratio (2 ^ Z.of_nat n) (Z.of_nat k))) as Hs.
  fold s in Hs. destruct (Z.eq_dec (Fnum s) 0%Z) as [H0|Hne].
  - rewrite float_mul_zero by done. lra.
  - destruct (float_mul_ratio (mkFloat 7074237752028440 (-53)) s)
      as (a & b & Ha & Hb & -> & _); [done|lia|].
    apply F2R_round_ratio_nonneg; lia.
Qed.

Lemma fexp_1 : fexp 1 = (-52)%Z.
Proof. done. Qed.

Lemma fexp_0 : fexp 0 = (-53)%Z.
Proof. done. Qed.

(** With at least as many marked indices as there are indices the
    quotient is at most 1 and the count is 0. *)
Lemma computed_rounds_crowded (n k : nat) :
  (2 ^ n ≤ k)%nat → computed_rounds n k = 0%Z.
Proof.
  intros Hk. rewrite computed_rounds_floor. apply Zfloor_eq.
  set (a := (2 ^ Z.of_nat n)%Z). set (b := Z.of_nat k).
  assert (0 < a)%Z as Ha by (apply Z.pow_pos_nonneg; lia).
  assert (0 < 2 ^ n)%nat as Hpow by (apply Nat.neq_0_lt_0, Nat.pow_nonzero; lia).
  assert (0 < b)%Z as Hb by (unfold b; lia).
  assert (IZR a / IZR b <= 1) as Hx0.
  { unfold a, b. rewrite ratio_R. assert (0 < INR k) by (apply lt_0_INR; lia).
    apply (Rmult_le_reg_r (INR k)); [done|].
    replace (2 ^ n / INR k * INR k) with (2 ^ n) by (field; lra).
    rewrite Rmult_1_l. apply le_INR in Hk. by rewrite pow_INR in Hk. }
  assert (0 < IZR a / IZR b) as Hx0pos.
  { apply Rdiv_lt_0_compat; by apply IZR_lt. }
  set (q := round_ratio a b).
  assert (0 <= F2R q <= 1 + / 9007199254740992) as HQ.
  { split; [apply F2R_round_ratio_nonneg; lia|].
    pose proof (round_ratio_error a b 1 Ha Hb) as He.
    rewrite fexp_1 in He. change (-52 - 1)%Z with (-53)%Z in He.
    rewrite bpow_m53 in He. change (bpow 1) with (2 * 1) in He.
    specialize (He ltac:(lra)). fold q in He.
    unfold Rabs in He. destruct (Rcase_abs _); lra. }
  destruct (round_ratio_mantissa a b Ha Hb) as (_ & Hqm & _). fold q in Hqm.
  set (c := mkFloat 7074237752028440 (-53)).
  destruct (Z.eq_dec (Fnum q) 0%Z) as [Hq0|Hqne].
  { assert (np_sqrt q = mkFloat 0 0) as ->.
    { unfold np_sqrt. by rewrite Hq0. }
    rewrite float_mul_zero by done. lra. }
  assert (0 < Fnum q)%Z as Hqpos by lia.
  set (s := np_sqrt q).
  assert (sqrt (F2R q) <= 1 + / 9007199254740992) as HsqQ.
  { apply Rle_trans with (sqrt ((1 + / 9007199254740992) * 1)).
    - apply sqrt_le_1_alt. lra.
    - eapply Rle_trans; [apply sqrt_scale_le; lra|]. rewrite sqrt_1. lra. }
  pose proof (sqrt_pos (F2R q)) as HsqQ0.
  assert (0 <= F2R s <= 1 + 2 * / 9007199254740992) as HS.
  { split; [apply F2R_nonneg, Fnum_np_sqrt_nonneg|].
    pose proof (np_sqrt_error q 1 Hqpos) as He.
    rewrite fexp_1 in He. change (-52 - 1)%Z with (-53)%Z in He.
    rewrite bpow_m53 in He. change (bpow 1) with (2 * 1) in He.
    specialize (He ltac:(lra)). fold s in He.
    unfold Rabs in He. destruct (Rcase_abs _); lra. }
  pose proof (Fnum_np_sqrt_nonneg q) as Hsm. fold s in Hsm.
  destruct (Z.eq_dec (Fnum s) 0%Z) as [Hs0|Hsne].
  { rewrite float_mul_zero by done. lra. }
  destruct (float_mul_ratio c s) as (a' & b' & Ha' & Hb' & -> & Hprod); [done|lia|].
  pose proof (F2R_round_ratio_nonneg a' b' ltac:(lia) Hb') as HP0.
  pose proof (round_ratio_error a' b' 0 Ha' Hb') as He.
  rewrite fexp_0 in He. change (-53 - 1)%Z with (-54)%Z in He.
  rewrite bpow_m54 in He. change (bpow 0) with 1 in He.
  assert (F2R c = 7074237752028440 / 9007199254740992) as Hc by apply F2R_pi_over_4.
  assert (F2R c * F2R s <= 7074237752028440 / 9007199254740992 * (1 + 2 * / 9007199254740992))
    as Hcs.
  { rewrite Hc. apply Rmult_le_compat_l; lra. }
  rewrite Hprod in He. specialize (He ltac:(lra)).
  unfold Rabs in He. destruct (Rcase_abs _); lra.
Qed.

(** The count stays below the square-root law. *)
Lemma computed_rounds_sq_lt (n k : nat) :
  (1 ≤ k)%nat →
  (Z.of_nat k * (computed_rounds n k * computed_rounds n k) < 2 ^ Z.of_nat n)%Z.
Proof.
  intros Hk1. destruct (Nat.le_gt_cases k (2 ^ n)) as [Hk2|Hk2].
  2:{ rewrite computed_rounds_crowded by lia.
      rewrite Z.mul_0_r. apply Z.pow_pos_nonneg; lia. }
  pose proof (computed_rounds_near_floor n k Hk1 Hk2) as [_ H2].
  pose proof (computed_rounds_nonneg n k) as H0%IZR_le.
  cbv zeta in H2. rewrite bpow_m50 in H2.
  set (r := computed_rounds n k) in *. clearbody r.
  apply lt_IZR. rewrite !mult_IZR, <- pow_IZR, <- INR_IZR_INZ.
  assert (0 < INR k) as HkR by (apply lt_0_INR; lia).
  set (x0 := 2 ^ n / INR k) in *.
  assert (2 ^ n = x0 * INR k) as -> by (unfold x0; field; lra).
  assert (0 < x0) as Hx0.
  { unfold x0. apply Rdiv_lt_0_compat; [apply pow_lt; lra|done]. }
  pose proof (sqrt_sqrt x0 ltac:(lra)) as Hss.
  pose proof (sqrt_lt_R0 x0 Hx0) as Hs0.
  pose proof PI_digits as Hpi.
  set (X := sqrt x0) in *. clearbody X. clearbody x0.
  assert (IZR r <= (4 / 5) * X) as Hr.
  { eapply Rle_trans; [exact H2|].
    replace ((1 + / 1125899906842624) * (PI / 4 * X))
      with (((1 + / 1125899906842624) * (PI / 4)) * X) by ring.
    apply Rmult_le_compat_r; lra. }
  assert (IZR r * IZR r <= (4 / 5 * X) * (4 / 5 * X)) as Hrr.
  { apply Rmult_le_compat; lra. }
  assert (IZR r * IZR r < x0) as Hlt by nra.
  rewrite (Rmult_comm (INR k)). apply Rmult_lt_compat_r; done.
Qed.

(** A quotient of at most [2^1023] fits a double. *)
Lemma ratio_in_range (a b : Z) :
  (0 < a)%Z → (0 < b)%Z → IZR a / IZR b <= bpow 1023 →
  overflows (round_ratio a b) = false.
Proof.
  intros Ha Hb Hx0.
  pose proof (p2_lt 1023 1024 ltac:(lia)) as Hlt.
  pose proof (round_ratio_error a b 1024 Ha Hb ltac:(lra)) as He.
  change (fexp 1024 - 1)%Z with 970%Z in He.
  pose proof (p2_lt 970 1023 ltac:(lia)) as Hlt'.
  pose proof (p2_double 1023) as Hd. change (1023 + 1)%Z with 1024%Z in Hd.
  assert (F2R (round_ratio a b) < bpow 1024) as HQ.
  { unfold Rabs in He. destruct (Rcase_abs _); lra. }
  destruct (round_ratio_mantissa a b Ha Hb) as (_ & Hm & _).
  unfold overflows. apply Z.leb_gt. rewrite Z.abs_eq by done.
  set (q := round_ratio a b) in *. clearbody q.
  destruct (Z_lt_le_dec (Fexp q) 0) as [Hneg|Hpos].
  - rewrite Z.pow_neg_r by done. rewrite Z.mul_0_r. by apply Z.pow_pos_nonneg.
  - apply lt_IZR. rewrite IZR_shift by done. rewrite <- p2_IZR by lia. done.
Qed.

(** For at most 1023 qubits the quotient [2^n / k] fits a double. *)
Lemma quotient_in_range (n k : nat) :
  (1 ≤ k)%nat → (n ≤ 1023)%nat →
  overflows (round_ratio (2 ^ Z.of_nat n) (Z.of_nat k)) = false.
Proof.
  intros Hk Hn.
  set (a := (2 ^ Z.of_nat n)%Z). set (b := Z.of_nat k).
  assert (0 < a)%Z as Ha by (apply Z.pow_pos_nonneg; lia).
  assert (0 < b)%Z as Hb by (unfold b; lia).
  apply ratio_in_range; [done..|].
  apply Rle_trans with (IZR a).
  - assert (1 <= IZR b) by (apply IZR_le; lia).
    assert (0 < IZR a) by (by apply IZR_lt).
    apply (Rmult_le_reg_r (IZR b)); [lra|].
    replace (IZR a / IZR b * IZR b) with (IZR a) by (field; lra). nra.
  - unfold a. rewrite <- p2_IZR by lia. apply p2_le. lia.
Qed.

(** So does a quotient of at most 4. *)
Lemma small_quotient_in_range (n k : nat) :
  (1 ≤ k)%nat → (2 ^ n ≤ 4 * k)%nat →
  overflows (round_ratio (2 ^ Z.of_nat n) (Z.of_nat k)) = false.
Proof.
  intros Hk Hn.
  apply ratio_in_range; [apply Z.pow_pos_nonneg; lia|lia|].
  rewrite ratio_R. assert (0 < INR k) by (apply lt_0_INR; lia).
  apply Rle_trans with 4.
  - apply (Rmult_le_reg_r (INR k)); [done|].
    replace (2 ^ n / INR k * INR k) with (2 ^ n) by (field; lra).
    apply le_INR in Hn. rewrite mult_INR, pow_INR in Hn.
    change (INR 2) with 2 in Hn. change (INR 4) with (INR (2 * 2)) in Hn.
    rewrite mult_INR in Hn. change (INR 2) with 2 in Hn. lra.
  - replace 4 with (bpow 2) by (rewrite p2_IZR by lia; done).
    apply p2_le. lia.
Qed.

(** ** Where the double-precision count leaves the exact floor *)

Lemma computed_rounds_109_5 : computed_rounds 109 5 = 8948281602383725%Z.
Proof. by vm_compute. Qed.

Lemma computed_rounds_2_1 : computed_rounds 2 1 = 1%Z.
Proof. by vm_compute. Qed.

Lemma sqrt_between (y lo hi : R) :
  0 <= lo → lo * lo <= y → y <= hi * hi → 0 <= hi → lo <= sqrt y <= hi.
Proof.
  intros Hlo Hl Hh Hhi. split.
  - rewrite <- (sqrt_square lo) by done. by apply sqrt_le_1_alt.
  - rewrite <- (sqrt_square hi) by done. by apply sqrt_le_1_alt.
Qed.

Lemma exact_floor_109_5 :
  Zfloor (PI / 4 * sqrt (2 ^ 109 / INR 5)) = 8948281602383724%Z.
Proof.
  apply Zfloor_eq.
  assert (2 ^ 109 / INR 5 = 649037107316853453566312041152512 / 5) as ->.
  { rewrite INR_IZR_INZ. change (Z.of_nat 5) with 5%Z.
    change 2 with (IZR 2) at 1. rewrite pow_IZR.
    by change (2 ^ Z.of_nat 109)%Z with 649037107316853453566312041152512%Z. }
  pose proof (sqrt_between (649037107316853453566312041152512 / 5)
                (11393305993581085712 / 1000) (11393305993581085713 / 1000)
                ltac:(lra) ltac:(lra) ltac:(lra) ltac:(lra)) as [Hs1 Hs2].
  pose proof PI_digits as [Hp1 Hp2].
  set (S := sqrt _) in *. clearbody S.
  assert (314159265358979323846264 / 100000000000000000000000 / 4
            * (11393305993581085712 / 1000) <= PI / 4 * S) as Hlo.
  { apply Rmult_le_compat; lra. }
  assert (PI / 4 * S <= 314159265358979323846265 / 100000000000000000000000 / 4
                        * (11393305993581085713 / 1000)) as Hhi.
  { apply Rmult_le_compat; lra. }
  lra.
Qed.

(** ** Rounding is monotone *)

Lemma IZR_half_le (m K : Z) (y : R) :
  IZR m <= y + / 2 → y < IZR K → (m ≤ K)%Z.
Proof.
  intros H1 H2. assert (IZR m < IZR K + 1) as H by lra.
  rewrite <- plus_IZR in H. apply lt_IZR in H. lia.
Qed.

Lemma IZR_half_ge (m K : Z) (y : R) :
  y - / 2 <= IZR m → IZR K <= y → (K ≤ m)%Z.
Proof.
  intros H1 H2. assert (IZR K - 1 < IZR m) as H by lra.
  rewrite <- minus_IZR in H. apply lt_IZR in H. lia.
Qed.

Lemma rounding_mono (x x' : R) (e e' m m' : Z) :
  0 < x → x <= x' →
  bpow (e - 1) <= x < bpow e →
  bpow (e' - 1) <= x' < bpow e' →
  Rabs (IZR m - x * bpow (- fexp e)) <= / 2 →
  (Rabs (IZR m - x * bpow (- fexp e)) = / 2 → Z.even m = true) →
  Rabs (IZR m' - x' * bpow (- fexp e')) <= / 2 →
  (Rabs (IZR m' - x' * bpow (- fexp e')) = / 2 → Z.even m' = true) →
  IZR m * bpow (fexp e) <= IZR m' * bpow (fexp e').
Proof.
  intros Hx Hxx' [Hb1 Hb2] [Hb1' Hb2'] Hm Hme Hm' Hme'.
  assert (e ≤ e')%Z as Hee.
  { assert (e - 1 < e')%Z by (apply p2_lt_inv; lra). lia. }
  pose proof (p2_pos (fexp e)) as Hpc. pose proof (p2_pos (fexp e')) as Hpc'.
  pose proof (p2_pos (- fexp e)) as Hpnc. pose proof (p2_pos (- fexp e')) as Hpnc'.
  assert (e = e' → x * bpow (- fexp e) <= x' * bpow (- fexp e')) as Hsame.
  { intros <-. apply Rmult_le_compat_r; lra. }
  assert (x * bpow (- fexp e) < bpow (e + - fexp e)) as Hyup.
  { rewrite p2_add. apply Rmult_lt_compat_r; lra. }
  assert (bpow (e' - 1 + - fexp e') <= x' * bpow (- fexp e')) as Hylo.
  { rewrite p2_add. apply Rmult_le_compat_r; lra. }
  assert (0 < x * bpow (- fexp e)) as Hy by (apply Rmult_lt_0_compat; lra).
  assert (0 < x' * bpow (- fexp e')) as Hy' by (apply Rmult_lt_0_compat; lra).
  set (y := x * bpow (- fexp e)) in *. set (y' := x' * bpow (- fexp e')) in *.
  assert (y - / 2 <= IZR m <= y + / 2) as [Hm1 Hm2].
  { unfold Rabs in Hm. destruct (Rcase_abs _); lra. }
  assert (y' - / 2 <= IZR m' <= y' + / 2) as [Hm1' Hm2'].
  { unfold Rabs in Hm'. destruct (Rcase_abs _); lra. }
  assert (IZR m - y = / 2 → Z.even m = true) as Ev.
  { intros E. apply Hme. rewrite Rabs_pos_eq; lra. }
  assert (y' - IZR m' = / 2 → Z.even m' = true) as Ev'.
  { intros E. apply Hme'. rewrite Rabs_left1; lra. }
  clear Hm Hme Hm' Hme'. clearbody y y'.
  set (c := fexp e) in *. set (c' := fexp e') in *.
  assert (0 ≤ m')%Z as Hm'0 by (apply (IZR_half_ge m' 0 y'); simpl; lra).
  destruct (Z.eq_dec e e') as [Heq|Hne].
  - (* same binade *)
    specialize (Hsame Heq).
    assert (c' = c) as -> by (unfold c, c'; by rewrite Heq).
    apply Rmult_le_compat_r; [lra|]. apply IZR_le.
    destruct (Z_le_gt_dec m m') as [|Hgt]; [done|exfalso].
    assert (IZR m' + 1 <= IZR m) as Hstep.
    { rewrite <- plus_IZR. apply IZR_le. lia. }
    assert (Z.even m = true) as Ev1 by (apply Ev; lra).
    assert (Z.even m' = true) as Ev2 by (apply Ev'; lra).
    assert (m = m' + 1)%Z as Hmm.
    { apply eq_IZR. rewrite plus_IZR. lra. }
    rewrite Hmm, Z.even_add, Ev2 in Ev1. done.
  - (* a lower binade rounds to at most its upper end *)
    assert (e < e')%Z as Hlt by lia.
    assert (IZR m * bpow c <= bpow e ∧ (e < c → m ≤ 0)%Z) as [Hup Hup0].
    { destruct (Z_lt_le_dec e c) as [Hec|Hec].
      - assert (m ≤ 0)%Z as Hm0.
        { assert (y < / 2) as Hhalf.
          { apply Rlt_le_trans with (bpow (e + - c)); [done|].
            replace (/ 2) with (bpow (-1))
              by (change (-1)%Z with (- (1))%Z; by rewrite p2_neg, p2_IZR).
            apply p2_le. lia. }
          assert (IZR m < 1) as H1 by lra. apply lt_IZR in H1. lia. }
        split; [|done].
        apply Rle_trans with 0; [|apply Rlt_le, p2_pos].
        apply IZR_le in Hm0. nra.
      - split; [|lia].
        assert (m ≤ 2 ^ (e + - c))%Z as HmK.
        { apply (IZR_half_le m _ y); [done|]. by rewrite <- p2_IZR by lia. }
        apply IZR_le in HmK. rewrite <- p2_IZR in HmK by lia.
        replace (bpow e) with (bpow (e + - c) * bpow c)
          by (rewrite <- p2_add; f_equal; lia).
        apply Rmult_le_compat_r; lra. }
    destruct (Z_lt_le_dec (e' - 1) c') as [Hec'|Hec'].
    + (* the upper value is in the lowest subnormal binade *)
      assert (e < c)%Z as Hec by (unfold c, c', fexp in *; lia).
      specialize (Hup0 Hec). apply IZR_le in Hup0. apply IZR_le in Hm'0.
      apply Rle_trans with 0; nra.
    + assert (2 ^ (e' - 1 + - c') ≤ m')%Z as HmK.
      { apply (IZR_half_ge m' _ y'); [done|]. by rewrite <- p2_IZR by lia. }
      apply IZR_le in HmK. rewrite <- p2_IZR in HmK by lia.
      apply Rle_trans with (bpow e); [done|].
      apply Rle_trans with (bpow (e' - 1)); [apply p2_le; lia|].
      replace (bpow (e' - 1)) with (bpow (e' - 1 + - c') * bpow c')
        by (rewrite <- p2_add; f_equal; lia).
      apply Rmult_le_compat_r; lra.
Qed.

Lemma round_ratio_mono (a b a' b' : Z) :
  (0 < a)%Z → (0 < b)%Z → (0 < a')%Z → (0 < b')%Z →
  IZR a / IZR b <= IZR a' / IZR b' →
  F2R (round_ratio a b) <= F2R (round_ratio a' b').
Proof.
  intros Ha Hb Ha' Hb' Hle.
  destruct (round_ratio_mantissa a b Ha Hb) as (Hc & _ & Hm & Hme).
  destruct (round_ratio_mantissa a' b' Ha' Hb') as (Hc' & _ & Hm' & Hme').
  unfold F2R. rewrite Hc, Hc'.
  apply (rounding_mono (IZR a / IZR b) (IZR a' / IZR b')); try done.
  - apply Rdiv_lt_0_compat; by apply IZR_lt.
  - by apply mag_correct.
  - by apply mag_correct.
Qed.

Lemma np_sqrt_mono (x x' : float) :
  (0 < Fnum x)%Z → (0 < Fnum x')%Z → F2R x <= F2R x' →
  F2R (np_sqrt x) <= F2R (np_sqrt x').
Proof.
  intros Hm Hm' Hle.
  destruct (np_sqrt_mantissa x Hm) as (Hc & Herr & Hev).
  destruct (np_sqrt_mantissa x' Hm') as (Hc' & Herr' & Hev').
  pose proof (sqrt_arg_pos x Hm) as Hv.
  unfold F2R at 1 2. rewrite Hc, Hc'.
  apply (rounding_mono (sqrt (F2R x)) (sqrt (F2R x'))); try done.
  - by apply sqrt_lt_R0.
  - by apply sqrt_le_1_alt.
  - by apply sqrt_binade.
  - by apply sqrt_binade.
Qed.

(** The double the driver floors, as a function of the quotient. *)
Lemma product_mono (q q' : float) :
  (0 ≤ Fnum q)%Z → (0 < Fnum q' ∨ Fnum q = 0)%Z → F2R q <= F2R q' →
  F2R (float_mul (mkFloat 7074237752028440 (-53)) (np_sqrt q)) <=
  F2R (float_mul (mkFloat 7074237752028440 (-53)) (np_sqrt q')).
Proof.
  intros Hq0 Hq' Hle.
  set (c := mkFloat 7074237752028440 (-53)).
  assert (∀ z, 0 <= F2R (float_mul c (np_sqrt z))) as Hnonneg.
  { intros z. pose proof (Fnum_np_sqrt_nonneg z) as Hs.
    destruct (Z.eq_dec (Fnum (np_sqrt z)) 0%Z) as [H0|Hne].
    - rewrite float_mul_zero by done. lra.
    - destruct (float_mul_ratio c (np_sqrt z)) as (a & b & Ha & Hb & -> & _);
        [done|lia|]. apply F2R_round_ratio_nonneg; lia. }
  destruct (Z.eq_dec (Fnum q) 0%Z) as [H0|Hne].
  { assert (np_sqrt q = mkFloat 0 0) as -> by (unfold np_sqrt; by rewrite H0).
    rewrite float_mul_zero by done. apply Hnonneg. }
  assert (0 < Fnum q)%Z as Hqpos by lia.
  assert (0 < Fnum q')%Z as Hqpos' by (destruct Hq'; [done|lia]).
  pose proof (np_sqrt_mono q q' Hqpos Hqpos' Hle) as Hs.
  pose proof (Fnum_np_sqrt_nonneg q) as Hs0.
  destruct (Z.eq_dec (Fnum (np_sqrt q)) 0%Z) as [Hs00|Hsne].
  { rewrite (float_mul_zero c (np_sqrt q)) by done. apply Hnonneg. }
  assert (0 < F2R (np_sqrt q)) as HSpos.
  { unfold F2R. apply Rmult_lt_0_compat; [apply IZR_lt; lia|apply p2_pos]. }
  assert (0 < Fnum (np_sqrt q'))%Z as Hsm' by (apply F2R_pos_Fnum; lra).
  destruct (float_mul_ratio c (np_sqrt q)) as (a & b & Ha & Hb & -> & Hp);
    [done|lia|].
  destruct (float_mul_ratio c (np_sqrt q')) as (a' & b' & Ha' & Hb' & -> & Hp');
    [done|done|].
  apply round_ratio_mono; try done. rewrite Hp, Hp'.
  apply Rmult_le_compat_l; [|done]. unfold c. rewrite F2R_pi_over_4. lra.
Qed.

Lemma computed_rounds_mono (n n' k k' : nat) :
  (1 ≤ k')%nat → (k' ≤ k)%nat → (n ≤ n')%nat →
  (computed_rounds n k ≤ computed_rounds n' k')%Z.
Proof.
  intros Hk1 Hk Hn. rewrite !computed_rounds_floor. apply Zfloor_le.
  assert (0 < 2 ^ Z.of_nat n)%Z as Ha by (apply Z.pow_pos_nonneg; lia).
  assert (0 < 2 ^ Z.of_nat n')%Z as Ha' by (apply Z.pow_pos_nonneg; lia).
  assert (F2R (round_ratio (2 ^ Z.of_nat n) (Z.of_nat k)) <=
          F2R (round_ratio (2 ^ Z.of_nat n') (Z.of_nat k'))) as Hq.
  { apply round_ratio_mono; try lia. rewrite !ratio_R.
    assert (0 < INR k') by (apply lt_0_INR; lia).
    assert (INR k' <= INR k) by (by apply le_INR).
    assert (0 < 2 ^ n) by (apply pow_lt; lra).
    assert (2 ^ n <= 2 ^ n') by (apply Rle_pow; [lra|done]).
    apply Rle_trans with (2 ^ n / INR k').
    - unfold Rdiv. apply Rmult_le_compat_l; [lra|].
      apply Rinv_le_contravar; done.
    - unfold Rdiv. apply Rmult_le_compat_r; [|done].
      apply Rlt_le, Rinv_0_lt_compat. done. }
  destruct (round_ratio_mantissa (2 ^ Z.of_nat n) (Z.of_nat k) Ha ltac:(lia))
    as (_ & Hm & _).
  destruct (round_ratio_mantissa (2 ^ Z.of_nat n') (Z.of_nat k') Ha' ltac:(lia))
    as (_ & Hm' & _).
  apply product_mono; [done| |done].
  destruct (Z.eq_dec (Fnum (round_ratio (2 ^ Z.of_nat n) (Z.of_nat k))) 0%Z);
    [by right|left].
  apply F2R_pos_Fnum. eapply Rlt_le_trans; [|exact Hq].
  unfold F2R. apply Rmult_lt_0_compat; [apply IZR_lt; lia|apply p2_pos].
Qed.

(** ** The doubles of "Determine r" stay finite *)

Lemma quotient_finite (a b : Z) :
  (0 < a)%Z → (0 < b)%Z → overflows (round_ratio a b) = false →
  0 <= F2R (round_ratio a b) < bpow 1024.
Proof.
  intros Ha Hb Hov. split; [apply F2R_round_ratio_nonneg; lia|].
  destruct (round_ratio_mantissa a b Ha Hb) as (Hc & Hm & _).
  unfold overflows in Hov. apply Z.leb_gt in Hov. rewrite Z.abs_eq in Hov by done.
  destruct (Z_lt_le_dec (Fexp (round_ratio a b)) 0) as [Hneg|Hpos].
  - (* a fractional last place: the binade is below 2^53 *)
    pose proof (mag_correct a b Ha Hb) as [_ Hx].
    pose proof (round_ratio_error a b (mag a b) Ha Hb Hx) as He.
    rewrite Hc in Hneg.
    assert (mag a b ≤ 52)%Z as Hmag by (unfold fexp in Hneg; lia).
    pose proof (p2_le (mag a b) 52 Hmag).
    pose proof (p2_le (fexp (mag a b) - 1) 52 ltac:(lia)).
    pose proof (p2_double 52) as Hd. change (52 + 1)%Z with 53%Z in Hd.
    pose proof (p2_lt 53 1024 ltac:(lia)).
    unfold Rabs in He. destruct (Rcase_abs _); lra.
  - unfold F2R. rewrite <- IZR_shift by done. rewrite p2_IZR by lia.
    by apply IZR_lt.
Qed.

(** From a finite quotient on, nothing overflows: the square root is
    below [2^513] and so is its product with [np.pi / 4]. *)
Lemma product_finite (q : float) :
  (0 ≤ Fnum q)%Z → F2R q < bpow 1024 →
  0 <= F2R (float_mul (float_truediv np_pi (float_of_int 4)) (np_sqrt q)) < bpow 1024.
Proof.
  intros Hq0 HQ. rewrite pi_over_4_value.
  set (c := mkFloat 7074237752028440 (-53)).
  pose proof (p2_lt 0 1024 ltac:(lia)) as H01. change (bpow 0) with 1 in H01.
  destruct (Z.eq_dec (Fnum q) 0%Z) as [H0|Hne].
  { assert (np_sqrt q = mkFloat 0 0) as -> by (unfold np_sqrt; by rewrite H0).
    rewrite float_mul_zero by done. lra. }
  assert (0 < Fnum q)%Z as Hqpos by lia.
  pose proof (sqrt_arg_pos q Hqpos) as HQpos.
  assert (sqrt (F2R q) < bpow 512) as Hsq.
  { rewrite <- (sqrt_bpow 512). apply sqrt_lt_1_alt. split; [lra|done]. }
  pose proof (np_sqrt_error q 512 Hqpos Hsq) as He.
  change (fexp 512 - 1)%Z with 458%Z in He.
  pose proof (p2_lt 458 512 ltac:(lia)).
  pose proof (p2_double 512) as Hd. change (512 + 1)%Z with 513%Z in Hd.
  pose proof (sqrt_pos (F2R q)).
  assert (F2R (np_sqrt q) < bpow 513) as HS.
  { unfold Rabs in He. destruct (Rcase_abs _); lra. }
  pose proof (Fnum_np_sqrt_nonneg q) as Hs0.
  destruct (Z.eq_dec (Fnum (np_sqrt q)) 0%Z) as [Hs00|Hsne].
  { rewrite float_mul_zero by done. lra. }
  destruct (float_mul_ratio c (np_sqrt q)) as (a & b & Ha & Hb & -> & Hp);
    [done|lia|].
  split; [apply F2R_round_ratio_nonneg; lia|].
  assert (0 <= F2R (np_sqrt q)) by (by apply F2R_nonneg).
  assert (IZR a / IZR b < bpow 513) as Hx.
  { rewrite Hp. unfold c. rewrite F2R_pi_over_4.
    apply Rle_lt_trans with (1 * F2R (np_sqrt q)); [|lra].
    apply Rmult_le_compat_r; lra. }
  pose proof (round_ratio_error a b 513 Ha Hb Hx) as He'.
  change (fexp 513 - 1)%Z with 459%Z in He'.
  pose proof (p2_lt 459 513 ltac:(lia)).
  pose proof (p2_double 513) as Hd'. change (513 + 1)%Z with 514%Z in Hd'.
  pose proof (p2_lt 514 1024 ltac:(lia)).
  unfold Rabs in He'. destruct (Rcase_abs _); lra.
Qed.

(** Whenever the division of "Determine r" returns, the product that is
    floored is a finite double. *)
Lemma determine_r_finite (n k : nat) (q : float) :
  py_truediv (2 ^ Z.of_nat n) (Z.of_nat k) = Ok q →
  0 <= F2R q < bpow 1024 ∧
  0 <= F2R (float_mul (float_truediv np_pi (float_of_int 4)) (np_sqrt q)) < bpow 1024.
Proof.
  intros Hq. unfold py_truediv in Hq.
  destruct (decide (Z.of_nat k = 0%Z)) as [|Hk]; [done|].
  assert (0 < 2 ^ Z.of_nat n)%Z as Ha by (apply Z.pow_pos_nonneg; lia).
  rewrite !Z.abs_eq in Hq by lia.
  destruct (overflows _) eqn:Hov; [done|].
  rewrite !Z.sgn_pos, !Z.mul_1_l in Hq by lia.
  assert (q = round_ratio (2 ^ Z.of_nat n) (Z.of_nat k)) as ->.
  { injection Hq as <-. by destruct (round_ratio _ _). }
  assert (0 < Z.of_nat k)%Z as Hb by lia.
  pose proof (quotient_finite _ _ Ha Hb Hov) as HQ.
  split; [done|]. apply product_finite; [|lra].
  by destruct (round_ratio_mantissa _ _ Ha Hb) as (_ & ? & _).
Qed.

(** ** What the builders return *)

Lemma phase_oracle_circuit n marked nm :
  in_range n marked →
  phase_oracle n marked nm =
  Ok (mkCircuit (Some nm) n 0 [UnitaryGate (oracle_matrix n marked) (seq 0 n)]).
Proof.
  intros Hm. rewrite phase_oracle_ok by done. by rewrite Operator_diag.
Qed.

Lemma in_range_0 n : in_range n [0%Z].
Proof.
  apply Forall_singleton. split; [done|]. apply Z.pow_pos_nonneg; lia.
Qed.

Lemma diffuser_circuit n :
  diffuser n = Ok (mkCircuit (Some "Diffuser") n 0 (diffuser_body n)).
Proof.
  unfold diffuser. rewrite phase_oracle_circuit by apply in_range_0.
  cbn [mbind result_bind]. rewrite range_nat.
  unfold h, append, emit, new_circuit. cbn [name num_qubits num_clbits data].
  by rewrite app_nil_l, <- app_assoc.
Qed.

Lemma emit_emit qc l1 l2 : emit (emit qc l1) l2 = emit qc (l1 ++ l2).
Proof. unfold emit. simpl. by rewrite app_assoc. Qed.

Lemma emit_nil qc : emit qc [] = qc.
Proof. destruct qc. unfold emit. simpl. by rewrite app_nil_r. Qed.

Lemma round_circuit n marked qc (k : nat) :
  in_range n marked →
  round n marked qc k = Ok (emit qc [oracle_gate n marked; diffuser_gate n]).
Proof.
  intros Hm. unfold round.
  rewrite phase_oracle_circuit by done. cbn [mbind result_bind].
  rewrite diffuser_circuit. cbn [mbind result_bind]. rewrite range_nat.
  unfold append. cbn [name num_qubits data]. by rewrite emit_emit.
Qed.

(** The round loop appends one (oracle, diffuser) pair per iteration. *)
Lemma rounds_loop n marked (its : list nat) : ∀ qc,
  in_range n marked ∨ its = [] →
  for_loop (round n marked) its qc =
  Ok (emit qc (concat (replicate (length its) [oracle_gate n marked; diffuser_gate n]))).
Proof.
  induction its as [|k its IH]; intros qc Hm.
  - simpl. by rewrite emit_nil.
  - destruct Hm as [Hm|?]; [|done]. cbn [for_loop].
    rewrite round_circuit by done. cbn [mbind result_bind].
    rewrite IH by auto. by rewrite emit_emit.
Qed.

Lemma measure_range n : zip_with MeasureOp (seq 0 n) (seq 0 n) = measure_all n.
Proof.
  unfold measure_all. generalize 0%nat.
  induction n as [|n IH]; intros s; [done|]. simpl. by rewrite IH.
Qed.

Lemma length_range r : length (range r) = Z.to_nat r.
Proof. unfold range. apply length_seq. Qed.

(** [Grover] once the round count [r] is fixed. *)
Lemma Grover_after_determine n marked arg out r :
  determine_r n marked (default 0%Z arg) = (out, Ok r) →
  in_range n marked ∨ (r ≤ 0)%Z →
  Grover n marked arg = (out, Ok (grover_circuit n marked (Z.to_nat r))).
Proof.
  intros Hr Hm. unfold Grover. rewrite Hr. cbn [mbind py_bind].
  rewrite rounds_loop.
  2:{ destruct Hm as [?|Hle]; [by left|right].
      unfold range. by replace (Z.to_nat r) with 0%nat by lia. }
  unfold quiet. cbn [mbind py_bind mret py_ret].
  rewrite app_nil_r, length_range, range_nat.
  unfold measure, h, new_circuit. rewrite !emit_emit.
  unfold emit, grover_circuit. cbn [name num_qubits num_clbits data].
  by rewrite measure_range.
Qed.

Lemma determine_r_explicit n marked r :
  r ≠ 0%Z → determine_r n marked r = ([], Ok r).
Proof. intros Hr. unfold determine_r. by rewrite decide_False. Qed.

Lemma INR_pow2 (n : nat) : IZR (2 ^ Z.of_nat n) = 2 ^ n.
Proof. rewrite <- pow_IZR. done. Qed.

Lemma py_truediv_pos (a b : Z) :
  (0 < a)%Z → (0 < b)%Z →
  py_truediv a b =
  if overflows (round_ratio a b) then Raise OverflowError else Ok (round_ratio a b).
Proof.
  intros Ha Hb. unfold py_truediv. rewrite decide_False by lia.
  rewrite !Z.abs_eq by lia. destruct (overflows _); [done|].
  rewrite !Z.sgn_pos by lia. rewrite !Z.mul_1_l. by destruct (round_ratio a b).
Qed.

Lemma determine_r_auto n marked :
  marked ≠ [] →
  overflows (round_ratio (2 ^ Z.of_nat n) (Z.of_nat (length marked))) = false →
  determine_r n marked 0 =
  ([rounds_line n marked (computed_rounds n (length marked))],
   Ok (computed_rounds n (length marked))).
Proof.
  intros Hne Hov. unfold determine_r. rewrite decide_True by done.
  rewrite py_truediv_pos, Hov;
    [|apply Z.pow_pos_nonneg; lia|destruct marked; [done|simpl; lia]].
  unfold quiet, print. cbn [mbind py_bind mret py_ret]. done.
Qed.

Lemma determine_r_overflow n marked :
  marked ≠ [] →
  overflows (round_ratio (2 ^ Z.of_nat n) (Z.of_nat (length marked))) = true →
  determine_r n marked 0 = ([], Raise OverflowError).
Proof.
  intros Hne Hov. unfold determine_r. rewrite decide_True by done.
  rewrite py_truediv_pos, Hov;
    [|apply Z.pow_pos_nonneg; lia|destruct marked; [done|simpl; lia]].
  done.
Qed.

Lemma determine_r_auto_1023 n marked :
  marked ≠ [] → (n ≤ 1023)%nat →
  determine_r n marked 0 =
  ([rounds_line n marked (computed_rounds n (length marked))],
   Ok (computed_rounds n (length marked))).
Proof.
  intros Hne Hn. apply determine_r_auto; [done|].
  apply quotient_in_range; [|done]. destruct marked; [done|simpl; lia].
Qed.

(** The result of "Determine r" depends on the marked list through its
    length only; the printed line shows the list. *)
Lemma determine_r_length n marked marked' r :
  length marked = length marked' →
  snd (determine_r n marked r) = snd (determine_r n marked' r).
Proof.
  intros Hlen. unfold determine_r. destruct (decide (r = 0%Z)); [|done].
  rewrite Hlen. destruct (py_truediv _ _); done.
Qed.

Lemma determine_r_empty n : determine_r n [] 0 = ([], Raise ZeroDivisionError).
Proof. done. Qed.

(** ** The diffuser as a transform *)

Lemma with_sv_id s : with_sv s (sv s) = s.
Proof. by destruct s. Qed.

Lemma with_sv_with_sv s u v : with_sv (with_sv s u) v = with_sv s v.
Proof. done. Qed.

Lemma INR_pow2_nat (n : nat) : INR (2 ^ n) = 2 ^ n.
Proof. rewrite pow_INR. by rewrite INR_IZR_INZ. Qed.

Lemma diffusion_closed_form n (v : list C) :
  length v = (2 ^ n)%nat →
  (fun a => a - Cscal (2 * / 2 ^ n) (Csum v))%C <$> v = diffusion v.
Proof.
  intros Hv. unfold diffusion, mean. rewrite Hv, INR_pow2_nat.
  apply list_fmap_ext. intros _ a _. csolve.
Qed.

Lemma exec_oracle_gate n marked s :
  exec n (oracle_gate n marked) s =
  Some (with_sv s (mat_vec (oracle_matrix n marked) (sv s))).
Proof.
  unfold oracle_gate. rewrite exec_sub. cbn [exec_list].
  rewrite exec_unitary by apply square_cdiag. done.
Qed.

(** Running the body of the diffuser. *)
Lemma exec_diffuser_body n s :
  length (sv s) = (2 ^ n)%nat →
  exec_list n (diffuser_body n) s = Some (with_sv s (diffusion (sv s))).
Proof.
  intros Hs. unfold diffuser_body, h_gates.
  rewrite exec_list_app, exec_h_layer by done. cbn [mbind option_bind].
  change ([oracle_gate n [0%Z]] ++ (HGate <$> seq 0 n))
    with (oracle_gate n [0%Z] :: (HGate <$> seq 0 n)).
  cbn [exec_list]. rewrite exec_oracle_gate. unfold oracle_matrix.
  cbn [sv with_sv].
  rewrite <- (length_wht n (sv s) Hs) at 1. rewrite mat_vec_oracle_0.
  rewrite exec_h_layer by (cbn [sv with_sv]; by rewrite length_flip0, length_wht).
  cbn [sv with_sv]. unfold with_sv. cbn [clbits tape].
  by rewrite wht_flip0_wht, (diffusion_closed_form n).
Qed.

Lemma exec_diffuser_gate n s :
  length (sv s) = (2 ^ n)%nat →
  exec n (diffuser_gate n) s = Some (with_sv s (diffusion (sv s))).
Proof. intros Hs. unfold diffuser_gate. rewrite exec_sub. by apply exec_diffuser_body. Qed.

Lemma length_diffusion v : length (diffusion v) = length v.
Proof. unfold diffusion. apply length_fmap. Qed.

Lemma diffusion_opp v : diffusion v = Copp <$> inversion_about_mean v.
Proof.
  unfold diffusion, inversion_about_mean. rewrite <- list_fmap_compose.
  apply list_fmap_ext. intros _ a _. simpl. csolve.
Qed.

Lemma pow2_nonzero n : 2 ^ n ≠ 0.
Proof. apply pow_nonzero. lra. Qed.

(** Reflecting twice gives the list back. *)
Lemma diffusion_involutive n (v : list C) :
  length v = (2 ^ n)%nat → diffusion (diffusion v) = v.
Proof.
  intros Hv. pose proof (pow2_nonzero n).
  assert (mean (diffusion v) = (- mean v)%C) as Hmean.
  { unfold mean. rewrite length_diffusion. unfold diffusion. rewrite Csum_shift.
    unfold mean. rewrite Hv, INR_pow2_nat. apply C_eq; cunfold; by field. }
  unfold diffusion at 1. rewrite Hmean. unfold diffusion.
  rewrite <- list_fmap_compose. rewrite <- (list_fmap_id v) at 2.
  apply list_fmap_ext. intros _ a _. simpl. csolve.
Qed.

(** ** Measuring a basis state *)

Lemma histogram_replicate (k : nat) (key : string) :
  histogram (replicate (S k) key) = {[key := S k]}.
Proof.
  induction k as [|k IH]; [done|].
  change (histogram (replicate (S (S k)) key))
    with (<[key := S (default 0%nat (histogram (replicate (S k) key) !! key))]>
            (histogram (replicate (S k) key))).
  rewrite IH, lookup_singleton_eq. cbn [default from_option].
  by rewrite insert_singleton_eq.
Qed.

(** ** The two-qubit trace *)

(** Equality of explicit amplitude lists, entry by entry. *)
Ltac entries tac :=
  repeat (apply (f_equal2 (@cons C)); [tac|]); try reflexivity.

Lemma oracle_sign_single (z : Z) (i : nat) :
  oracle_sign [z] i = if (Z.of_nat i =? z)%Z then -1 else 1.
Proof.
  unfold oracle_sign. destruct (Z.of_nat i =? z)%Z eqn:E.
  - apply Z.eqb_eq in E as <-. by rewrite decide_True by apply list_elem_of_here.
  - apply Z.eqb_neq in E. by rewrite decide_False by (by intros ?%list_elem_of_singleton).
Qed.

Lemma wht_2_basis : wht 2 (basis 4 0) = uniform_2.
Proof. cbn. unfold uniform_2. entries csqrt. Qed.

Lemma mat_vec_oracle_2_1 : mat_vec (oracle_matrix 2 [1%Z]) uniform_2 = marked_2.
Proof.
  unfold oracle_matrix. change (2 ^ 2)%nat with (length uniform_2).
  rewrite mat_vec_cdiag. unfold uniform_2, marked_2.
  cbn [imap compose]. rewrite !oracle_sign_single.
  cbv [Z.of_nat Pos.of_succ_nat Pos.succ Z.eqb Pos.eqb]. entries csolve.
Qed.

Lemma diffusion_marked_2 : diffusion marked_2 = found_2.
Proof.
  unfold diffusion, mean, marked_2, found_2. cbn [length fmap list_fmap Csum foldr].
  change (INR 4) with (INR (2 ^ 2)). rewrite INR_pow2_nat.
  entries ltac:(apply C_eq; cunfold; field).
Qed.

Lemma exec_h_gates_init_2 c rnd :
  exec_list 2 (h_gates 2) (init 2 c rnd) = Some (with_sv (init 2 c rnd) uniform_2).
Proof.
  unfold h_gates. rewrite exec_h_layer by done.
  change (sv (init 2 c rnd)) with (basis 4 0). by rewrite wht_2_basis.
Qed.

Lemma exec_oracle_2_1 s :
  sv s = uniform_2 →
  exec 2 (oracle_gate 2 [1%Z]) s = Some (with_sv s marked_2).
Proof. intros Hs. by rewrite exec_oracle_gate, Hs, mat_vec_oracle_2_1. Qed.

Lemma exec_diffuser_2 s :
  sv s = marked_2 → exec 2 (diffuser_gate 2) s = Some (with_sv s found_2).
Proof.
  intros Hs. rewrite exec_diffuser_gate by (by rewrite Hs).
  by rewrite Hs, diffusion_marked_2.
Qed.

(** One round on two qubits with index 1 marked, before any measurement. *)
Lemma exec_round_2_1 c rnd :
  exec_list 2 (h_gates 2 ++ [oracle_gate 2 [1%Z]; diffuser_gate 2]) (init 2 c rnd) =
  Some (with_sv (init 2 c rnd) found_2).
Proof.
  rewrite exec_list_app, exec_h_gates_init_2. cbn [mbind option_bind exec_list].
  rewrite exec_oracle_2_1 by done. rewrite exec_diffuser_2 by done. done.
Qed.

(** Measuring qubit 0, then qubit 1, of the state [found_2]: the outcome is
    index 1 whatever the random numbers, and the state is unchanged. *)
Lemma exec_measure_found_2_q0 cl u rnd :
  0 <= u →
  exec_measure 2 0 0 (mkMachine found_2 cl (u :: rnd)) =
  Some (mkMachine found_2 (<[0%nat := true]> cl) rnd).
Proof.
  intros Hu. unfold exec_measure. cbn [tape sv].
  assert (norm2 (project 2 0 false found_2) = 0) as -> by (cbn; unfold Cnorm2; cunfold; lra).
  destruct (Rlt_dec u 0) as [?|_]; [lra|].
  assert (norm2 (project 2 0 true found_2) = 1) as -> by (cbn; unfold Cnorm2; cunfold; lra).
  rewrite sqrt_1. do 2 f_equal. cbn. unfold found_2.
  entries ltac:(apply C_eq; cunfold; field).
Qed.

Lemma exec_measure_found_2_q1 cl u rnd :
  u < 1 →
  exec_measure 2 1 1 (mkMachine found_2 cl (u :: rnd)) =
  Some (mkMachine found_2 (<[1%nat := false]> cl) rnd).
Proof.
  intros Hu. unfold exec_measure. cbn [tape sv].
  assert (norm2 (project 2 1 false found_2) = 1) as Hn
    by (cbn; unfold Cnorm2; cunfold; lra).
  rewrite Hn. destruct (Rlt_dec u 1) as [_|?]; [|lra].
  rewrite Hn, sqrt_1. do 2 f_equal. cbn. unfold found_2.
  entries ltac:(apply C_eq; cunfold; field).
Qed.

Lemma run_grover_2_1 (rnd : list R) :
  shot_ok 2 rnd →
  run (grover_circuit 2 [1%Z] 1) rnd = Some (mkMachine found_2 [true; false] []).
Proof.
  intros [Hlen Hrnd]. destruct rnd as [|u0 [|u1 [|??]]]; simplify_eq/=.
  apply Forall_cons in Hrnd as [Hu0 Hrnd]. apply Forall_cons in Hrnd as [Hu1 _].
  unfold run, grover_circuit. cbn [num_qubits num_clbits data].
  cbn [replicate concat]. rewrite app_nil_r, app_assoc, exec_list_app.
  rewrite exec_round_2_1. cbn [mbind option_bind].
  unfold measure_all. cbn [seq fmap list_fmap exec_list exec].
  unfold with_sv, init. cbn [sv clbits tape replicate].
  rewrite decide_True by (simpl; lia).
  rewrite exec_measure_found_2_q0 by lra. cbn [clbits].
  rewrite decide_True by (simpl; lia).
  rewrite exec_measure_found_2_q1 by lra. done.
Qed.

Lemma get_counts_grover_2_1 (shots : list (list R)) :
  (0 < length shots)%nat → Forall (shot_ok 2) shots →
  get_counts (grover_circuit 2 [1%Z] 1) shots = Some {["01" := length shots]}.
Proof.
  intros Hlen Hshots. unfold get_counts.
  assert (mapM (run (grover_circuit 2 [1%Z] 1)) shots =
          Some (replicate (length shots) (mkMachine found_2 [true; false] []))) as ->.
  { apply mapM_Some. clear Hlen.
    induction Hshots as [|rnd shots Hrnd _ IH]; [constructor|].
    simpl. constructor; [by apply run_grover_2_1|done]. }
  cbn [mbind option_bind]. rewrite fmap_replicate.
  destruct (length shots) as [|k]; [lia|].
  by rewrite histogram_replicate.
Qed.

(** ** The oracle matrix is unitary *)

Lemma cdiag_ext d d' N :
  (∀ i, (i < N)%nat → d i = d' i) → cdiag d N = cdiag d' N.
Proof.
  intros Hd. unfold cdiag. apply list_fmap_ext.
  intros k i [-> Hi]%lookup_seq. rewrite Hd by lia. done.
Qed.

Lemma ncols_cdiag d N : ncols (cdiag d N) = N.
Proof.
  unfold ncols. destruct N as [|N]; [done|].
  erewrite (list_lookup_total_correct (cdiag d (S N))) by (apply lookup_cdiag; lia).
  by rewrite length_fmap, length_seq.
Qed.

Lemma transpose_cdiag d N : transpose (cdiag d N) = cdiag d N.
Proof.
  unfold transpose. rewrite ncols_cdiag. unfold cdiag at 2.
  apply list_fmap_ext. intros j ? [-> Hj]%lookup_seq. cbn [Nat.add]. simpl.
  unfold cdiag. rewrite <- list_fmap_compose.
  apply list_fmap_ext. intros i ? [-> Hi]%lookup_seq. cbn [Nat.add]. simpl.
  erewrite list_lookup_total_correct by (by apply lookup_fmap_seq).
  rewrite Nat.eqb_sym. destruct (j =? i)%nat eqn:E; [|done].
  by apply Nat.eqb_eq in E as ->.
Qed.

Lemma dagger_cdiag d N : dagger (cdiag d N) = cdiag d N.
Proof.
  unfold dagger. rewrite transpose_cdiag. unfold cdiag.
  rewrite <- list_fmap_compose. apply list_fmap_ext. intros _ i _. simpl.
  rewrite <- list_fmap_compose. apply list_fmap_ext. intros _ j _. simpl.
  destruct (i =? j)%nat; csolve.
Qed.

Lemma mat_mul_cdiag d e N :
  mat_mul (cdiag d N) (cdiag e N) = cdiag (fun i => d i * e i) N.
Proof.
  unfold mat_mul. rewrite transpose_cdiag. unfold cdiag at 2 3.
  rewrite <- list_fmap_compose. apply list_fmap_ext. intros i ? [-> Hi]%lookup_seq. cbn [Nat.add].
  simpl. unfold cdiag. rewrite <- list_fmap_compose.
  apply list_fmap_ext. intros j ? [-> Hj]%lookup_seq. cbn [Nat.add]. simpl.
  pose proof (dot_delta (RtoC (d i))
                ((fun k => if (j =? k)%nat then RtoC (e j) else C0) <$> seq 0 N)
                0 i _ (lookup_fmap_seq _ N i Hi)) as Hd.
  rewrite length_fmap, length_seq in Hd. cbn [Nat.add] in Hd. rewrite Hd.
  rewrite Nat.eqb_sym. destruct (i =? j)%nat eqn:E; [|csolve].
  apply Nat.eqb_eq in E as ->. csolve.
Qed.

Lemma oracle_sign_square marked i : oracle_sign marked i * oracle_sign marked i = 1.
Proof. unfold oracle_sign. destruct (decide _); lra. Qed.

Lemma Operator_identity N : Operator (np_identity N) = cdiag (fun _ => 1) N.
Proof. by rewrite np_identity_diag, Operator_diag. Qed.

Lemma oracle_matrix_unitary n marked :
  mat_mul (dagger (oracle_matrix n marked)) (oracle_matrix n marked) =
    Operator (np_identity (2 ^ n)) ∧
  mat_mul (oracle_matrix n marked) (dagger (oracle_matrix n marked)) =
    Operator (np_identity (2 ^ n)).
Proof.
  unfold oracle_matrix. rewrite dagger_cdiag, mat_mul_cdiag, Operator_identity.
  split; apply cdiag_ext; intros i _; apply oracle_sign_square.
Qed.

Lemma entry_oracle_matrix n marked i j :
  (i < 2 ^ n)%nat → (j < 2 ^ n)%nat →
  entry (oracle_matrix n marked) i j =
  if (i =? j)%nat then (if decide (Z.of_nat i ∈ marked) then RtoC (-1) else RtoC 1)
  else RtoC 0.
Proof.
  intros Hi Hj. unfold oracle_matrix. rewrite entry_cdiag by done.
  unfold oracle_sign. destruct (i =? j)%nat; [|done]. by destruct (decide _).
Qed.

(** ** Counting the marked cells *)

Lemma length_filter_iff {A} (P Q : A → Prop)
    `{!∀ x, Decision (P x)} `{!∀ x, Decision (Q x)} (l : list A) :
  (∀ x, x ∈ l → P x ↔ Q x) → length (filter P l) = length (filter Q l).
Proof.
  induction l as [|x l IH]; intros HPQ; [done|].
  rewrite !filter_cons.
  assert (length (filter P l) = length (filter Q l)) as Hl.
  { apply IH. intros y Hy. apply HPQ. by right. }
  pose proof (HPQ x ltac:(left)).
  destruct (decide (P x)), (decide (Q x)); simpl; try tauto; lia.
Qed.

Lemma length_filter_compl {A} (P : A → Prop) `{!∀ x, Decision (P x)} (l : list A) :
  (length (filter P l) + length (filter (fun x => ¬ P x) l) = length l)%nat.
Proof.
  induction l as [|x l IH]; [done|]. rewrite !filter_cons.
  destruct (decide (P x)), (decide (¬ P x)); simpl; try tauto; lia.
Qed.

(** With distinct indices in range, as many naturals below [2^n] are marked
    as the list has entries. *)
Lemma length_filter_marked n (marked : list Z) :
  NoDup marked → in_range n marked →
  length (filter (fun i : nat => Z.of_nat i ∈ marked) (seq 0 (2 ^ n))) = length marked.
Proof.
  intros Hnd Hm.
  rewrite <- (length_fmap Z.to_nat marked). apply Permutation_length.
  apply NoDup_Permutation.
  - apply NoDup_filter, NoDup_seq.
  - apply NoDup_fmap_2_strong; [|done].
    intros x y Hx Hy Hxy. unfold in_range in Hm. rewrite Forall_forall in Hm.
    pose proof (Hm x Hx). pose proof (Hm y Hy). lia.
  - intros k. rewrite list_elem_of_filter, elem_of_seq, list_elem_of_fmap.
    unfold in_range in Hm. rewrite Forall_forall in Hm. split.
    + intros [Hk _]. exists (Z.of_nat k). split; [lia|done].
    + intros (z & -> & Hz). pose proof (Hm z Hz) as Hr.
      rewrite <- pow2_of_nat in Hr.
      split; [|lia]. by replace (Z.of_nat (Z.to_nat z)) with z by lia.
Qed.

Lemma RtoC_inj x y : RtoC x = RtoC y → x = y.
Proof. by intros [= ->]. Qed.

Lemma count_minus_one n (marked : list Z) :
  NoDup marked → in_range n marked →
  length (filter (fun i => entry (oracle_matrix n marked) i i = RtoC (-1))
            (seq 0 (2 ^ n))) = length marked.
Proof.
  intros Hnd Hm. rewrite <- (length_filter_marked n marked Hnd Hm).
  apply length_filter_iff. intros i [_ Hi]%elem_of_seq.
  rewrite entry_oracle_matrix, Nat.eqb_refl by lia.
  destruct (decide (Z.of_nat i ∈ marked)); [done|].
  split; [|done]. intros ?%RtoC_inj. lra.
Qed.

Lemma count_plus_one n (marked : list Z) :
  NoDup marked → in_range n marked →
  length (filter (fun i => entry (oracle_matrix n marked) i i = RtoC 1)
            (seq 0 (2 ^ n))) = (2 ^ n - length marked)%nat.
Proof.
  intros Hnd Hm.
  pose proof (length_filter_compl (fun i : nat => Z.of_nat i ∈ marked) (seq 0 (2 ^ n)))
    as Hc.
  rewrite (length_filter_marked n marked Hnd Hm), length_seq in Hc.
  transitivity
    (length (filter (fun i : nat => Z.of_nat i ∉ marked) (seq 0 (2 ^ n)))); [|lia].
  apply length_filter_iff. intros i [_ Hi]%elem_of_seq.
  rewrite entry_oracle_matrix, Nat.eqb_refl by lia.
  destruct (decide (Z.of_nat i ∈ marked)); [|done].
  split; [|done]. intros ?%RtoC_inj. lra.
Qed.

(** ** The round count *)

Lemma PI_lt_4 : PI < 4.
Proof.
  destruct (PI_ineq 1) as [_ H].
  unfold sum_f_R0, tg_alt, PI_tg in H. simpl in H. lra.
Qed.

Lemma optimal_rounds_bound n k :
  IZR (optimal_rounds n k) <= PI / 4 * sqrt (2 ^ n / INR k) < IZR (optimal_rounds n k) + 1.
Proof. apply Zfloor_bound. Qed.

Lemma optimal_rounds_nonneg n k : (0 ≤ optimal_rounds n k)%Z.
Proof.
  apply Zfloor_lub. apply Rmult_le_pos; [|apply sqrt_pos].
  pose proof PI_RGT_0. lra.
Qed.

Lemma optimal_rounds_2_1 : optimal_rounds 2 1 = 1%Z.
Proof.
  apply Zfloor_eq.
  replace (2 ^ 2 / INR 1) with (2 * 2) by (simpl; field).
  rewrite sqrt_square by lra.
  pose proof PI2_1. pose proof PI_lt_4. lra.
Qed.

Lemma optimal_rounds_all_marked n : optimal_rounds n (2 ^ n) = 0%Z.
Proof.
  apply Zfloor_eq. rewrite INR_pow2_nat.
  replace (2 ^ n / 2 ^ n) with 1 by (field; apply pow2_nonzero).
  rewrite sqrt_1. pose proof PI_RGT_0. pose proof PI_lt_4. lra.
Qed.

(** ** The teaching variants *)

Lemma for_loop_ext {A S} (body body' : S → A → result S) (its : list A) : ∀ s,
  (∀ s x, body s x = body' s x) → for_loop body its s = for_loop body' its s.
Proof.
  intros s Hb. revert s. induction its as [|x its IH]; intros s; [done|].
  cbn [for_loop]. rewrite Hb. destruct (body' s x); [apply IH|done].
Qed.

Lemma for_loop_emit {A} (ops : list instruction) (its : list A) : ∀ qc,
  for_loop (fun qc _ => Ok (emit qc ops)) its qc =
  Ok (emit qc (concat (replicate (length its) ops))).
Proof.
  induction its as [|x its IH]; intros qc.
  - simpl. by rewrite emit_nil.
  - cbn [for_loop mbind result_bind]. rewrite IH. by rewrite emit_emit.
Qed.

Lemma oracle_loop n marked (its : list nat) qc :
  in_range n marked →
  for_loop (fun qc (_ : nat) =>
              oracle ← phase_oracle n marked "Oracle";
              Ok (append qc oracle (range n))) its qc =
  Ok (emit qc (concat (replicate (length its) [oracle_gate n marked]))).
Proof.
  intros Hm. rewrite <- for_loop_emit. apply for_loop_ext. intros s _.
  rewrite phase_oracle_circuit by done. cbn [mbind result_bind].
  by rewrite range_nat.
Qed.

Lemma Grover_Step_I_explicit n marked r :
  r ≠ 0%Z → in_range n marked →
  Grover_Step_I n marked (Some r) =
  ([], Ok (mkCircuit None n 0
             (h_gates n ++ concat (replicate (Z.to_nat r) [oracle_gate n marked])))).
Proof.
  intros Hr Hm. unfold Grover_Step_I. cbn [default from_option].
  rewrite determine_r_explicit by done. cbn [mbind py_bind].
  rewrite oracle_loop by done. unfold quiet. cbn [mbind py_bind mret py_ret].
  rewrite length_range, range_nat. unfold h, new_circuit. by rewrite emit_emit.
Qed.

Lemma Grover_Step_II_explicit n marked r :
  r ≠ 0%Z → in_range n marked →
  Grover_Step_II n marked (Some r) =
  ([], Ok (mkCircuit None n 0
             (h_gates n
              ++ concat (replicate (Z.to_nat r) [oracle_gate n marked; diffuser_gate n])))).
Proof.
  intros Hr Hm. unfold Grover_Step_II. cbn [default from_option].
  rewrite determine_r_explicit by done. cbn [mbind py_bind].
  rewrite rounds_loop by auto. unfold quiet. cbn [mbind py_bind mret py_ret].
  rewrite length_range, range_nat. unfold h, new_circuit. by rewrite emit_emit.
Qed.

Lemma in_range_2_1 : in_range 2 [1%Z].
Proof. apply Forall_singleton. simpl. lia. Qed.

Lemma Grover_explicit n marked r :
  r ≠ 0%Z → in_range n marked ∨ (r ≤ 0)%Z →
  Grover n marked (Some r) = ([], Ok (grover_circuit n marked (Z.to_nat r))).
Proof.
  intros Hr Hm. apply Grover_after_determine; [|done].
  by apply determine_r_explicit.
Qed.

Lemma Grover_auto n marked arg :
  default 0%Z arg = 0%Z → marked ≠ [] → in_range n marked →
  overflows (round_ratio (2 ^ Z.of_nat n) (Z.of_nat (length marked))) = false →
  Grover n marked arg =
  ([rounds_line n marked (computed_rounds n (length marked))],
   Ok (grover_circuit n marked (Z.to_nat (computed_rounds n (length marked))))).
Proof.
  intros Harg Hne Hm Hov. apply Grover_after_determine; [|by left].
  rewrite Harg. by apply determine_r_auto.
Qed.

Lemma Grover_auto_1023 n marked arg :
  default 0%Z arg = 0%Z → marked ≠ [] → in_range n marked → (n ≤ 1023)%nat →
  Grover n marked arg =
  ([rounds_line n marked (computed_rounds n (length marked))],
   Ok (grover_circuit n marked (Z.to_nat (computed_rounds n (length marked))))).
Proof.
  intros Harg Hne Hm Hn. apply Grover_auto; try done.
  apply quotient_in_range; [|done]. destruct marked; [done|simpl; lia].
Qed.

Lemma Grover_empty n arg :
  default 0%Z arg = 0%Z → Grover n [] arg = ([], Raise ZeroDivisionError).
Proof. intros Harg. unfold Grover. by rewrite Harg, determine_r_empty. Qed.

Lemma grover_circuit_rounds_inj n marked (j k : nat) :
  grover_circuit n marked j = grover_circuit n marked k → j = k.
Proof.
  intros [= H%(f_equal length)].
  rewrite !length_app in H. apply Nat.add_cancel_l, Nat.add_cancel_r in H.
  assert (∀ m, length (concat (replicate m [oracle_gate n marked; diffuser_gate n])) =
               (2 * m)%nat) as Hlen.
  { intros m. induction m as [|m IH]; [done|]. simpl in *. lia. }
  rewrite !Hlen in H. lia.
Qed.

(** * The claims of the specification *)

(** C1.  [Grover(2, [1], 1)] returns the one-round circuit.  Its rounds
    alone (the circuit of [Grover_Step_II], which has no measurement) take
    the basis state 0 to the amplitudes [0, -1, 0, 0], whose Born weights
    are [0, 1, 0, 0].  Run with its measurements on any random numbers of
    [[0,1)], the circuit keeps these amplitudes and reads index 1 (classical
    bit 0 set, bit 1 clear, key ["01"]), and [shots] = 1000 such runs are
    all counted under ["01"]. *)
Theorem grover_2_1_finds_index_1 (shots : list (list R)) :
  length shots = 1000%nat →
  Forall (shot_ok 2) shots →
  Grover 2 [1%Z] (Some 1%Z) = ([], Ok (grover_circuit 2 [1%Z] 1)) ∧
  (∃ qc, Grover_Step_II 2 [1%Z] (Some 1%Z) = ([], Ok qc) ∧
         run qc [] = Some (mkMachine found_2 [] [])) ∧
  Cnorm2 <$> found_2 = [0; 1; 0; 0] ∧
  Forall (fun rnd => run (grover_circuit 2 [1%Z] 1) rnd =
                     Some (mkMachine found_2 [true; false] [])) shots ∧
  bitstring [true; false] = "01" ∧
  get_counts (grover_circuit 2 [1%Z] 1) shots = Some {["01" := 1000%nat]}.
Proof.
  intros Hlen Hshots. split_and!.
  - by apply Grover_explicit; [|left; apply in_range_2_1].
  - eexists. split; [by apply Grover_Step_II_explicit; [|apply in_range_2_1]|].
    unfold run. change (Z.to_nat 1) with 1%nat.
    cbn [num_qubits num_clbits data replicate concat].
    rewrite app_nil_r. apply exec_round_2_1.
  - unfold found_2. cbn. unfold Cnorm2. cunfold.
    repeat (apply (f_equal2 (@cons R)); [lra|]). done.
  - eapply Forall_impl; [exact Hshots|]. intros rnd. apply run_grover_2_1.
  - done.
  - rewrite <- Hlen. apply get_counts_grover_2_1; [lia|done].
Qed.

Lemma grover_2_1_finds_index_1_witness :
  get_counts (grover_circuit 2 [1%Z] 1) (replicate 1000 [0; 0]) =
  Some {["01" := 1000%nat]}.
Proof.
  apply (grover_2_1_finds_index_1 (replicate 1000 [0; 0])).
  - apply length_replicate.
  - apply Forall_replicate. split; [reflexivity|].
    repeat constructor; lra.
Defined.

(** C2.  For distinct marked indices in [[0, 2^n)], [phase_oracle] returns
    the circuit whose single instruction places on all [n] qubits a
    [2^n] by [2^n] matrix [U] that is the identity except for -1 at the
    marked diagonal cells: off-diagonal entries are 0, [U] is unitary, and
    exactly [length marked] diagonal entries are -1 while the other
    [2^n - length marked] are +1. *)
Theorem phase_oracle_spec (n : nat) (marked : list Z) (nm : string) :
  NoDup marked →
  in_range n marked →
  ∃ U,
    phase_oracle n marked nm = Ok (mkCircuit (Some nm) n 0 [UnitaryGate U (seq 0 n)]) ∧
    square (2 ^ n) U ∧
    (∀ i j, (i < 2 ^ n)%nat → (j < 2 ^ n)%nat →
       entry U i j =
       if (i =? j)%nat
       then (if decide (Z.of_nat i ∈ marked) then RtoC (-1) else RtoC 1)
       else RtoC 0) ∧
    mat_mul (dagger U) U = Operator (np_identity (2 ^ n)) ∧
    mat_mul U (dagger U) = Operator (np_identity (2 ^ n)) ∧
    length (filter (fun i => entry U i i = RtoC (-1)) (seq 0 (2 ^ n))) = length marked ∧
    length (filter (fun i => entry U i i = RtoC 1) (seq 0 (2 ^ n))) =
      (2 ^ n - length marked)%nat.
Proof.
  intros Hnd Hm. exists (oracle_matrix n marked). split_and!.
  - by apply phase_oracle_circuit.
  - apply square_cdiag.
  - intros i j. apply entry_oracle_matrix.
  - apply oracle_matrix_unitary.
  - apply oracle_matrix_unitary.
  - by apply count_minus_one.
  - by apply count_plus_one.
Qed.

Lemma phase_oracle_spec_witness :
  ∃ U, phase_oracle 2 [1%Z] "Oracle" =
       Ok (mkCircuit (Some "Oracle") 2 0 [UnitaryGate U (seq 0 2)]) ∧
       entry U 1 1 = RtoC (-1).
Proof.
  destruct (phase_oracle_spec 2 [1%Z] "Oracle") as (U & HU & _ & Hentry & _).
  - apply NoDup_singleton.
  - apply Forall_singleton. simpl. lia.
  - exists U. split; [exact HU|]. apply (Hentry 1%nat 1%nat); simpl; lia.
Defined.

(** C3, as the code has it.  [diffuser] returns the Hadamard layer, the
    circuit of [phase_oracle(n, [0])] on all qubits, and the Hadamard layer
    again; run on any amplitudes [a] of an [n]-qubit register it yields
    [a_i - 2 * mean(a)] at every index [i], which is the opposite of
    [2 * mean(a) - a_i]. *)
Theorem diffuser_spec (n : nat) (s : machine) :
  length (sv s) = (2 ^ n)%nat →
  ∃ oracle d,
    phase_oracle n [0%Z] "Oracle" = Ok oracle ∧
    data oracle = [UnitaryGate (oracle_matrix n [0%Z]) (seq 0 n)] ∧
    diffuser n = Ok d ∧
    data d =
      (HGate <$> seq 0 n)
      ++ [SubCircuit (name oracle) (num_qubits oracle) (data oracle) (seq 0 n)]
      ++ (HGate <$> seq 0 n) ∧
    exec_list n (data d) s =
      Some (with_sv s ((fun a => a - Cscal 2 (mean (sv s)))%C <$> sv s)) ∧
    (fun a => a - Cscal 2 (mean (sv s)))%C <$> sv s =
      Copp <$> inversion_about_mean (sv s).
Proof.
  intros Hs. eexists _, _. split_and!.
  - apply phase_oracle_circuit, in_range_0.
  - done.
  - apply diffuser_circuit.
  - done.
  - by apply exec_diffuser_body.
  - apply diffusion_opp.
Qed.

Lemma diffuser_spec_witness :
  ∃ d, diffuser 1 = Ok d ∧
       exec_list 1 (data d) (mkMachine [RtoC 1; RtoC 0] [] []) =
       Some (mkMachine
               ((fun a => a - Cscal 2 (mean [RtoC 1; RtoC 0]))%C <$> [RtoC 1; RtoC 0])
               [] []).
Proof.
  destruct (diffuser_spec 1 (mkMachine [RtoC 1; RtoC 0] [] []))
    as (o & d & _ & _ & Hd & _ & Hrun & _).
  - reflexivity.
  - exists d. split; [exact Hd|exact Hrun].
Defined.

(** C3 as stated fails: on one qubit the diffuser takes the amplitudes
    [1, 0] to [0, -1], while [2 * mean - a_i] gives [0, 1]. *)
Lemma diffuser_is_not_inversion_about_mean :
  ∃ d, diffuser 1 = Ok d ∧
       exec_list 1 (data d) (mkMachine [RtoC 1; RtoC 0] [] []) =
         Some (mkMachine [RtoC 0; RtoC (-1)] [] []) ∧
       inversion_about_mean [RtoC 1; RtoC 0] = [RtoC 0; RtoC 1] ∧
       exec_list 1 (data d) (mkMachine [RtoC 1; RtoC 0] [] []) ≠
         Some (mkMachine (inversion_about_mean [RtoC 1; RtoC 0]) [] []).
Proof.
  assert (inversion_about_mean [RtoC 1; RtoC 0] = [RtoC 0; RtoC 1]) as Hinv.
  { unfold inversion_about_mean, mean. cbn. entries ltac:(apply C_eq; cunfold; field). }
  assert (exec_list 1 (diffuser_body 1) (mkMachine [RtoC 1; RtoC 0] [] []) =
          Some (mkMachine [RtoC 0; RtoC (-1)] [] [])) as Hrun.
  { rewrite exec_diffuser_body by done. unfold with_sv, diffusion, mean. cbn.
    do 2 f_equal. entries ltac:(apply C_eq; cunfold; field). }
  eexists. split_and!; [apply diffuser_circuit|exact Hrun|exact Hinv|].
  cbn [data]. rewrite Hrun, Hinv. intros [= H]. lra.
Qed.

(** C4, as the code has it.  With [r] left out, a non-empty marked list of
    length [k] and at most 1023 qubits, the driver evaluates
    [floor(pi/4 * sqrt(2^n / k))] in double precision, prints the result
    [r] and builds that many rounds.  For [k <= 2^n] the double it floors is
    within [2^-50] of the exact [x = pi/4 * sqrt(2^n / k)], relatively, so
    [(1 - 2^-50) x - 1 < r <= (1 + 2^-50) x], and [r] is the floor of [x]
    wherever [x] keeps that distance from the integers around it.  It is 1
    for [n = 2, k = 1] and 0 when [k = 2^n]. *)
Theorem auto_round_count (n : nat) (marked : list Z) :
  marked ≠ [] →
  in_range n marked →
  (n ≤ 1023)%nat →
  let k := length marked in
  let x := PI / 4 * sqrt (2 ^ n / INR k) in
  ∃ r : Z,
    determine_r n marked 0 = ([rounds_line n marked r], Ok r) ∧
    Grover n marked None =
      ([rounds_line n marked r], Ok (grover_circuit n marked (Z.to_nat r))) ∧
    r = py_int (np_floor (float_mul (float_truediv np_pi (float_of_int 4))
                            (np_sqrt (round_ratio (2 ^ Z.of_nat n) (Z.of_nat k))))) ∧
    (0 ≤ r)%Z ∧
    ((k ≤ 2 ^ n)%nat →
       (1 - bpow (-50)) * x - 1 < IZR r <= (1 + bpow (-50)) * x) ∧
    ((k ≤ 2 ^ n)%nat → ∀ z : Z,
       IZR z <= (1 - bpow (-50)) * x → (1 + bpow (-50)) * x < IZR z + 1 →
       r = z ∧ optimal_rounds n k = z) ∧
    (n = 2%nat → k = 1%nat → r = 1%Z) ∧
    (k = (2 ^ n)%nat → r = 0%Z).
Proof.
  intros Hne Hm Hn k x. exists (computed_rounds n k).
  assert (1 ≤ k)%nat as Hk by (unfold k; destruct marked; [done|simpl; lia]).
  split_and!.
  - by apply determine_r_auto_1023.
  - by apply Grover_auto_1023.
  - done.
  - apply computed_rounds_nonneg.
  - intros Hk2. by apply computed_rounds_near_floor.
  - intros Hk2 z Hlo Hhi. by apply computed_rounds_exact.
  - intros -> ->. apply computed_rounds_2_1.
  - intros ->. by apply computed_rounds_crowded.
Qed.

Lemma auto_round_count_witness :
  ∃ r : Z,
    Grover 2 [1%Z] None =
      ([rounds_line 2 [1%Z] r], Ok (grover_circuit 2 [1%Z] (Z.to_nat r))) ∧
    r = 1%Z.
Proof.
  destruct (auto_round_count 2 [1%Z]) as (r & _ & HG & _ & _ & _ & _ & H21 & _).
  - discriminate.
  - apply Forall_singleton. simpl. lia.
  - lia.
  - exists r. split; [exact HG|]. apply H21; reflexivity.
Defined.

(** C4 as stated fails.  For 109 qubits and 5 marked indices the exact
    value is 8948281602383724.71..., with floor ...724, and the driver
    computes ...725: the product is a double between [2^52] and [2^53],
    where the doubles are the integers, and the multiplication rounds to
    the nearest of them.  With 1024 qubits and one marked index no count
    is computed at all: [2**1024 / 1] raises [OverflowError]. *)
Lemma auto_round_count_is_not_the_floor :
  determine_r 109 [0; 1; 2; 3; 4]%Z 0 =
    ([rounds_line 109 [0; 1; 2; 3; 4]%Z 8948281602383725], Ok 8948281602383725%Z) ∧
  Zfloor (PI / 4 * sqrt (2 ^ 109 / INR 5)) = 8948281602383724%Z ∧
  determine_r 1024 [0%Z] 0 = ([], Raise OverflowError).
Proof.
  split_and!.
  - rewrite determine_r_auto_1023 by (done || lia).
    change (length [0; 1; 2; 3; 4]%Z) with 5%nat.
    by rewrite computed_rounds_109_5.
  - apply exact_floor_109_5.
  - apply determine_r_overflow; [done|]. by vm_compute.
Qed.

(** C5, as the code has it.  An explicit [r = 0] is the call that leaves
    [r] out: whenever the "Determine r" block returns a count, that count
    is the one computed in double precision, the line with it is printed,
    and the circuit has that many rounds; for at most 1023 qubits the block
    always returns one. *)
Theorem explicit_zero_means_auto (n : nat) (marked : list Z) :
  marked ≠ [] →
  in_range n marked →
  Grover n marked (Some 0%Z) = Grover n marked None ∧
  (∀ out r, determine_r n marked 0 = (out, Ok r) →
     out = [rounds_line n marked r] ∧
     r = computed_rounds n (length marked) ∧
     Grover n marked (Some 0%Z) = (out, Ok (grover_circuit n marked (Z.to_nat r)))) ∧
  ((n ≤ 1023)%nat →
     Grover n marked (Some 0%Z) =
       ([rounds_line n marked (computed_rounds n (length marked))],
        Ok (grover_circuit n marked (Z.to_nat (computed_rounds n (length marked)))))).
Proof.
  intros Hne Hm. split_and!; [done| |].
  - intros out r Hdet.
    destruct (overflows (round_ratio (2 ^ Z.of_nat n) (Z.of_nat (length marked))))
      eqn:Hov.
    + by rewrite determine_r_overflow in Hdet.
    + rewrite determine_r_auto in Hdet by done. injection Hdet as <- <-.
      split_and!; [done..|]. by apply Grover_auto.
  - intros Hn. by apply Grover_auto_1023.
Qed.

Lemma explicit_zero_means_auto_witness :
  Grover 2 [1%Z] (Some 0%Z) = Grover 2 [1%Z] None.
Proof.
  destruct (explicit_zero_means_auto 2 [1%Z]) as (H & _).
  - discriminate.
  - apply Forall_singleton. simpl. lia.
  - exact H.
Defined.

(** C5 as stated fails: [Grover(2, [1], 0)] does not skip amplification, it
    prints the computed count and builds one round, exactly as
    [Grover(2, [1])] does; the zero-round circuit is a different one. *)
Lemma explicit_zero_runs_one_round :
  Grover 2 [1%Z] (Some 0%Z) =
    ([rounds_line 2 [1%Z] 1], Ok (grover_circuit 2 [1%Z] 1)) ∧
  Grover 2 [1%Z] (Some 0%Z) = Grover 2 [1%Z] None ∧
  grover_circuit 2 [1%Z] 1 ≠ grover_circuit 2 [1%Z] 0.
Proof.
  split_and!.
  - rewrite (Grover_auto_1023 2 [1%Z] (Some 0%Z)); [|done|done|apply in_range_2_1|lia].
    cbn [length]. by rewrite computed_rounds_2_1.
  - done.
  - by intros ?%grover_circuit_rounds_inj.
Qed.

(** C6, as the code has it.  For [n >= 1], a non-empty marked list in
    range and a round count [r] other than 0, the circuit [Grover] returns
    is: Hadamard on qubits 0 .. n-1, then [r] times the pair (the circuit
    [phase_oracle] returns for the caller's marked list, the circuit
    [diffuser] returns), both on all qubits, then the measurement of qubit
    [q] into classical bit [q] for q = 0 .. n-1.  The loop runs
    [len(range(r))] times: [r] times for [r >= 1], never for [r < 0]. *)
Theorem grover_circuit_structure (n : nat) (marked : list Z) (r : Z) :
  (1 ≤ n)%nat →
  marked ≠ [] →
  in_range n marked →
  r ≠ 0%Z →
  ∃ oracle d,
    phase_oracle n marked "Oracle" = Ok oracle ∧
    diffuser n = Ok d ∧
    Grover n marked (Some r) =
      ([],
       Ok (mkCircuit None n n
             ((HGate <$> seq 0 n)
              ++ concat (replicate (length (range r))
                   [SubCircuit (name oracle) (num_qubits oracle) (data oracle) (seq 0 n);
                    SubCircuit (name d) (num_qubits d) (data d) (seq 0 n)])
              ++ ((fun q => MeasureOp q q) <$> seq 0 n)))) ∧
    ((1 ≤ r)%Z → Z.of_nat (length (range r)) = r) ∧
    ((r < 0)%Z → length (range r) = 0%nat).
Proof.
  intros _ Hne Hm Hr. eexists _, _. split_and!.
  - by apply phase_oracle_circuit.
  - apply diffuser_circuit.
  - rewrite length_range. erewrite Grover_after_determine;
      [reflexivity|by apply determine_r_explicit|by left].
  - intros Hpos. rewrite length_range. lia.
  - intros Hneg. rewrite length_range. lia.
Qed.

Lemma grover_circuit_structure_witness :
  ∃ oracle d,
    phase_oracle 2 [1%Z] "Oracle" = Ok oracle ∧
    diffuser 2 = Ok d ∧
    Grover 2 [1%Z] (Some 3%Z) =
      ([], Ok (mkCircuit None 2 2
                 ((HGate <$> seq 0 2)
                  ++ concat (replicate 3
                       [SubCircuit (name oracle) (num_qubits oracle) (data oracle) (seq 0 2);
                        SubCircuit (name d) (num_qubits d) (data d) (seq 0 2)])
                  ++ ((fun q => MeasureOp q q) <$> seq 0 2)))).
Proof.
  destruct (grover_circuit_structure 2 [1%Z] 3)
    as (o & d & Ho & Hd & HG & _ & _).
  - lia.
  - discriminate.
  - apply Forall_singleton. simpl. lia.
  - discriminate.
  - exists o, d. split; [exact Ho|]. split; [exact Hd|]. exact HG.
Defined.

(** C6 as stated fails at the round count 0: [Grover(2, [1], 0)] does not
    return the circuit with zero rounds (Hadamard layer, then measurement)
    but the one with one round, the count the driver computes for
    itself. *)
Lemma zero_round_count_builds_a_round :
  snd (Grover 2 [1%Z] (Some 0%Z)) =
    Ok (mkCircuit None 2 2
          (h_gates 2
           ++ concat (replicate 1 [oracle_gate 2 [1%Z]; diffuser_gate 2])
           ++ measure_all 2)) ∧
  snd (Grover 2 [1%Z] (Some 0%Z)) ≠
    Ok (mkCircuit None 2 2
          (h_gates 2
           ++ concat (replicate 0 [oracle_gate 2 [1%Z]; diffuser_gate 2])
           ++ measure_all 2)).
Proof.
  rewrite (Grover_auto_1023 2 [1%Z] (Some 0%Z)); [|done|done|apply in_range_2_1|lia].
  cbn [length snd]. rewrite computed_rounds_2_1. split; [done|].
  by intros [= H].
Qed.

Lemma length_basis N j : length (basis N j) = N.
Proof. unfold basis. by rewrite length_fmap, length_seq. Qed.

Lemma mapM_fmap_Some_ext {A B} (f : A → option B) (g : A → B) (l : list A) :
  (∀ x, x ∈ l → f x = Some (g x)) → mapM f l = Some (g <$> l).
Proof.
  intros Hf. apply mapM_Some. induction l as [|x l IH]; [constructor|].
  rewrite fmap_cons. constructor.
  - apply Hf. left.
  - apply IH. intros y Hy. apply Hf. by right.
Qed.

(** An instruction list that fixes every basis state has the identity
    matrix. *)
Lemma unitary_of_identity n body :
  (∀ j, (j < 2 ^ n)%nat →
     exec_list n body (mkMachine (basis (2 ^ n) j) [] []) =
     Some (mkMachine (basis (2 ^ n) j) [] [])) →
  unitary_of n body = Some (Operator (np_identity (2 ^ n))).
Proof.
  intros Hfix. unfold unitary_of.
  rewrite (mapM_fmap_Some_ext _ (basis (2 ^ n))).
  - cbn [mbind option_bind]. f_equal.
    change (basis (2 ^ n) <$> seq 0 (2 ^ n)) with (cdiag (fun _ => 1) (2 ^ n)).
    by rewrite transpose_cdiag, Operator_identity.
  - intros j [_ Hj]%elem_of_seq. by rewrite Hfix by lia.
Qed.

Lemma exec_diffuser_body_twice n s :
  length (sv s) = (2 ^ n)%nat →
  exec_list n (diffuser_body n ++ diffuser_body n) s = Some s.
Proof.
  intros Hs. rewrite exec_list_app.
  rewrite exec_diffuser_body by done. cbn [mbind option_bind].
  rewrite exec_diffuser_body by (cbn [sv with_sv]; by rewrite length_diffusion).
  cbn [sv with_sv]. rewrite (diffusion_involutive n) by done.
  rewrite with_sv_with_sv. by rewrite with_sv_id.
Qed.

Lemma unitary_of_diffuser_twice n :
  unitary_of n (diffuser_body n ++ diffuser_body n) =
  Some (Operator (np_identity (2 ^ n))).
Proof.
  apply unitary_of_identity. intros j _.
  apply exec_diffuser_body_twice. apply length_basis.
Qed.

(** C7.  On every register of [n] qubits, the diffuser applied twice in
    succession leaves every amplitude list (and the rest of the run state)
    as it was: its instructions run twice, and two copies of it appended to
    a circuit, are the identity transform, and the matrix of the composed
    transform is the identity matrix of dimension [2^n]. *)
Theorem diffuser_twice_is_identity (n : nat) (s : machine) :
  length (sv s) = (2 ^ n)%nat →
  ∃ d,
    diffuser n = Ok d ∧
    exec_list n (data d ++ data d) s = Some s ∧
    exec_list n
      (data (append (append (new_circuit n 0 None) d (range n)) d (range n))) s = Some s ∧
    unitary_of n (data d ++ data d) = Some (Operator (np_identity (2 ^ n))).
Proof.
  intros Hs. eexists. split; [apply diffuser_circuit|]. split_and!.
  - by apply exec_diffuser_body_twice.
  - rewrite range_nat. unfold append, emit, new_circuit.
    cbn [data name num_qubits num_clbits app exec_list].
    fold (diffuser_gate n). rewrite exec_diffuser_gate by done.
    rewrite exec_diffuser_gate by (cbn [sv with_sv]; by rewrite length_diffusion).
    cbn [sv with_sv]. rewrite (diffusion_involutive n) by done.
    rewrite with_sv_with_sv. by rewrite with_sv_id.
  - apply unitary_of_diffuser_twice.
Qed.

Lemma diffuser_twice_is_identity_witness :
  ∃ d, diffuser 1 = Ok d ∧
       exec_list 1 (data d ++ data d) (mkMachine [RtoC 0; RtoC 1] [] []) =
       Some (mkMachine [RtoC 0; RtoC 1] [] []).
Proof.
  destruct (diffuser_twice_is_identity 1 (mkMachine [RtoC 0; RtoC 1] [] []))
    as (d & Hd & Hrun & _).
  - reflexivity.
  - exists d. split; [exact Hd|exact Hrun].
Defined.

(** C8.  On two qubits, the Hadamard layer alone takes the basis state 0 to
    the amplitudes [1/2, 1/2, 1/2, 1/2], and the circuit of
    [Grover_Step_I(2, [1], 1)] (Hadamard layer, one oracle, no diffuser)
    takes it to [1/2, -1/2, 1/2, 1/2]. *)
Theorem two_qubit_trace :
  run (h (new_circuit 2 0 None) (range 2)) [] = Some (mkMachine uniform_2 [] []) ∧
  uniform_2 = [RtoC (1/2); RtoC (1/2); RtoC (1/2); RtoC (1/2)] ∧
  ∃ qc,
    Grover_Step_I 2 [1%Z] (Some 1%Z) = ([], Ok qc) ∧
    data qc = (HGate <$> seq 0 2) ++ [oracle_gate 2 [1%Z]] ∧
    run qc [] = Some (mkMachine marked_2 [] []) ∧
    marked_2 = [RtoC (1/2); RtoC (-1/2); RtoC (1/2); RtoC (1/2)].
Proof.
  split_and!.
  - unfold run. change (range 2) with (seq 0 2).
    unfold h, emit, new_circuit. cbn [data num_qubits num_clbits app].
    apply exec_h_gates_init_2.
  - done.
  - eexists. split_and!.
    + by apply Grover_Step_I_explicit; [|apply in_range_2_1].
    + done.
    + unfold run. change (Z.to_nat 1) with 1%nat.
      cbn [num_qubits num_clbits data replicate concat]. rewrite app_nil_r.
      rewrite exec_list_app, exec_h_gates_init_2. cbn [mbind option_bind exec_list].
      by rewrite exec_oracle_2_1.
    + done.
Qed.

(** C9.  With an empty marked list and the round count to be computed
    (whether [r] is left out or given as 0), [Grover] raises
    [ZeroDivisionError], and it is the division [2^n / len(...)] that
    raises.  The driver has no check of its own: with any other [r] the
    same empty list is accepted and a circuit is returned. *)
Theorem empty_marked_set_divides_by_zero (n : nat) (r : Z) :
  r ≠ 0%Z →
  Grover n [] None = ([], Raise ZeroDivisionError) ∧
  Grover n [] (Some 0%Z) = ([], Raise ZeroDivisionError) ∧
  py_truediv (2 ^ Z.of_nat n) (Z.of_nat (length (@nil Z))) = Raise ZeroDivisionError ∧
  determine_r n [] 0 = ([], Raise ZeroDivisionError) ∧
  Grover n [] (Some r) = ([], Ok (grover_circuit n [] (Z.to_nat r))).
Proof.
  intros Hr. split_and!; try done.
  apply Grover_explicit; [done|]. left. apply Forall_nil_2.
Qed.

Lemma empty_marked_set_divides_by_zero_witness :
  Grover 2 [] None = ([], Raise ZeroDivisionError).
Proof.
  apply (empty_marked_set_divides_by_zero 2 1). discriminate.
Defined.

(** C10.  A negative explicit [r] raises nothing: [Grover] returns the
    circuit with the Hadamard layer followed at once by the measurement of
    every qubit, whatever the marked list. *)
Theorem negative_rounds_build_no_round (n : nat) (marked : list Z) (r : Z) :
  (r < 0)%Z →
  Grover n marked (Some r) =
    ([], Ok (mkCircuit None n n
               ((HGate <$> seq 0 n) ++ ((fun q => MeasureOp q q) <$> seq 0 n)))) ∧
  range r = [].
Proof.
  intros Hr. split.
  - rewrite Grover_explicit by (try right; lia).
    by replace (Z.to_nat r) with 0%nat by lia.
  - unfold range. by replace (Z.to_nat r) with 0%nat by lia.
Qed.

Lemma negative_rounds_build_no_round_witness :
  Grover 2 [1%Z] (Some (-1)%Z) =
    ([], Ok (mkCircuit None 2 2
               ((HGate <$> seq 0 2) ++ ((fun q => MeasureOp q q) <$> seq 0 2)))).
Proof.
  apply (negative_rounds_build_no_round 2 [1%Z] (-1)). lia.
Defined.

(** * Further properties of the builders *)

(** ** [phase_oracle] on every list of integers *)

Lemma np_index_wrap (N : nat) (i : Z) :
  (- Z.of_nat N ≤ i < Z.of_nat N)%Z →
  np_index N i = Ok (Z.to_nat (i mod Z.of_nat N)).
Proof.
  intros Hi. unfold np_index. destruct (decide (0 ≤ i < Z.of_nat N)%Z) as [Hp|Hn].
  - by rewrite Z.mod_small.
  - rewrite decide_True by lia. do 2 f_equal.
    apply (Z.mod_unique i (Z.of_nat N) (-1)); lia.
Qed.

Lemma alter_insert_diag d N (a : nat) :
  (a < N)%nat →
  alter (fun row : list R => <[a := -1]> row) a (diag d N) =
  diag (fun k => if (k =? a)%nat then -1 else d k) N.
Proof.
  intros Ha. apply list_eq. intros k.
  destruct (decide (k < N)%nat) as [Hk|Hk].
  2:{ rewrite !lookup_ge_None_2; [done| |];
      rewrite ?length_alter, length_diag; lia. }
  rewrite lookup_diag by done.
  destruct (decide (k = a)) as [->|Hka].
  - rewrite list_lookup_alter_eq, lookup_diag by done. cbn [fmap option_fmap option_map].
    f_equal. apply list_eq. intros j.
    destruct (decide (j < N)%nat) as [Hj|Hj].
    2:{ rewrite !lookup_ge_None_2; [done| |];
        rewrite ?length_insert, length_fmap, length_seq; lia. }
    rewrite lookup_fmap_seq by done.
    destruct (decide (j = a)) as [->|Hja].
    + rewrite list_lookup_insert_eq by (rewrite length_fmap, length_seq; lia).
      by rewrite Nat.eqb_refl.
    + rewrite list_lookup_insert_ne, lookup_fmap_seq by done.
      destruct (a =? j)%nat eqn:E; [apply Nat.eqb_eq in E; lia|done].
  - rewrite list_lookup_alter_ne, lookup_diag by done.
    by apply Nat.eqb_neq in Hka as ->.
Qed.

(** Writing -1 at the diagonal cell an accepted index designates. *)
Lemma np_setitem_diag_wrap d N (i : Z) :
  (- Z.of_nat N ≤ i < Z.of_nat N)%Z →
  np_setitem (diag d N) i i (-1) =
  Ok (diag (fun k => if (k =? Z.to_nat (i mod Z.of_nat N))%nat then -1 else d k) N).
Proof.
  intros Hi. unfold np_setitem.
  assert (0 ≤ i mod Z.of_nat N < Z.of_nat N)%Z as Hmod by (apply Z.mod_pos_bound; lia).
  rewrite length_diag, lookup_diag by lia. cbv [default from_option Datatypes.id].
  rewrite length_fmap, length_seq, !(np_index_wrap N i) by done.
  cbn [mbind result_bind]. f_equal. apply alter_insert_diag. lia.
Qed.

Lemma np_setitem_diag_raises d N (i : Z) :
  (i < - Z.of_nat N ∨ Z.of_nat N ≤ i)%Z →
  np_setitem (diag d N) i i (-1) = Raise (index_error i).
Proof.
  intros Hi. unfold np_setitem. rewrite length_diag, (np_index_out_of_range N i) by done.
  done.
Qed.

(** The marking loop on accepted indices. *)
Lemma mark_loop_wrap N (marks : list Z) : ∀ d,
  Forall (fun i => - Z.of_nat N ≤ i < Z.of_nat N)%Z marks →
  for_loop (fun m index_to_mark => np_setitem m index_to_mark index_to_mark (-1))
    marks (diag d N) =
  Ok (diag (fun k =>
              if decide (Z.of_nat k ∈ (fun i => i mod Z.of_nat N)%Z <$> marks)
              then -1 else d k) N).
Proof.
  induction marks as [|i marks IH]; intros d Hm; [done|].
  apply Forall_cons in Hm as [Hi Hm]. cbn [for_loop].
  rewrite np_setitem_diag_wrap by done. cbn [mbind result_bind].
  rewrite IH by done. f_equal. apply diag_ext. intros k Hk.
  assert (0 ≤ i mod Z.of_nat N < Z.of_nat N)%Z as Hmod by (apply Z.mod_pos_bound; lia).
  rewrite fmap_cons.
  destruct (k =? Z.to_nat (i mod Z.of_nat N))%nat eqn:E.
  - apply Nat.eqb_eq in E.
    rewrite (decide_True (P := Z.of_nat k ∈ _ :: _))
      by (apply elem_of_cons; left; lia).
    by destruct (decide _).
  - apply Nat.eqb_neq in E. apply decide_ext.
    rewrite elem_of_cons. split; [tauto|]. intros [?|?]; [lia|done].
Qed.

(** The first index out of bounds. *)
Lemma first_rejected_None n marks :
  first_rejected n marks = None ↔ in_bounds n marks.
Proof.
  unfold in_bounds. induction marks as [|i marks IH]; [done|].
  cbn [first_rejected]. rewrite Forall_cons. destruct (decide _) as [Hi|Hi].
  - rewrite IH. tauto.
  - split; [done|]. intros [? _]. done.
Qed.

Lemma first_rejected_Some n marks i :
  first_rejected n marks = Some i →
  ∃ pre post, marks = pre ++ i :: post ∧ in_bounds n pre ∧
              (i < - 2 ^ Z.of_nat n ∨ 2 ^ Z.of_nat n ≤ i)%Z.
Proof.
  induction marks as [|j marks IH]; [done|].
  cbn [first_rejected]. destruct (decide _) as [Hj|Hj].
  - intros (pre & post & -> & Hpre & Hi)%IH.
    exists (j :: pre), post. split_and!; [done| |done].
    by apply Forall_cons.
  - intros [= ->]. exists [], marks. split_and!; [done|apply Forall_nil_2|lia].
Qed.

Lemma first_rejected_app n pre i post :
  in_bounds n pre → (i < - 2 ^ Z.of_nat n ∨ 2 ^ Z.of_nat n ≤ i)%Z →
  first_rejected n (pre ++ i :: post) = Some i.
Proof.
  intros Hpre Hi. induction Hpre as [|j pre Hj _ IH]; cbn [app first_rejected].
  - by rewrite decide_False by lia.
  - by rewrite decide_True.
Qed.

Lemma first_rejected_cases n marks :
  in_bounds n marks ∨ ∃ i, first_rejected n marks = Some i.
Proof.
  destruct (first_rejected n marks) as [i|] eqn:E; [right; by exists i|left].
  by apply first_rejected_None.
Qed.

(** The marking loop stops at the first index numpy refuses, with the
    exception of that index. *)
Lemma mark_loop_raises n (marks : list Z) i : ∀ d,
  first_rejected n marks = Some i →
  for_loop (fun m index_to_mark => np_setitem m index_to_mark index_to_mark (-1))
    marks (diag d (2 ^ n)) = Raise (index_error i).
Proof.
  induction marks as [|j marks IH]; intros d Hex; [done|].
  cbn [for_loop first_rejected] in *.
  destruct (decide (- 2 ^ Z.of_nat n ≤ j < 2 ^ Z.of_nat n)%Z) as [Hj|Hj].
  - rewrite np_setitem_diag_wrap by (rewrite pow2_of_nat; done).
    cbn [mbind result_bind]. by apply IH.
  - injection Hex as ->. rewrite np_setitem_diag_raises; [done|].
    rewrite pow2_of_nat. lia.
Qed.

Lemma in_bounds_pow n marks :
  in_bounds n marks →
  Forall (fun i => - Z.of_nat (2 ^ n) ≤ i < Z.of_nat (2 ^ n))%Z marks.
Proof.
  intros Hm. eapply Forall_impl; [exact Hm|]. intros i. simpl.
  by rewrite pow2_of_nat.
Qed.

Lemma phase_oracle_wrap n marks nm :
  in_bounds n marks →
  phase_oracle n marks nm =
  Ok (mkCircuit (Some nm) n 0
        [UnitaryGate (oracle_matrix n (resolved n marks)) (seq 0 n)]).
Proof.
  intros Hm. unfold phase_oracle.
  rewrite np_identity_diag, mark_loop_wrap by by apply in_bounds_pow.
  cbn [mbind result_bind]. rewrite range_nat, Operator_diag.
  unfold unitary, emit, new_circuit. cbn [name num_qubits num_clbits data app].
  do 4 f_equal. unfold oracle_matrix, resolved. apply cdiag_ext. intros k _.
  unfold oracle_sign. by rewrite pow2_of_nat.
Qed.

Lemma phase_oracle_rejects n marks nm i :
  first_rejected n marks = Some i →
  phase_oracle n marks nm = Raise (index_error i).
Proof.
  intros Hex. unfold phase_oracle.
  by rewrite np_identity_diag, (mark_loop_raises n marks i).
Qed.

Lemma oracle_matrix_ext n marks marks' :
  (∀ i : nat, (i < 2 ^ n)%nat → Z.of_nat i ∈ marks ↔ Z.of_nat i ∈ marks') →
  oracle_matrix n marks = oracle_matrix n marks'.
Proof.
  intros Hiff. unfold oracle_matrix. apply cdiag_ext. intros i Hi.
  unfold oracle_sign. apply decide_ext. by apply Hiff.
Qed.

Lemma resolved_in_range n marks : in_range n (resolved n marks).
Proof.
  unfold in_range, resolved. apply Forall_fmap, Forall_forall. intros i _. simpl.
  apply Z.mod_pos_bound. apply Z.pow_pos_nonneg; lia.
Qed.

Lemma resolved_id n marks : in_range n marks → resolved n marks = marks.
Proof.
  intros Hm. unfold resolved. rewrite <- (list_fmap_id marks) at 2.
  apply list_fmap_ext. intros k i Hi. simpl.
  unfold in_range in Hm. rewrite Forall_forall in Hm.
  apply Z.mod_small, Hm. by eapply list_elem_of_lookup_2.
Qed.

Lemma in_range_in_bounds n marks : in_range n marks → in_bounds n marks.
Proof.
  intros Hm. eapply Forall_impl; [exact Hm|]. intros i. simpl.
  assert (0 < 2 ^ Z.of_nat n)%Z by (apply Z.pow_pos_nonneg; lia). lia.
Qed.

(** ** The oracle as a transform *)

Lemma mat_vec_oracle_matrix n marked (v : list C) :
  length v = (2 ^ n)%nat →
  mat_vec (oracle_matrix n marked) v = phase_flip marked v.
Proof.
  intros Hv. unfold oracle_matrix. rewrite <- Hv, mat_vec_cdiag.
  unfold phase_flip. apply imap_ext. intros i a _. simpl.
  unfold oracle_sign. destruct (decide _); csolve.
Qed.

Lemma exec_oracle_gate_flip n marked s :
  length (sv s) = (2 ^ n)%nat →
  exec n (oracle_gate n marked) s = Some (with_sv s (phase_flip marked (sv s))).
Proof. intros Hs. by rewrite exec_oracle_gate, mat_vec_oracle_matrix. Qed.

Lemma length_phase_flip marked v : length (phase_flip marked v) = length v.
Proof. apply length_imap. Qed.

Lemma phase_flip_involutive marked v : phase_flip marked (phase_flip marked v) = v.
Proof.
  apply list_eq. intros i. unfold phase_flip. rewrite !list_lookup_imap.
  destruct (v !! i) as [a|]; [|done]. simpl. f_equal.
  destruct (decide _); [csolve|done].
Qed.

(** ** Total Born weight *)

Lemma norm2_app (u v : list C) : norm2 (u ++ v) = norm2 u + norm2 v.
Proof.
  unfold norm2. rewrite fmap_app. induction (Cnorm2 <$> u) as [|x l IH]; simpl; lra.
Qed.

Lemma norm2_cons a (v : list C) : norm2 (a :: v) = Cnorm2 a + norm2 v.
Proof. done. Qed.

Lemma norm2_butterfly : ∀ a b : list C,
  length a = length b →
  norm2 (vscal (/ sqrt 2) (vplus a b)) + norm2 (vscal (/ sqrt 2) (vminus a b)) =
  norm2 a + norm2 b.
Proof.
  induction a as [|x a IH]; intros [|y b] Hlen; simplify_eq/=; [unfold norm2; simpl; lra|].
  unfold vscal, vplus, vminus in *. rewrite !norm2_cons.
  specialize (IH b ltac:(done)).
  assert (Cnorm2 (Cscal (/ sqrt 2) (x + y)) + Cnorm2 (Cscal (/ sqrt 2) (x - y)) =
          Cnorm2 x + Cnorm2 y) as Hxy.
  { unfold Cnorm2. cunfold. pose proof sqrt2_inv_pow2 as Hs. revert Hs.
    generalize (/ sqrt 2). intros s Hs. ring_simplify. rewrite Hs. field. }
  lra.
Qed.

Lemma norm2_wht n : ∀ v : list C, length v = (2 ^ n)%nat → norm2 (wht n v) = norm2 v.
Proof.
  induction n as [|m IH]; intros v Hv; [done|].
  destruct (split_half m v Hv) as (lo & hi & -> & Hlo & Hhi). clear Hv.
  rewrite wht_app by done. rewrite !norm2_app.
  rewrite norm2_butterfly by (by rewrite !length_wht).
  by rewrite !IH.
Qed.

Lemma norm2_imap (f : nat → C → C) : ∀ v : list C,
  (∀ i a, Cnorm2 (f i a) = Cnorm2 a) → norm2 (imap f v) = norm2 v.
Proof.
  intros v. revert f. induction v as [|x v IH]; intros f Hf; [done|].
  rewrite imap_cons, !norm2_cons, Hf. f_equal. apply IH. intros i a. apply Hf.
Qed.

Lemma Cnorm2_opp a : Cnorm2 (- a)%C = Cnorm2 a.
Proof. unfold Cnorm2. cunfold. ring. Qed.

Lemma norm2_phase_flip marked v : norm2 (phase_flip marked v) = norm2 v.
Proof.
  apply norm2_imap. intros i a. destruct (decide _); [apply Cnorm2_opp|done].
Qed.

Lemma norm2_flip0 v : norm2 (flip0 v) = norm2 v.
Proof. destruct v as [|a v]; [done|]. simpl. by rewrite !norm2_cons, Cnorm2_opp. Qed.

Lemma diffusion_wht n (v : list C) :
  length v = (2 ^ n)%nat → diffusion v = wht n (flip0 (wht n v)).
Proof. intros Hv. by rewrite wht_flip0_wht, (diffusion_closed_form n). Qed.

Lemma norm2_diffusion n (v : list C) :
  length v = (2 ^ n)%nat → norm2 (diffusion v) = norm2 v.
Proof.
  intros Hv. rewrite (diffusion_wht n) by done.
  rewrite norm2_wht by (by rewrite length_flip0, length_wht).
  by rewrite norm2_flip0, norm2_wht.
Qed.

Lemma norm2_basis N i : (i < N)%nat → norm2 (basis N i) = 1.
Proof.
  intros Hi. unfold basis.
  assert (∀ s len, norm2 ((fun j => if (i =? j)%nat then C1 else C0) <$> seq s len) =
                   if decide (s ≤ i < s + len)%nat then 1 else 0) as H.
  { intros s len. revert s. induction len as [|len IH]; intros s.
    - simpl. by rewrite decide_False by lia.
    - cbn [seq]. rewrite fmap_cons, norm2_cons, IH.
      destruct (i =? s)%nat eqn:E.
      + apply Nat.eqb_eq in E as ->.
        rewrite decide_False, decide_True by lia. unfold Cnorm2. cunfold. lra.
      + apply Nat.eqb_neq in E. unfold Cnorm2. cunfold.
        destruct (decide (S s ≤ i < S s + len)%nat).
        * rewrite decide_True by lia. lra.
        * rewrite decide_False by lia. lra. }
  rewrite H. by rewrite decide_True by lia.
Qed.

(** ** The uniform superposition *)

Lemma basis_0_S m :
  basis (2 ^ S m) 0 = basis (2 ^ m) 0 ++ replicate (2 ^ m) C0.
Proof.
  unfold basis. replace (2 ^ S m)%nat with (2 ^ m + 2 ^ m)%nat by (simpl; lia).
  rewrite seq_app, fmap_app. f_equal. cbn [Nat.add].
  pose proof (pow2_pos m) as Hp. revert Hp. generalize (2 ^ m)%nat at 1 2 as s.
  generalize (2 ^ m)%nat as len. intros len. induction len as [|len IH]; intros s Hs; [done|].
  cbn [seq replicate]. rewrite fmap_cons, IH by lia.
  by destruct s; [lia|].
Qed.

Lemma vscal_0 (v : list C) : vscal 0 v = replicate (length v) C0.
Proof.
  induction v as [|a v IH]; [done|]. unfold vscal in *. rewrite fmap_cons, IH.
  cbn [length replicate]. f_equal. csolve.
Qed.

Lemma wht_zero n : wht n (replicate (2 ^ n) C0) = replicate (2 ^ n) C0.
Proof.
  rewrite <- (length_replicate (2 ^ n) C0) at 1. rewrite <- vscal_0.
  rewrite wht_vscal by apply length_replicate.
  by rewrite vscal_0, length_wht by apply length_replicate.
Qed.

Lemma wht_basis_0 n :
  wht n (basis (2 ^ n) 0) = replicate (2 ^ n) (RtoC ((/ sqrt 2) ^ n)).
Proof.
  induction n as [|m IH]; [reflexivity|].
  rewrite basis_0_S, wht_app by apply length_basis.
  rewrite IH, wht_zero. unfold vscal, vplus, vminus.
  rewrite !zip_with_replicate, !fmap_replicate.
  replace (2 ^ S m)%nat with (2 ^ m + 2 ^ m)%nat by (simpl; lia).
  rewrite replicate_add. f_equal; f_equal; simpl pow; csolve.
Qed.

Lemma exec_h_gates_init n c rnd :
  exec_list n (h_gates n) (init n c rnd) =
  Some (with_sv (init n c rnd) (replicate (2 ^ n) (RtoC ((/ sqrt 2) ^ n)))).
Proof.
  unfold h_gates. rewrite exec_h_layer by apply length_basis.
  by rewrite <- wht_basis_0.
Qed.

Lemma Cnorm2_uniform n : Cnorm2 (RtoC ((/ sqrt 2) ^ n)) = / 2 ^ n.
Proof.
  unfold Cnorm2. cunfold. rewrite Rmult_0_l, Rplus_0_r.
  rewrite <- Rpow_mult_distr, sqrt2_inv_sq. by rewrite pow_inv.
Qed.

(** ** Rounds on two amplitudes *)

Lemma length_amps marked N a b : length (amps marked N a b) = N.
Proof. unfold amps. by rewrite length_fmap, length_seq. Qed.

Lemma amps_uniform marked N a : amps marked N a a = replicate N a.
Proof.
  unfold amps. generalize 0%nat. induction N as [|N IH]; intros s; [done|].
  cbn [seq replicate]. rewrite fmap_cons, IH. by destruct (decide _).
Qed.

Lemma lookup_amps marked N a b i :
  (i < N)%nat →
  amps marked N a b !! i = Some (if decide (Z.of_nat i ∈ marked) then a else b).
Proof. intros Hi. unfold amps. by rewrite lookup_fmap_seq. Qed.

Lemma phase_flip_amps marked N a b :
  phase_flip marked (amps marked N a b) = amps marked N (- a)%C b.
Proof.
  apply list_eq. intros i. unfold phase_flip. rewrite list_lookup_imap.
  destruct (decide (i < N)%nat) as [Hi|Hi].
  - rewrite !lookup_amps by done. simpl. by destruct (decide _).
  - by rewrite !lookup_ge_None_2 by (rewrite length_amps; lia).
Qed.

Lemma Csum_two_level {A} (P : A → Prop) `{!∀ x, Decision (P x)} (a b : C) (l : list A) :
  Csum ((fun x => if decide (P x) then a else b) <$> l) =
  (Cscal (INR (length (filter P l))) a
   + Cscal (INR (length (filter (fun x => ¬ P x) l))) b)%C.
Proof.
  induction l as [|x l IH]; [simpl; csolve|].
  rewrite fmap_cons, !filter_cons.
  change (Csum (?y :: ?t)) with (y + Csum t)%C. rewrite IH.
  destruct (decide (P x)), (decide (¬ P x)); try tauto;
    cbn [length]; rewrite S_INR; csolve.
Qed.

Lemma Csum_amps n marked a b :
  NoDup marked → in_range n marked →
  Csum (amps marked (2 ^ n) a b) =
  (Cscal (INR (length marked)) a + Cscal (INR (2 ^ n - length marked)) b)%C.
Proof.
  intros Hnd Hm. unfold amps.
  rewrite (Csum_two_level (fun i : nat => Z.of_nat i ∈ marked)).
  pose proof (length_filter_compl (fun i : nat => Z.of_nat i ∈ marked) (seq 0 (2 ^ n)))
    as Hc.
  rewrite (length_filter_marked n marked Hnd Hm), length_seq in Hc.
  rewrite (length_filter_marked n marked Hnd Hm).
  do 3 f_equal. lia.
Qed.

Lemma diffusion_amps n marked a b :
  diffusion (amps marked (2 ^ n) a b) =
  amps marked (2 ^ n)
    (a - Cscal 2 (mean (amps marked (2 ^ n) a b)))%C
    (b - Cscal 2 (mean (amps marked (2 ^ n) a b)))%C.
Proof.
  unfold diffusion. generalize (mean (amps marked (2 ^ n) a b)). intros m.
  unfold amps. rewrite <- list_fmap_compose. apply list_fmap_ext.
  intros _ i _. simpl. by destruct (decide _).
Qed.

(** One round (oracle, then diffuser) on a two-amplitude state. *)
Lemma exec_round_amps n marked s a b :
  NoDup marked → in_range n marked →
  sv s = amps marked (2 ^ n) a b →
  exec_list n [oracle_gate n marked; diffuser_gate n] s =
  Some (with_sv s (amps marked (2 ^ n)
                     (fst (grover_step (2 ^ n) (length marked) (a, b)))
                     (snd (grover_step (2 ^ n) (length marked) (a, b))))).
Proof.
  intros Hnd Hm Hs. cbn [exec_list].
  rewrite exec_oracle_gate_flip by (by rewrite Hs, length_amps).
  rewrite exec_diffuser_gate
    by (cbn [sv with_sv]; by rewrite length_phase_flip, Hs, length_amps).
  cbn [sv with_sv]. rewrite Hs, phase_flip_amps, diffusion_amps.
  unfold mean. rewrite length_amps, Csum_amps by done.
  rewrite with_sv_with_sv. done.
Qed.

Lemma concat_replicate_S {A} (l : list A) r :
  concat (replicate (S r) l) = l ++ concat (replicate r l).
Proof. done. Qed.

(** [r] rounds iterate [grover_step]. *)
Lemma exec_rounds_amps n marked r : ∀ s a b,
  NoDup marked → in_range n marked →
  sv s = amps marked (2 ^ n) a b →
  exec_list n (concat (replicate r [oracle_gate n marked; diffuser_gate n])) s =
  Some (with_sv s (amps marked (2 ^ n)
                     (fst (Nat.iter r (grover_step (2 ^ n) (length marked)) (a, b)))
                     (snd (Nat.iter r (grover_step (2 ^ n) (length marked)) (a, b))))).
Proof.
  induction r as [|r IH]; intros s a b Hnd Hm Hs.
  - simpl. rewrite <- Hs. by rewrite with_sv_id.
  - rewrite concat_replicate_S, exec_list_app, (exec_round_amps n marked s a b) by done.
    cbn [mbind option_bind].
    erewrite IH; [|done|done|reflexivity]. rewrite with_sv_with_sv.
    rewrite Nat.iter_succ_r. by rewrite <- surjective_pairing.
Qed.

(** The amplitudes of [Grover_Step_II] after [r] rounds, from the uniform
    superposition. *)
Lemma run_rounds_amps n marked (r c : nat) rnd :
  NoDup marked → in_range n marked →
  exec_list n
    (h_gates n ++ concat (replicate r [oracle_gate n marked; diffuser_gate n]))
    (init n c rnd) =
  Some (with_sv (init n c rnd)
          (amps marked (2 ^ n)
             (fst (Nat.iter r (grover_step (2 ^ n) (length marked))
                     (RtoC ((/ sqrt 2) ^ n), RtoC ((/ sqrt 2) ^ n))))
             (snd (Nat.iter r (grover_step (2 ^ n) (length marked))
                     (RtoC ((/ sqrt 2) ^ n), RtoC ((/ sqrt 2) ^ n)))))).
Proof.
  intros Hnd Hm. rewrite exec_list_app, exec_h_gates_init. cbn [mbind option_bind].
  rewrite (exec_rounds_amps n marked r _ (RtoC ((/ sqrt 2) ^ n)) (RtoC ((/ sqrt 2) ^ n)))
    by (done || by rewrite amps_uniform).
  by rewrite with_sv_with_sv.
Qed.

(** ** Special proportions of marked indices *)

Lemma grover_step_quarter (N k : nat) (x : R) :
  (4 * k = N)%nat → (0 < k)%nat →
  grover_step N k (RtoC x, RtoC x) = (RtoC (-2 * x), RtoC 0).
Proof.
  intros HN Hk. unfold grover_step. cbn [fst snd].
  rewrite minus_INR by lia. rewrite <- HN, mult_INR.
  assert (INR k ≠ 0) by (apply not_0_INR; lia).
  change (INR 4) with (INR (2 * 2)). rewrite mult_INR. change (INR 2) with 2.
  f_equal; apply C_eq; cunfold; field; lra.
Qed.

Lemma grover_step_half (N k : nat) (a b : C) :
  (2 * k = N)%nat → (0 < k)%nat →
  grover_step N k (a, b) = ((- b)%C, a).
Proof.
  intros HN Hk. unfold grover_step. cbn [fst snd].
  rewrite minus_INR by lia. rewrite <- HN, mult_INR.
  assert (INR k ≠ 0) by (apply not_0_INR; lia). change (INR 2) with 2.
  f_equal; apply C_eq; cunfold; field; lra.
Qed.

Lemma grover_iter_half (N k r : nat) (a b : C) (w : R) :
  (2 * k = N)%nat → (0 < k)%nat →
  Cnorm2 a = w → Cnorm2 b = w →
  Cnorm2 (fst (Nat.iter r (grover_step N k) (a, b))) = w ∧
  Cnorm2 (snd (Nat.iter r (grover_step N k) (a, b))) = w.
Proof.
  intros HN Hk Ha Hb. induction r as [|r [IHa IHb]]; [done|].
  rewrite Nat.iter_succ.
  rewrite (surjective_pairing (Nat.iter r (grover_step N k) (a, b))).
  rewrite grover_step_half by done. cbn [fst snd]. by rewrite Cnorm2_opp.
Qed.

Lemma lookup_total_amps marked N a b i :
  (i < N)%nat →
  amps marked N a b !!! i = if decide (Z.of_nat i ∈ marked) then a else b.
Proof. intros Hi. apply list_lookup_total_correct. by apply lookup_amps. Qed.

(** ** Total Born weight along the rounds *)

Lemma rounds_keep_norm n marked (r : nat) : ∀ s,
  length (sv s) = (2 ^ n)%nat →
  ∃ v, exec_list n (concat (replicate r [oracle_gate n marked; diffuser_gate n])) s =
       Some (with_sv s v) ∧
       length v = (2 ^ n)%nat ∧ norm2 v = norm2 (sv s).
Proof.
  induction r as [|r IH]; intros s Hs.
  - exists (sv s). by rewrite with_sv_id.
  - rewrite concat_replicate_S, exec_list_app. cbn [app exec_list].
    rewrite exec_oracle_gate_flip by done.
    rewrite exec_diffuser_gate by (cbn [sv with_sv]; by rewrite length_phase_flip).
    cbn [mbind option_bind sv with_sv]. rewrite with_sv_with_sv.
    destruct (IH (with_sv s (diffusion (phase_flip marked (sv s)))))
      as (v & Hv & Hlen & Hnorm).
    { cbn [sv with_sv]. by rewrite length_diffusion, length_phase_flip. }
    exists v. rewrite Hv, with_sv_with_sv. split_and!; [done|done|].
    rewrite Hnorm. cbn [sv with_sv].
    rewrite (norm2_diffusion n) by (by rewrite length_phase_flip).
    apply norm2_phase_flip.
Qed.

Lemma norm2_replicate N (a : C) : norm2 (replicate N a) = INR N * Cnorm2 a.
Proof.
  induction N as [|N IH]; [simpl; unfold norm2; simpl; lra|].
  rewrite replicate_S, norm2_cons, IH, S_INR. lra.
Qed.

Lemma norm2_uniform n : norm2 (replicate (2 ^ n) (RtoC ((/ sqrt 2) ^ n))) = 1.
Proof.
  rewrite norm2_replicate, INR_pow2_nat.
  unfold Cnorm2. cunfold. rewrite Rmult_0_l, Rplus_0_r.
  rewrite <- Rpow_mult_distr, sqrt2_inv_sq, pow_inv.
  field. apply pow2_nonzero.
Qed.

Lemma run_rounds_norm n marked (r c : nat) rnd :
  ∃ v, exec_list n
         (h_gates n ++ concat (replicate r [oracle_gate n marked; diffuser_gate n]))
         (init n c rnd) = Some (with_sv (init n c rnd) v) ∧
       length v = (2 ^ n)%nat ∧ norm2 v = 1.
Proof.
  rewrite exec_list_app, exec_h_gates_init. cbn [mbind option_bind].
  destruct (rounds_keep_norm n marked r
              (with_sv (init n c rnd) (replicate (2 ^ n) (RtoC ((/ sqrt 2) ^ n)))))
    as (v & Hv & Hlen & Hnorm).
  { cbn [sv with_sv]. apply length_replicate. }
  exists v. rewrite Hv, with_sv_with_sv. split_and!; [done|done|].
  rewrite Hnorm. cbn [sv with_sv]. apply norm2_uniform.
Qed.

(** ** The round loop on every marked list *)

Lemma round_wrap n marked qc (k : nat) :
  in_bounds n marked →
  round n marked qc k =
  Ok (emit qc [oracle_gate n (resolved n marked); diffuser_gate n]).
Proof.
  intros Hm. unfold round.
  rewrite phase_oracle_wrap by done. cbn [mbind result_bind].
  rewrite diffuser_circuit. cbn [mbind result_bind]. rewrite range_nat.
  unfold append. cbn [name num_qubits data]. by rewrite emit_emit.
Qed.

Lemma round_raises n marked qc (k : nat) e :
  phase_oracle n marked "Oracle" = Raise e →
  round n marked qc k = Raise e.
Proof. intros Hex. unfold round. by rewrite Hex. Qed.

Lemma rounds_loop_wrap n marked (its : list nat) qc :
  in_bounds n marked →
  for_loop (round n marked) its qc =
  Ok (emit qc (concat (replicate (length its)
                         [oracle_gate n (resolved n marked); diffuser_gate n]))).
Proof.
  intros Hm. rewrite <- for_loop_emit. apply for_loop_ext. intros s k.
  by apply round_wrap.
Qed.

Lemma rounds_loop_raises n marked (its : list nat) qc e :
  phase_oracle n marked "Oracle" = Raise e →
  its ≠ [] →
  for_loop (round n marked) its qc = Raise e.
Proof.
  intros Hex Hne. destruct its as [|k its]; [done|].
  cbn [for_loop]. by rewrite (round_raises n marked qc k e).
Qed.

Lemma in_bounds_or_not n (marked : list Z) :
  in_bounds n marked ∨
  Exists (fun i => i < - 2 ^ Z.of_nat n ∨ 2 ^ Z.of_nat n ≤ i)%Z marked.
Proof.
  unfold in_bounds.
  destruct (decide (Forall (fun i => - 2 ^ Z.of_nat n ≤ i < 2 ^ Z.of_nat n)%Z marked))
    as [?|Hn]; [by left|right].
  apply not_Forall_Exists in Hn; [|apply _].
  eapply Exists_impl; [exact Hn|]. intros i. simpl. lia.
Qed.

(** The instructions the round loop adds do not depend on the circuit it
    extends. *)
Lemma rounds_loop_shape n marked (its : list nat) :
  ∃ res : result (list instruction),
    ∀ qc, for_loop (round n marked) its qc = (ops ← res; Ok (emit qc ops)).
Proof.
  destruct (first_rejected_cases n marked) as [Hm|[i Hex]].
  - eexists (Ok _). intros qc. by rewrite rounds_loop_wrap.
  - destruct its as [|k its].
    + exists (Ok []). intros qc. simpl. by rewrite emit_nil.
    + exists (Raise (index_error i)). intros qc.
      by rewrite (rounds_loop_raises n marked _ qc (index_error i))
        by (done || by apply phase_oracle_rejects).
Qed.

(** ** Bounds on the computed round count *)

Lemma PI_gt_2_89 : 2.89 < PI.
Proof.
  destruct (PI_ineq 1) as [H _].
  unfold sum_f_R0, tg_alt, PI_tg in H. simpl in H. lra.
Qed.

Lemma sqrt2_lt : sqrt 2 < 1.415.
Proof.
  apply Rsqr_incrst_0; [|apply sqrt_pos|lra].
  rewrite Rsqr_sqrt by lra. unfold Rsqr. lra.
Qed.

Lemma ratio_pos (n k : nat) : (0 < k)%nat → 0 < 2 ^ n / INR k.
Proof.
  intros Hk. apply Rdiv_lt_0_compat; [apply pow_lt; lra|].
  apply lt_0_INR. lia.
Qed.

Lemma optimal_rounds_sq_lt (n k : nat) :
  (0 < k)%nat →
  (Z.of_nat k * (optimal_rounds n k * optimal_rounds n k) < 2 ^ Z.of_nat n)%Z.
Proof.
  intros Hk. pose proof (ratio_pos n k Hk) as Hq.
  pose proof (optimal_rounds_bound n k) as [Hle _].
  pose proof (optimal_rounds_nonneg n k) as Hr0. apply IZR_le in Hr0.
  pose proof (sqrt_sqrt (2 ^ n / INR k) ltac:(lra)) as Hsq.
  pose proof (sqrt_lt_R0 _ Hq) as Hs.
  pose proof PI_RGT_0. pose proof PI_lt_4.
  assert (0 < INR k) as HkR by (apply lt_0_INR; lia).
  apply lt_IZR. rewrite !mult_IZR, INR_pow2, <- INR_IZR_INZ.
  set (r := IZR (optimal_rounds n k)) in *. set (t := sqrt (2 ^ n / INR k)) in *.
  assert (r < t) as Hrt by nra.
  assert (r * r < t * t) as Hrr by nra.
  rewrite Hsq in Hrr.
  apply (Rmult_lt_compat_l (INR k)) in Hrr; [|done].
  replace (INR k * (2 ^ n / INR k)) with (2 ^ n) in Hrr by (field; lra).
  done.
Qed.

Lemma optimal_rounds_positive (n k : nat) :
  (0 < k)%nat → (2 * k ≤ 2 ^ n)%nat → (1 ≤ optimal_rounds n k)%Z.
Proof.
  intros Hk Hhalf. apply Zfloor_lub.
  assert (0 < INR k) as HkR by (apply lt_0_INR; lia).
  assert (2 <= 2 ^ n / INR k) as Hq.
  { apply le_INR in Hhalf. rewrite mult_INR, INR_pow2_nat in Hhalf.
    change (INR 2) with 2 in Hhalf.
    apply (Rmult_le_reg_r (INR k)); [done|].
    replace (2 ^ n / INR k * INR k) with (2 ^ n) by (field; lra). done. }
  pose proof (sqrt_le_1_alt _ _ Hq) as Hs.
  pose proof (sqrt_sqrt 2 ltac:(lra)) as Hs2.
  pose proof (sqrt_pos 2). pose proof sqrt2_lt. pose proof PI_gt_2_89.
  assert (1.414 < sqrt 2) by nra.
  nra.
Qed.

Lemma optimal_rounds_antitone (n k k' : nat) :
  (0 < k)%nat → (k ≤ k')%nat → (optimal_rounds n k' ≤ optimal_rounds n k)%Z.
Proof.
  intros Hk Hkk. apply Zfloor_le.
  pose proof PI_RGT_0.
  apply Rmult_le_compat_l; [lra|]. apply sqrt_le_1_alt.
  assert (0 < INR k) by (apply lt_0_INR; lia).
  assert (INR k <= INR k') by (apply le_INR; lia).
  apply Rmult_le_compat_l; [apply pow_le; lra|].
  apply Rinv_le_contravar; done.
Qed.

Lemma optimal_rounds_monotone (n n' k : nat) :
  (0 < k)%nat → (n ≤ n')%nat → (optimal_rounds n k ≤ optimal_rounds n' k)%Z.
Proof.
  intros Hk Hnn. apply Zfloor_le.
  pose proof PI_RGT_0.
  apply Rmult_le_compat_l; [lra|]. apply sqrt_le_1_alt.
  assert (0 < INR k) by (apply lt_0_INR; lia).
  apply Rmult_le_compat_r; [left; by apply Rinv_0_lt_compat|].
  apply Rle_pow; [lra|done].
Qed.

(** ** Measuring every qubit *)

Lemma Cnorm2_nonneg a : 0 <= Cnorm2 a.
Proof. unfold Cnorm2. nra. Qed.

Lemma norm2_nonneg (v : list C) : 0 <= norm2 v.
Proof.
  induction v as [|a v IH]; [unfold norm2; simpl; lra|].
  rewrite norm2_cons. pose proof (Cnorm2_nonneg a). lra.
Qed.

Lemma norm2_vscal r (v : list C) : norm2 (vscal r v) = r * r * norm2 v.
Proof.
  induction v as [|a v IH]; [unfold norm2; simpl; lra|].
  unfold vscal in *. rewrite fmap_cons, !norm2_cons, IH.
  unfold Cnorm2. cunfold. ring.
Qed.

Lemma Cscal_0 a : Cscal 0 a = C0.
Proof. csolve. Qed.

Lemma norm2_zero_entries (v : list C) : Forall (fun a => a = C0) v → norm2 v = 0.
Proof.
  induction 1 as [|a v -> _ IH]; [done|].
  rewrite norm2_cons, IH. unfold Cnorm2. cunfold. lra.
Qed.

Lemma norm2_pos_entry (v : list C) :
  0 < norm2 v → ∃ i, (i < length v)%nat ∧ v !!! i ≠ C0.
Proof.
  intros Hpos.
  destruct (decide (Forall (fun a => a = C0) v)) as [Hall|Hn].
  - rewrite norm2_zero_entries in Hpos by done. lra.
  - apply not_Forall_Exists in Hn; [|apply _].
    apply Exists_exists in Hn as (a & Ha & Hne).
    apply list_elem_of_lookup in Ha as [i Hi]. exists i. split.
    + by eapply lookup_lt_Some.
    + by rewrite (list_lookup_total_correct _ _ _ Hi).
Qed.

Lemma norm2_project_split (n q : nat) : ∀ v : list C,
  length v = (2 ^ n)%nat → (q < n)%nat →
  norm2 (project n q false v) + norm2 (project n q true v) = norm2 v.
Proof.
  induction n as [|m IH]; intros v Hv Hq; [lia|].
  destruct (split_half m v Hv) as (lo & hi & -> & Hlo & Hhi). clear Hv.
  simpl project. rewrite take_app_length', drop_app_length' by done.
  destruct (q =? m)%nat eqn:E.
  - rewrite !norm2_app, !norm2_vscal. lra.
  - apply Nat.eqb_neq in E. rewrite !norm2_app.
    rewrite <- (IH lo), <- (IH hi) by (done || lia). lra.
Qed.

Lemma lookup_total_vscal r (v : list C) i :
  (i < length v)%nat → vscal r v !!! i = Cscal r (v !!! i).
Proof. intros Hi. unfold vscal. by rewrite (list_lookup_total_fmap (Cscal r) v i). Qed.

Lemma Cscal_nonzero r a : Cscal r a ≠ C0 → a ≠ C0.
Proof. intros Hne ->. apply Hne. csolve. Qed.

Lemma inv_sqrt_sq p : 0 < p → / sqrt p * / sqrt p * p = 1.
Proof.
  intros Hp. pose proof (sqrt_lt_R0 p Hp). pose proof (sqrt_sqrt p ltac:(lra)) as Hs.
  rewrite <- Hs at 3. field. lra.
Qed.

(** One measurement of a normalised state: it succeeds, the state stays
    normalised, and what is left has non-zero amplitude only where the
    state had, at indices whose bit [q] is the outcome. *)
Lemma exec_measure_step n q c s u rest :
  length (sv s) = (2 ^ n)%nat → norm2 (sv s) = 1 → (q < n)%nat →
  tape s = u :: rest → 0 <= u < 1 →
  ∃ (b : bool) (w : list C),
    exec_measure n q c s = Some (mkMachine w (<[c := b]> (clbits s)) rest) ∧
    length w = (2 ^ n)%nat ∧ norm2 w = 1 ∧
    ∀ i, (i < 2 ^ n)%nat → w !!! i ≠ C0 → sv s !!! i ≠ C0 ∧ Nat.testbit i q = b.
Proof.
  intros Hlen Hnorm Hq Htape Hu. unfold exec_measure. rewrite Htape.
  pose proof (norm2_project_split n q (sv s) Hlen Hq) as Hsplit.
  pose proof (norm2_nonneg (project n q false (sv s))) as H0.
  pose proof (norm2_nonneg (project n q true (sv s))) as H1.
  set (b := if Rlt_dec u (norm2 (project n q false (sv s))) then false else true).
  assert (0 < norm2 (project n q b (sv s))) as Hpos.
  { unfold b. destruct (Rlt_dec u _); lra. }
  exists b, (vscal (/ sqrt (norm2 (project n q b (sv s)))) (project n q b (sv s))).
  split_and!.
  - done.
  - by rewrite length_vscal, length_project.
  - rewrite norm2_vscal. by apply inv_sqrt_sq.
  - intros i Hi Hne.
    rewrite lookup_total_vscal in Hne by (by rewrite length_project).
    apply Cscal_nonzero in Hne. rewrite project_lookup in Hne by done.
    destruct (Bool.eqb (Nat.testbit i q) b) eqn:E.
    + apply Bool.eqb_prop in E. done.
    + by rewrite Cscal_0 in Hne.
Qed.

(** Measuring qubits [0 .. q-1] in turn. *)
Lemma exec_measure_prefix n (q : nat) : ∀ s,
  (q ≤ n)%nat →
  length (sv s) = (2 ^ n)%nat → norm2 (sv s) = 1 →
  length (clbits s) = n → (q ≤ length (tape s))%nat →
  Forall (fun u => 0 <= u < 1) (tape s) →
  ∃ (w : list C) (cl : list bool),
    exec_list n ((fun j => MeasureOp j j) <$> seq 0 q) s =
      Some (mkMachine w cl (drop q (tape s))) ∧
    length w = (2 ^ n)%nat ∧ norm2 w = 1 ∧ length cl = n ∧
    ∀ i, (i < 2 ^ n)%nat → w !!! i ≠ C0 →
      sv s !!! i ≠ C0 ∧ ∀ j, (j < q)%nat → cl !!! j = Nat.testbit i j.
Proof.
  induction q as [|q IH]; intros s Hq Hlen Hnorm Hcl Htape Hrnd.
  - exists (sv s), (clbits s). simpl. rewrite drop_0. split_and!; try done.
    + by destruct s.
    + intros i _ Hne. split; [done|]. intros j Hj. lia.
  - destruct (IH s) as (w & cl & Hrun & Hw & Hwn & Hcll & Hsupp); try done; try lia.
    rewrite seq_S, fmap_app, exec_list_app, Hrun. cbn [mbind option_bind].
    cbn [Nat.add fmap list_fmap exec_list exec clbits].
    rewrite decide_True by lia.
    destruct (drop q (tape s)) as [|u rest] eqn:Hdrop.
    { apply (f_equal length) in Hdrop. rewrite length_drop in Hdrop. simpl in Hdrop. lia. }
    assert (0 <= u < 1) as Hu.
    { rewrite Forall_forall in Hrnd. apply Hrnd.
      apply (list_elem_of_lookup_2 _ q). rewrite <- (Nat.add_0_r q).
      rewrite <- lookup_drop, Hdrop. done. }
    destruct (exec_measure_step n q q (mkMachine w cl (u :: rest)) u rest)
      as (b & w' & Hstep & Hw' & Hwn' & Hsupp'); try done.
    rewrite Hstep. cbn [clbits].
    exists w', (<[q := b]> cl). split_and!; try done.
    + do 2 f_equal.
      replace (drop (S q) (tape s)) with (drop 1 (drop q (tape s)))
        by (rewrite drop_drop; f_equal; lia).
      by rewrite Hdrop.
    + by rewrite length_insert.
    + intros i Hi Hne. destruct (Hsupp' i Hi Hne) as [Hwi Hb].
      cbn [sv] in Hwi. destruct (Hsupp i Hi Hwi) as [Hsi Hbits].
      split; [done|]. intros j Hj.
      destruct (decide (j = q)) as [->|Hjq].
      * rewrite list_lookup_total_insert_eq by lia. done.
      * rewrite list_lookup_total_insert_ne by done. apply Hbits. lia.
Qed.

(** ** The drivers on every marked list *)

Lemma length_resolved n marked : length (resolved n marked) = length marked.
Proof. unfold resolved. apply length_fmap. Qed.

Lemma oracle_loop_wrap n marked (its : list nat) qc :
  in_bounds n marked →
  for_loop (fun qc (_ : nat) =>
              oracle ← phase_oracle n marked "Oracle";
              Ok (append qc oracle (range n))) its qc =
  Ok (emit qc (concat (replicate (length its) [oracle_gate n (resolved n marked)]))).
Proof.
  intros Hm. rewrite <- for_loop_emit. apply for_loop_ext. intros s _.
  rewrite phase_oracle_wrap by done. cbn [mbind result_bind].
  by rewrite range_nat.
Qed.

Lemma Grover_Step_I_wrap n marked r :
  r ≠ 0%Z → in_bounds n marked →
  Grover_Step_I n marked (Some r) =
  ([], Ok (mkCircuit None n 0
             (h_gates n
              ++ concat (replicate (Z.to_nat r) [oracle_gate n (resolved n marked)])))).
Proof.
  intros Hr Hm. unfold Grover_Step_I. cbn [default from_option].
  rewrite determine_r_explicit by done. cbn [mbind py_bind].
  rewrite oracle_loop_wrap by done. unfold quiet. cbn [mbind py_bind mret py_ret].
  rewrite length_range, range_nat. unfold h, new_circuit. by rewrite emit_emit.
Qed.

Lemma Grover_Step_II_wrap n marked r :
  r ≠ 0%Z → in_bounds n marked ∨ (r ≤ 0)%Z →
  Grover_Step_II n marked (Some r) =
  ([], Ok (mkCircuit None n 0
             (h_gates n
              ++ concat (replicate (Z.to_nat r)
                           [oracle_gate n (resolved n marked); diffuser_gate n])))).
Proof.
  intros Hr Hm. unfold Grover_Step_II. cbn [default from_option].
  rewrite determine_r_explicit by done. cbn [mbind py_bind].
  change (Datatypes.id r) with r.
  destruct Hm as [Hm|Hle].
  - rewrite rounds_loop_wrap by done. unfold quiet. cbn [mbind py_bind mret py_ret].
    rewrite length_range, range_nat. unfold h, new_circuit. by rewrite emit_emit.
  - rewrite range_nat. unfold range. replace (Z.to_nat r) with 0%nat by lia.
    cbn [seq for_loop]. unfold quiet. cbn [mbind py_bind mret py_ret replicate concat].
    unfold h, new_circuit, emit. simpl. by rewrite app_nil_r.
Qed.

Lemma Grover_wrap n marked arg out r :
  determine_r n marked (default 0%Z arg) = (out, Ok r) →
  in_bounds n marked ∨ (r ≤ 0)%Z →
  Grover n marked arg = (out, Ok (grover_circuit n (resolved n marked) (Z.to_nat r))).
Proof.
  intros Hr Hm. unfold Grover. rewrite Hr. cbn [mbind py_bind].
  assert (for_loop (round n marked) (range r)
            (h (new_circuit n n None) (range n)) =
          Ok (emit (h (new_circuit n n None) (range n))
                (concat (replicate (Z.to_nat r)
                           [oracle_gate n (resolved n marked); diffuser_gate n])))) as ->.
  { destruct Hm as [Hm|Hle].
    - by rewrite rounds_loop_wrap, length_range.
    - unfold range. replace (Z.to_nat r) with 0%nat by lia. simpl.
      by rewrite emit_nil. }
  unfold quiet. cbn [mbind py_bind mret py_ret].
  rewrite app_nil_r, range_nat.
  unfold measure, h, new_circuit. rewrite !emit_emit.
  unfold emit, grover_circuit. cbn [name num_qubits num_clbits data].
  by rewrite measure_range.
Qed.

Lemma Grover_raises n marked arg out r e :
  determine_r n marked (default 0%Z arg) = (out, Ok r) →
  phase_oracle n marked "Oracle" = Raise e →
  (0 < r)%Z →
  Grover n marked arg = (out, Raise e).
Proof.
  intros Hr Hex Hpos. unfold Grover. rewrite Hr. cbn [mbind py_bind].
  rewrite (rounds_loop_raises n marked _ _ e); [|done|].
  - unfold quiet. cbn [mbind py_bind]. by rewrite app_nil_r.
  - unfold range. destruct (Z.to_nat r) eqn:E; [lia|done].
Qed.

(** ** Oracle rounds alone *)

Lemma exec_oracle_rounds n marked (r : nat) : ∀ s a b,
  sv s = amps marked (2 ^ n) a b →
  exec_list n (concat (replicate r [oracle_gate n marked])) s =
  Some (with_sv s (amps marked (2 ^ n) (if Nat.even r then a else (- a)%C) b)).
Proof.
  induction r as [|r IH]; intros s a b Hs.
  - simpl. rewrite <- Hs. by rewrite with_sv_id.
  - rewrite concat_replicate_S, exec_list_app. cbn [exec_list].
    rewrite exec_oracle_gate_flip by (by rewrite Hs, length_amps).
    cbn [mbind option_bind]. rewrite Hs, phase_flip_amps.
    erewrite IH; [|reflexivity]. rewrite with_sv_with_sv. do 3 f_equal.
    rewrite Nat.even_succ, <- Nat.negb_even.
    destruct (Nat.even r); simpl; [done|]. csolve.
Qed.

(** ** [phase_oracle_explained] *)

Lemma phase_oracle_explained_result n marks nm :
  snd (phase_oracle_explained n marks nm) = phase_oracle n marks nm.
Proof.
  unfold phase_oracle_explained, phase_oracle.
  destruct (for_loop _ marks (np_identity (2 ^ n))) as [m|e]; done.
Qed.

Lemma phase_oracle_explained_prints n marks nm :
  in_bounds n marks →
  fst (phase_oracle_explained n marks nm) =
  [PrintedArray (np_identity (2 ^ n));
   PrintedArray (diag (oracle_sign (resolved n marks)) (2 ^ n));
   PrintedOperator (oracle_matrix n (resolved n marks))].
Proof.
  intros Hm. unfold phase_oracle_explained.
  change (for_loop ?f marks (np_identity (2 ^ n)))
    with (for_loop f marks (diag (fun _ => 1) (2 ^ n))).
  rewrite mark_loop_wrap by by apply in_bounds_pow.
  unfold show, silent. cbn [mbind traced_bind mret traced_ret fst app].
  rewrite Operator_diag.
  assert (diag (fun k : nat =>
                  if decide (Z.of_nat k ∈
                       (fun i => i mod Z.of_nat (2 ^ n))%Z <$> marks)
                  then -1 else 1) (2 ^ n) =
          diag (oracle_sign (resolved n marks)) (2 ^ n)) as Hd.
  { apply diag_ext. intros k _. unfold oracle_sign, resolved. by rewrite pow2_of_nat. }
  assert (cdiag (fun k : nat =>
                  if decide (Z.of_nat k ∈
                       (fun i => i mod Z.of_nat (2 ^ n))%Z <$> marks)
                  then -1 else 1) (2 ^ n) =
          oracle_matrix n (resolved n marks)) as Hc.
  { unfold oracle_matrix. apply cdiag_ext. intros k _.
    unfold oracle_sign, resolved. by rewrite pow2_of_nat. }
  by rewrite Hd, Hc.
Qed.

Lemma phase_oracle_explained_prints_on_error n marks nm i :
  first_rejected n marks = Some i →
  phase_oracle_explained n marks nm =
  ([PrintedArray (np_identity (2 ^ n))], Raise (index_error i)).
Proof.
  intros Hex. unfold phase_oracle_explained.
  change (for_loop ?f marks (np_identity (2 ^ n)))
    with (for_loop f marks (diag (fun _ => 1) (2 ^ n))).
  by rewrite (mark_loop_raises n marks i).
Qed.

(** ** The amplitudes before measurement *)

Lemma length_rounds_state n marked r : length (rounds_state n marked r) = (2 ^ n)%nat.
Proof.
  unfold rounds_state. induction r as [|r IH]; [apply length_replicate|].
  rewrite Nat.iter_succ. by rewrite length_diffusion, length_phase_flip.
Qed.

Lemma norm2_rounds_state n marked r : norm2 (rounds_state n marked r) = 1.
Proof.
  induction r as [|r IH]; [apply norm2_uniform|].
  unfold rounds_state in *. rewrite Nat.iter_succ.
  rewrite (norm2_diffusion n)
    by (rewrite length_phase_flip; apply (length_rounds_state n marked r)).
  by rewrite norm2_phase_flip.
Qed.

Lemma exec_rounds_iter n marked (r : nat) : ∀ s,
  length (sv s) = (2 ^ n)%nat →
  exec_list n (concat (replicate r [oracle_gate n marked; diffuser_gate n])) s =
  Some (with_sv s (Nat.iter r (fun v => diffusion (phase_flip marked v)) (sv s))).
Proof.
  induction r as [|r IH]; intros s Hs.
  - simpl. by rewrite with_sv_id.
  - rewrite concat_replicate_S, exec_list_app. cbn [app exec_list].
    rewrite exec_oracle_gate_flip by done.
    rewrite exec_diffuser_gate by (cbn [sv with_sv]; by rewrite length_phase_flip).
    cbn [mbind option_bind sv with_sv]. rewrite with_sv_with_sv.
    rewrite IH by (cbn [sv with_sv]; by rewrite length_diffusion, length_phase_flip).
    cbn [sv with_sv]. rewrite with_sv_with_sv. by rewrite Nat.iter_succ_r.
Qed.

Lemma exec_rounds_state n marked (r c : nat) rnd :
  exec_list n
    (h_gates n ++ concat (replicate r [oracle_gate n marked; diffuser_gate n]))
    (init n c rnd) =
  Some (with_sv (init n c rnd) (rounds_state n marked r)).
Proof.
  rewrite exec_list_app, exec_h_gates_init. cbn [mbind option_bind].
  rewrite exec_rounds_iter by (cbn [sv with_sv]; apply length_replicate).
  by rewrite with_sv_with_sv.
Qed.

Lemma rounds_state_amps n marked r :
  NoDup marked → in_range n marked →
  rounds_state n marked r =
  amps marked (2 ^ n)
    (fst (Nat.iter r (grover_step (2 ^ n) (length marked))
            (RtoC ((/ sqrt 2) ^ n), RtoC ((/ sqrt 2) ^ n))))
    (snd (Nat.iter r (grover_step (2 ^ n) (length marked))
            (RtoC ((/ sqrt 2) ^ n), RtoC ((/ sqrt 2) ^ n)))).
Proof.
  intros Hnd Hm.
  pose proof (exec_rounds_state n marked r 0 []) as H1.
  pose proof (run_rounds_amps n marked r 0 [] Hnd Hm) as H2.
  rewrite H1 in H2. by injection H2.
Qed.

(** The whole circuit of [Grover]: the amplitudes before measurement are
    [rounds_state], and every shot reads an index they do not vanish at. *)
Lemma run_grover_circuit n marked (r : nat) rnd :
  shot_ok n rnd →
  ∃ (m : machine) (i : nat),
    run (grover_circuit n marked r) rnd = Some m ∧
    (i < 2 ^ n)%nat ∧ rounds_state n marked r !!! i ≠ C0 ∧
    length (clbits m) = n ∧
    (∀ j, (j < n)%nat → clbits m !!! j = Nat.testbit i j) ∧
    tape m = [].
Proof.
  intros [Hlen Hrnd]. unfold run, grover_circuit. cbn [num_qubits num_clbits data].
  rewrite app_assoc, exec_list_app, exec_rounds_state. cbn [mbind option_bind].
  destruct (exec_measure_prefix n n (with_sv (init n n rnd) (rounds_state n marked r)))
    as (w & cl & Hrun & Hw & Hwn & Hcl & Hsupp); cbn [sv with_sv clbits tape init];
    try done.
  - apply length_rounds_state.
  - apply norm2_rounds_state.
  - apply length_replicate.
  - lia.
  - unfold measure_all. rewrite Hrun.
    destruct (norm2_pos_entry w) as (i & Hi & Hne); [lra|].
    rewrite Hw in Hi. destruct (Hsupp i Hi Hne) as [Hv Hbits].
    exists (mkMachine w cl (drop n rnd)), i. cbn [clbits tape].
    split_and!; try done.
    cbn [tape init with_sv]. by rewrite drop_ge by lia.
Qed.

Lemma optimal_rounds_quarter (n k : nat) :
  (4 * k = 2 ^ n)%nat → optimal_rounds n k = 1%Z.
Proof.
  intros Hk. apply Zfloor_eq.
  assert (0 < k)%nat as Hpos by (pose proof (pow2_pos n); lia).
  assert (0 < INR k) as HkR by (apply lt_0_INR; lia).
  apply (f_equal INR) in Hk. rewrite mult_INR, INR_pow2_nat in Hk.
  change (INR 4) with (INR (2 * 2)) in Hk. rewrite mult_INR in Hk.
  change (INR 2) with 2 in Hk.
  rewrite <- Hk. replace (2 * 2 * INR k / INR k) with (2 * 2) by (field; lra).
  rewrite sqrt_square by lra.
  pose proof PI2_1. pose proof PI_lt_4. lra.
Qed.

(** * Further properties of the builders *)

Lemma resolved_cases n marks :
  in_bounds n marks →
  resolved n marks =
  (fun i => if decide (i < 0)%Z then (2 ^ Z.of_nat n + i)%Z else i) <$> marks.
Proof.
  intros Hb. unfold resolved. apply list_fmap_ext.
  intros k i Hi. cbv beta.
  pose proof (proj1 (Forall_lookup _ _) Hb k i Hi) as Hr. cbv beta in Hr.
  destruct (decide (i < 0)%Z).
  - symmetry. apply (Z.mod_unique i _ (-1)); lia.
  - apply Z.mod_small. lia.
Qed.

Lemma not_in_and_out n (marks : list Z) :
  in_bounds n marks →
  Exists (fun i => i < - 2 ^ Z.of_nat n ∨ 2 ^ Z.of_nat n ≤ i)%Z marks → False.
Proof.
  intros Hb (i & Hi & Hout)%Exists_exists.
  pose proof (proj1 (Forall_forall _ _) Hb i Hi) as Hin. cbv beta in Hin. lia.
Qed.

Lemma lookup_total_phase_flip marked (v : list C) i :
  (i < length v)%nat →
  phase_flip marked v !!! i =
  if decide (Z.of_nat i ∈ marked) then (- (v !!! i))%C else v !!! i.
Proof.
  intros Hi. destruct (lookup_lt_is_Some_2 v i Hi) as [a Ha].
  rewrite (list_lookup_total_correct v i a Ha).
  apply list_lookup_total_correct. unfold phase_flip.
  rewrite list_lookup_imap, Ha. done.
Qed.

Lemma exec_oracle_data n marked s :
  length (sv s) = (2 ^ n)%nat →
  exec_list n [UnitaryGate (oracle_matrix n marked) (seq 0 n)] s =
  Some (with_sv s (phase_flip marked (sv s))).
Proof.
  intros Hs. pose proof (exec_oracle_gate_flip n marked s Hs) as H.
  unfold oracle_gate in H. by rewrite exec_sub in H.
Qed.

(** X1.  [phase_oracle] accepts negative indices: an index [i] with
    [-2^n <= i < 0] marks the diagonal cell [2^n + i], as numpy counts it
    from the end.  With every index in [[-2^n, 2^n)] the builder returns the
    circuit it returns for the indices so resolved, whose matrix has -1 at
    the resolved cell of each listed index. *)
Theorem phase_oracle_negative_indices (n : nat) (marks : list Z) (nm : string) :
  in_bounds n marks →
  resolved n marks =
    (fun i => if decide (i < 0)%Z then (2 ^ Z.of_nat n + i)%Z else i) <$> marks ∧
  in_range n (resolved n marks) ∧
  phase_oracle n marks nm = phase_oracle n (resolved n marks) nm ∧
  phase_oracle n marks nm =
    Ok (mkCircuit (Some nm) n 0
          [UnitaryGate (oracle_matrix n (resolved n marks)) (seq 0 n)]) ∧
  ∀ i, i ∈ marks →
    let c := Z.to_nat (if decide (i < 0)%Z then (2 ^ Z.of_nat n + i)%Z else i) in
    (c < 2 ^ n)%nat ∧
    entry (oracle_matrix n (resolved n marks)) c c = RtoC (-1).
Proof.
  intros Hb. pose proof (resolved_cases n marks Hb) as Hres.
  pose proof (resolved_in_range n marks) as Hr.
  split_and!; try done.
  - rewrite (phase_oracle_wrap n marks) by done.
    rewrite (phase_oracle_circuit n (resolved n marks)) by done. done.
  - by apply phase_oracle_wrap.
  - intros i Hi c.
    assert (Z.of_nat c ∈ resolved n marks ∧ (c < 2 ^ n)%nat) as [Hc Hlt].
    { pose proof (proj1 (Forall_forall _ _) Hb i Hi) as Hin. cbv beta in Hin.
      assert (Z.of_nat c = if decide (i < 0)%Z then (2 ^ Z.of_nat n + i)%Z else i)
        as Hc by (subst c; destruct (decide (i < 0)%Z); lia).
      split.
      - rewrite Hc, Hres. apply list_elem_of_fmap. by exists i.
      - apply Nat2Z.inj_lt. rewrite Hc, pow2_of_nat.
        destruct (decide (i < 0)%Z); lia. }
    split; [done|].
    rewrite entry_oracle_matrix by done.
    rewrite Nat.eqb_refl. by rewrite decide_True.
Qed.

Lemma phase_oracle_negative_indices_witness :
  phase_oracle 2 [(-1)%Z] "Oracle" = phase_oracle 2 [3%Z] "Oracle" ∧
  entry (oracle_matrix 2 (resolved 2 [(-1)%Z])) 3 3 = RtoC (-1).
Proof.
  destruct (phase_oracle_negative_indices 2 [(-1)%Z] "Oracle")
    as (_ & _ & Heq & _ & Hcell).
  - apply Forall_singleton. simpl. lia.
  - split; [exact Heq|].
    apply (Hcell (-1)%Z). apply list_elem_of_here.
Defined.

(** X2.  For [n >= 1], [phase_oracle] returns a circuit exactly when every
    index lies in [[-2^n, 2^n)].  Otherwise the marking loop stops at the
    first index [i] outside and the call raises what numpy raises for it:
    [IndexError] when [i] fits a signed 64-bit integer, [OverflowError]
    when [2^63 <= i < 2^64].  With indices of at most 64 bits no other
    exception leaves the builder. *)
Theorem phase_oracle_failure (n : nat) (marks : list Z) (nm : string) :
  (0 < n)%nat →
  ((∃ qc, phase_oracle n marks nm = Ok qc) ↔ in_bounds n marks) ∧
  (¬ in_bounds n marks →
     ∃ pre i post, marks = pre ++ i :: post ∧ in_bounds n pre ∧
                   (i < - 2 ^ Z.of_nat n ∨ 2 ^ Z.of_nat n ≤ i)%Z) ∧
  (∀ pre i post,
     marks = pre ++ i :: post → in_bounds n pre →
     (i < - 2 ^ Z.of_nat n ∨ 2 ^ Z.of_nat n ≤ i)%Z →
     ((- 2 ^ 63 ≤ i < 2 ^ 63)%Z → phase_oracle n marks nm = Raise IndexError) ∧
     ((2 ^ 63 ≤ i < 2 ^ 64)%Z → phase_oracle n marks nm = Raise OverflowError)) ∧
  (Forall (fun i => - 2 ^ 63 ≤ i < 2 ^ 64)%Z marks →
   ∀ e, phase_oracle n marks nm = Raise e → e = IndexError ∨ e = OverflowError).
Proof.
  intros _. split_and!.
  - split.
    + intros [qc Hqc]. destruct (first_rejected_cases n marks) as [|[i Hi]]; [done|].
      by rewrite (phase_oracle_rejects n marks nm i) in Hqc.
    + intros Hb. eexists. by apply phase_oracle_wrap.
  - intros Hnb. destruct (first_rejected_cases n marks) as [|[i Hi]]; [done|].
    apply first_rejected_Some in Hi as (pre & post & ? & ? & ?). by exists pre, i, post.
  - intros pre i post -> Hpre Hi.
    rewrite (phase_oracle_rejects n _ nm i) by by apply first_rejected_app.
    split; intros Hr.
    + by rewrite index_error_small by lia.
    + by rewrite index_error_large.
  - intros _ e He. destruct (first_rejected_cases n marks) as [Hb|[i Hi]].
    + by rewrite phase_oracle_wrap in He.
    + rewrite (phase_oracle_rejects n marks nm i) in He by done.
      injection He as <-. apply index_error_cases.
Qed.

Lemma phase_oracle_failure_witness :
  phase_oracle 2 [1%Z; 4%Z] "Oracle" = Raise IndexError ∧
  phase_oracle 2 [9223372036854775808%Z] "Oracle" = Raise OverflowError.
Proof.
  split.
  - destruct (phase_oracle_failure 2 [1%Z; 4%Z] "Oracle") as (_ & _ & H & _); [lia|].
    apply (H [1%Z] 4%Z []); [reflexivity| |simpl; lia|simpl; lia].
    apply Forall_singleton. simpl. lia.
  - destruct (phase_oracle_failure 2 [9223372036854775808%Z] "Oracle")
      as (_ & _ & H & _); [lia|].
    apply (H [] 9223372036854775808%Z []); [reflexivity| |simpl; lia|simpl; lia].
    apply Forall_nil_2.
Defined.

(** X3.  The circuit of [phase_oracle] depends only on the set of cells the
    indices resolve to: the order of the list, repeated indices, and the
    choice between an index and its negative alias make no difference. *)
Theorem phase_oracle_depends_on_cells (n : nat) (marks marks' : list Z) (nm : string) :
  in_bounds n marks → in_bounds n marks' →
  (∀ c, c ∈ resolved n marks ↔ c ∈ resolved n marks') →
  phase_oracle n marks nm = phase_oracle n marks' nm.
Proof.
  intros Hb Hb' Hset.
  rewrite (phase_oracle_wrap n marks) by done.
  rewrite (phase_oracle_wrap n marks') by done.
  rewrite (oracle_matrix_ext n (resolved n marks) (resolved n marks')); [done|].
  intros i _. apply Hset.
Qed.

Lemma phase_oracle_depends_on_cells_witness :
  phase_oracle 2 [1%Z; (-1)%Z; 1%Z] "Oracle" = phase_oracle 2 [3%Z; 1%Z] "Oracle".
Proof.
  apply phase_oracle_depends_on_cells.
  - repeat apply Forall_cons_2; try apply Forall_nil_2; simpl; lia.
  - repeat apply Forall_cons_2; try apply Forall_nil_2; simpl; lia.
  - intros c. change (resolved 2 [1%Z; (-1)%Z; 1%Z]) with [1%Z; 3%Z; 1%Z].
    change (resolved 2 [3%Z; 1%Z]) with [3%Z; 1%Z].
    rewrite !elem_of_cons, !elem_of_nil. tauto.
Defined.

(** X4.  Run on any amplitudes of an [n]-qubit register, the circuit of
    [phase_oracle] changes the sign of the amplitude at every marked index
    and leaves every other amplitude, the classical bits and the random
    numbers as they are. *)
Theorem oracle_negates_marked_amplitudes (n : nat) (marks : list Z) (nm : string)
    (s : machine) :
  in_bounds n marks → length (sv s) = (2 ^ n)%nat →
  ∃ qc v,
    phase_oracle n marks nm = Ok qc ∧
    exec_list n (data qc) s = Some (mkMachine v (clbits s) (tape s)) ∧
    length v = (2 ^ n)%nat ∧
    ∀ i, (i < 2 ^ n)%nat →
      v !!! i = if decide (Z.of_nat i ∈ resolved n marks)
                then (- (sv s !!! i))%C else sv s !!! i.
Proof.
  intros Hb Hs. eexists _, (phase_flip (resolved n marks) (sv s)).
  split; [by apply phase_oracle_wrap|]. cbn [data].
  split; [by apply exec_oracle_data|].
  split; [by rewrite length_phase_flip|].
  intros i Hi. apply lookup_total_phase_flip. by rewrite Hs.
Qed.

Lemma oracle_negates_marked_amplitudes_witness :
  ∃ qc v,
    phase_oracle 1 [(-1)%Z] "Oracle" = Ok qc ∧
    exec_list 1 (data qc) (mkMachine [RtoC 3; RtoC 5] [] []) =
      Some (mkMachine v [] []) ∧
    v !!! 0%nat = RtoC 3 ∧ v !!! 1%nat = (- RtoC 5)%C.
Proof.
  destruct (oracle_negates_marked_amplitudes 1 [(-1)%Z] "Oracle"
              (mkMachine [RtoC 3; RtoC 5] [] []))
    as (qc & v & Hqc & Hrun & _ & Hv).
  - apply Forall_singleton. simpl. lia.
  - reflexivity.
  - exists qc, v. split; [exact Hqc|]. split; [exact Hrun|].
    split; [apply (Hv 0%nat) | apply (Hv 1%nat)]; simpl; lia.
Defined.

(** X5.  The oracle is its own inverse: the circuit of [phase_oracle] run
    twice returns every state unchanged, the matrix of the composed
    transform is the identity of dimension [2^n], and so is the product of
    the oracle's matrix with itself. *)
Theorem oracle_twice_is_identity (n : nat) (marks : list Z) (nm : string) (s : machine) :
  in_bounds n marks → length (sv s) = (2 ^ n)%nat →
  ∃ qc U,
    phase_oracle n marks nm = Ok qc ∧
    data qc = [UnitaryGate U (seq 0 n)] ∧
    exec_list n (data qc ++ data qc) s = Some s ∧
    unitary_of n (data qc ++ data qc) = Some (Operator (np_identity (2 ^ n))) ∧
    mat_mul U U = Operator (np_identity (2 ^ n)).
Proof.
  intros Hb Hs. eexists _, _.
  split; [by apply phase_oracle_wrap|]. cbn [data]. split; [done|].
  assert (∀ t, length (sv t) = (2 ^ n)%nat →
            exec_list n ([UnitaryGate (oracle_matrix n (resolved n marks)) (seq 0 n)]
                         ++ [UnitaryGate (oracle_matrix n (resolved n marks)) (seq 0 n)]) t
            = Some t) as Htwice.
  { intros t Ht. rewrite exec_list_app, exec_oracle_data by done.
    cbn [mbind option_bind].
    rewrite exec_oracle_data by (cbn [sv with_sv]; by rewrite length_phase_flip).
    cbn [sv with_sv]. by rewrite phase_flip_involutive, with_sv_with_sv, with_sv_id. }
  split_and!.
  - by apply Htwice.
  - apply unitary_of_identity. intros j _. apply Htwice. apply length_basis.
  - unfold oracle_matrix. rewrite mat_mul_cdiag, Operator_identity.
    apply cdiag_ext. intros i _. apply oracle_sign_square.
Qed.

Lemma oracle_twice_is_identity_witness :
  ∃ qc, phase_oracle 1 [1%Z] "Oracle" = Ok qc ∧
        exec_list 1 (data qc ++ data qc) (mkMachine [RtoC 3; RtoC 5] [] []) =
          Some (mkMachine [RtoC 3; RtoC 5] [] []).
Proof.
  destruct (oracle_twice_is_identity 1 [1%Z] "Oracle"
              (mkMachine [RtoC 3; RtoC 5] [] []))
    as (qc & U & Hqc & _ & Hrun & _).
  - apply Forall_singleton. simpl. lia.
  - reflexivity.
  - exists qc. split; [exact Hqc | exact Hrun].
Defined.

Lemma oracle_loop_shape (n : nat) (marked : list Z) (its : list nat) :
  ∃ res : result (list instruction),
    ∀ qc, for_loop (fun qc (_ : nat) =>
                      oracle ← phase_oracle n marked "Oracle";
                      Ok (append qc oracle (range n))) its qc
          = (ops ← res; Ok (emit qc ops)).
Proof.
  destruct (first_rejected_cases n marked) as [Hm|[i Hex]].
  - eexists (Ok _). intros qc. by rewrite oracle_loop_wrap.
  - destruct its as [|k its].
    + exists (Ok []). intros qc. simpl. by rewrite emit_nil.
    + exists (Raise (index_error i)). intros qc. cbn [for_loop].
      by rewrite (phase_oracle_rejects n marked "Oracle" i).
Qed.

(** X6.  Every circuit one of the three drivers returns for [n >= 1]
    qubits starts with the Hadamard layer, one gate per qubit in index
    order, and this layer takes the basis state 0 to the uniform
    superposition: each of the [2^n] amplitudes is [(1/sqrt 2)^n], so every
    index has probability [1/2^n] and the probabilities add up to 1, and
    classical bits and random numbers are not touched. *)
Theorem drivers_start_uniform (n : nat) (marks : list Z) (arg : option Z)
    (out : list string) (qc : QuantumCircuit) (rnd : list R) :
  (0 < n)%nat →
  Grover n marks arg = (out, Ok qc) ∨
  Grover_Step_I n marks arg = (out, Ok qc) ∨
  Grover_Step_II n marks arg = (out, Ok qc) →
  ∃ rest,
    data qc = (HGate <$> seq 0 n) ++ rest ∧
    num_qubits qc = n ∧
    exec_list n (HGate <$> seq 0 n) (init n (num_clbits qc) rnd) =
      Some (mkMachine (replicate (2 ^ n) (RtoC ((/ sqrt 2) ^ n)))
              (replicate (num_clbits qc) false) rnd) ∧
    Cnorm2 (RtoC ((/ sqrt 2) ^ n)) = / 2 ^ n ∧
    norm2 (replicate (2 ^ n) (RtoC ((/ sqrt 2) ^ n))) = 1.
Proof.
  intros _ Hqc.
  assert (∃ rest, data qc = (HGate <$> seq 0 n) ++ rest ∧ num_qubits qc = n)
    as (rest & Hdata & Hnq).
  { destruct Hqc as [Hqc|[Hqc|Hqc]].
    - unfold Grover in Hqc.
      destruct (determine_r n marks (default 0%Z arg)) as [out' [r|e]];
        cbn [mbind py_bind] in Hqc; [|done].
      destruct (rounds_loop_shape n marks (range r)) as [res Hres].
      rewrite Hres in Hqc. destruct res as [ops|e]; cbn [mbind result_bind] in Hqc;
        unfold quiet in Hqc; cbn [mbind py_bind mret py_ret] in Hqc; [|done].
      injection Hqc as _ <-. rewrite range_nat.
      unfold measure, h, new_circuit, emit. cbn [name num_qubits num_clbits data app].
      eexists. split; [|done]. by rewrite <- app_assoc.
    - unfold Grover_Step_I in Hqc.
      destruct (determine_r n marks (default 0%Z arg)) as [out' [r|e]];
        cbn [mbind py_bind] in Hqc; [|done].
      destruct (oracle_loop_shape n marks (range r)) as [res Hres].
      rewrite Hres in Hqc. destruct res as [ops|e]; cbn [mbind result_bind] in Hqc;
        unfold quiet in Hqc; cbn [mbind py_bind mret py_ret] in Hqc; [|done].
      injection Hqc as _ <-. rewrite range_nat.
      unfold h, new_circuit, emit. cbn [name num_qubits num_clbits data app].
      eexists. split; done.
    - unfold Grover_Step_II in Hqc.
      destruct (determine_r n marks (default 0%Z arg)) as [out' [r|e]];
        cbn [mbind py_bind] in Hqc; [|done].
      destruct (rounds_loop_shape n marks (range r)) as [res Hres].
      rewrite Hres in Hqc. destruct res as [ops|e]; cbn [mbind result_bind] in Hqc;
        unfold quiet in Hqc; cbn [mbind py_bind mret py_ret] in Hqc; [|done].
      injection Hqc as _ <-. rewrite range_nat.
      unfold h, new_circuit, emit. cbn [name num_qubits num_clbits data app].
      eexists. split; done. }
  exists rest. split_and!; [done|done| | |].
  - apply exec_h_gates_init.
  - apply Cnorm2_uniform.
  - apply norm2_uniform.
Qed.

Lemma drivers_start_uniform_witness :
  ∃ qc rest,
    Grover 2 [1%Z] (Some 1%Z) = ([], Ok qc) ∧
    data qc = (HGate <$> seq 0 2) ++ rest ∧
    exec_list 2 (HGate <$> seq 0 2) (init 2 (num_clbits qc) []) =
      Some (mkMachine (replicate (2 ^ 2) (RtoC ((/ sqrt 2) ^ 2)))
              (replicate (num_clbits qc) false) []).
Proof.
  destruct (drivers_start_uniform 2 [1%Z] (Some 1%Z) []
              (grover_circuit 2 [1%Z] 1) [])
    as (rest & Hdata & _ & Hrun & _).
  - lia.
  - left. apply (Grover_explicit 2 [1%Z] 1); [discriminate|].
    left. apply Forall_singleton. simpl. lia.
  - exists (grover_circuit 2 [1%Z] 1), rest. split; [|split; [exact Hdata|exact Hrun]].
    apply (Grover_explicit 2 [1%Z] 1); [discriminate|].
    left. apply Forall_singleton. simpl. lia.
Defined.

(** * Further properties of the drivers *)

Lemma run_Step_II_circuit n marked (r : nat) rnd :
  run (mkCircuit None n 0
         (h_gates n ++ concat (replicate r [oracle_gate n marked; diffuser_gate n])))
      rnd =
  Some (mkMachine (rounds_state n marked r) [] rnd).
Proof.
  unfold run. cbn [num_qubits num_clbits data]. by rewrite exec_rounds_state.
Qed.

Lemma Cnorm2_scal2 (x : R) : Cnorm2 (RtoC (-2 * x)) = 4 * Cnorm2 (RtoC x).
Proof. unfold Cnorm2, RtoC. simpl. ring. Qed.

Lemma quarter_inv (n k : nat) : (4 * k = 2 ^ n)%nat → 4 * / 2 ^ n = / INR k.
Proof.
  intros Hk.
  assert (0 < k)%nat as Hpos by (pose proof (pow2_pos n); lia).
  assert (0 < INR k) as HkR by (apply lt_0_INR; lia).
  apply (f_equal INR) in Hk. rewrite mult_INR, INR_pow2_nat in Hk.
  change (INR 4) with (INR (2 * 2)) in Hk. rewrite mult_INR in Hk.
  change (INR 2) with 2 in Hk. rewrite <- Hk. field. lra.
Qed.

Lemma rounds_state_quarter n marked :
  NoDup marked → in_range n marked → (4 * length marked = 2 ^ n)%nat →
  rounds_state n marked 1 =
  amps marked (2 ^ n) (RtoC (-2 * (/ sqrt 2) ^ n)) (RtoC 0).
Proof.
  intros Hnd Hm Hk. rewrite rounds_state_amps by done.
  assert (0 < length marked)%nat by (pose proof (pow2_pos n); lia).
  cbn [Nat.iter nat_rect]. by rewrite grover_step_quarter.
Qed.

(** X7.  [Grover_Step_I] applies the oracle alone [r] times: after the
    Hadamard layer every amplitude is [(1/sqrt 2)^n], and after [r] oracles
    the marked amplitudes carry the sign [(-1)^r] while the others are
    unchanged; an even number of oracles leaves the uniform state. *)
Theorem Step_I_marks_by_parity (n : nat) (marks : list Z) (r : Z) :
  (0 < r)%Z → in_bounds n marks →
  ∃ qc,
    Grover_Step_I n marks (Some r) = ([], Ok qc) ∧
    run qc [] =
      Some (mkMachine
              (amps (resolved n marks) (2 ^ n)
                 (if Z.even r then RtoC ((/ sqrt 2) ^ n) else (- RtoC ((/ sqrt 2) ^ n))%C)
                 (RtoC ((/ sqrt 2) ^ n)))
              [] []).
Proof.
  intros Hr Hb. eexists. split; [apply Grover_Step_I_wrap; [lia|done]|].
  unfold run. cbn [num_qubits num_clbits data].
  rewrite exec_list_app, exec_h_gates_init. cbn [mbind option_bind].
  rewrite (exec_oracle_rounds n (resolved n marks) (Z.to_nat r) _
             (RtoC ((/ sqrt 2) ^ n)) (RtoC ((/ sqrt 2) ^ n)))
    by (cbn [sv with_sv]; by rewrite amps_uniform).
  f_equal. unfold with_sv, init. cbn [clbits tape replicate]. f_equal. f_equal.
  replace (Nat.even (Z.to_nat r)) with (Z.even r); [done|].
  rewrite <- (Z2Nat.id r) at 1 by lia.
  generalize (Z.to_nat r). intros m.
  destruct (Nat.even m) eqn:Hm.
  - apply Z.even_spec. apply Nat.even_spec in Hm as [q ->].
    exists (Z.of_nat q). lia.
  - apply not_true_is_false. intros [q Hq]%Z.even_spec.
    assert (Nat.even m = true) as Hm'; [|congruence].
    apply Nat.even_spec. exists (Z.to_nat q). lia.
Qed.

Lemma Step_I_marks_by_parity_witness :
  ∃ qc,
    Grover_Step_I 2 [1%Z] (Some 2%Z) = ([], Ok qc) ∧
    run qc [] =
      Some (mkMachine
              (amps (resolved 2 [1%Z]) (2 ^ 2)
                 (RtoC ((/ sqrt 2) ^ 2)) (RtoC ((/ sqrt 2) ^ 2))) [] []).
Proof.
  apply (Step_I_marks_by_parity 2 [1%Z] 2).
  - lia.
  - apply Forall_singleton. simpl. lia.
Defined.

(** X8.  The rounds keep the total probability: the circuit of
    [Grover_Step_II], for any round count and any indices in
    [[-2^n, 2^n)], takes the basis state 0 to a list of [2^n] amplitudes
    whose squared moduli add up to 1.  These amplitudes are [r] times
    (oracle, then diffuser) applied to the uniform list. *)
Theorem rounds_keep_total_probability (n : nat) (marks : list Z) (r : Z) (rnd : list R) :
  r ≠ 0%Z → in_bounds n marks →
  ∃ qc v,
    Grover_Step_II n marks (Some r) = ([], Ok qc) ∧
    run qc rnd = Some (mkMachine v [] rnd) ∧
    v = Nat.iter (Z.to_nat r) (fun v => diffusion (phase_flip (resolved n marks) v))
          (replicate (2 ^ n) (RtoC ((/ sqrt 2) ^ n))) ∧
    length v = (2 ^ n)%nat ∧ norm2 v = 1.
Proof.
  intros Hr Hb. eexists _, (rounds_state n (resolved n marks) (Z.to_nat r)).
  split; [apply Grover_Step_II_wrap; [done|by left]|].
  split; [apply run_Step_II_circuit|].
  split; [done|].
  split; [apply length_rounds_state | apply norm2_rounds_state].
Qed.

Lemma rounds_keep_total_probability_witness :
  ∃ qc v,
    Grover_Step_II 3 [2%Z; (-1)%Z] (Some 5%Z) = ([], Ok qc) ∧
    run qc [] = Some (mkMachine v [] []) ∧ norm2 v = 1.
Proof.
  destruct (rounds_keep_total_probability 3 [2%Z; (-1)%Z] 5 [])
    as (qc & v & Hqc & Hrun & _ & _ & Hnorm).
  - discriminate.
  - repeat apply Forall_cons_2; try apply Forall_nil_2; simpl; lia.
  - exists qc, v. split; [exact Hqc|]. split; [exact Hrun | exact Hnorm].
Defined.

(** X9.  The rounds act on two amplitudes only.  With distinct marked
    indices in [[0, 2^n)], after any number of rounds all marked indices
    share one amplitude [a] and all others one amplitude [b]; a round takes
    [(a, b)] to [(-a - 2 m, b - 2 m)] with [m = (k (-a) + (2^n - k) b) / 2^n]
    the mean after the oracle, [k] the number of marked indices. *)
Theorem rounds_act_on_two_amplitudes (n : nat) (marks : list Z) (r : Z) :
  r ≠ 0%Z → NoDup marks → in_range n marks →
  ∃ qc v,
    Grover_Step_II n marks (Some r) = ([], Ok qc) ∧
    run qc [] = Some (mkMachine v [] []) ∧
    ∀ i, (i < 2 ^ n)%nat →
      v !!! i =
      let ab := Nat.iter (Z.to_nat r) (grover_step (2 ^ n) (length marks))
                  (RtoC ((/ sqrt 2) ^ n), RtoC ((/ sqrt 2) ^ n)) in
      if decide (Z.of_nat i ∈ marks) then fst ab else snd ab.
Proof.
  intros Hr Hnd Hm. eexists _, (rounds_state n marks (Z.to_nat r)).
  split; [by apply Grover_Step_II_explicit|].
  split; [apply run_Step_II_circuit|].
  intros i Hi. cbv zeta. rewrite rounds_state_amps by done.
  by apply lookup_total_amps.
Qed.

Lemma rounds_act_on_two_amplitudes_witness :
  ∃ qc v,
    Grover_Step_II 2 [1%Z] (Some 1%Z) = ([], Ok qc) ∧
    run qc [] = Some (mkMachine v [] []) ∧
    v !!! 1%nat =
      fst (grover_step (2 ^ 2) 1 (RtoC ((/ sqrt 2) ^ 2), RtoC ((/ sqrt 2) ^ 2))).
Proof.
  destruct (rounds_act_on_two_amplitudes 2 [1%Z] 1)
    as (qc & v & Hqc & Hrun & Hv).
  - discriminate.
  - apply NoDup_singleton.
  - apply Forall_singleton. simpl. lia.
  - exists qc, v. split; [exact Hqc|]. split; [exact Hrun|].
    apply (Hv 1%nat). simpl. lia.
Defined.

(** X10.  When exactly a quarter of the indices is marked, one round is
    exact: after it every unmarked index has amplitude 0 and every marked
    index has probability [1/k], [k] the number of marked indices.  One
    round is also the floor of the exact formula and what the driver
    computes for itself in this case. *)
Theorem quarter_marked_one_round_is_exact (n : nat) (marks : list Z) :
  NoDup marks → in_range n marks → (4 * length marks = 2 ^ n)%nat →
  optimal_rounds n (length marks) = 1%Z ∧
  determine_r n marks 0 = ([rounds_line n marks 1], Ok 1%Z) ∧
  ∃ qc v,
    Grover_Step_II n marks (Some 1%Z) = ([], Ok qc) ∧
    run qc [] = Some (mkMachine v [] []) ∧
    ∀ i, (i < 2 ^ n)%nat →
      if decide (Z.of_nat i ∈ marks)
      then Cnorm2 (v !!! i) = / INR (length marks)
      else v !!! i = C0.
Proof.
  intros Hnd Hm Hk. split; [by apply optimal_rounds_quarter|].
  assert (marks ≠ []) as Hnil.
  { intros ->. pose proof (pow2_pos n). simpl in Hk. lia. }
  assert (1 ≤ length marks)%nat as Hk1 by (destruct marks; [done|simpl; lia]).
  split.
  { rewrite determine_r_auto by (done || apply small_quotient_in_range; lia).
    by rewrite computed_rounds_quarter. }
  eexists _, (rounds_state n marks (Z.to_nat 1)).
  split; [by apply Grover_Step_II_explicit|].
  split; [apply run_Step_II_circuit|].
  intros i Hi. change (Z.to_nat 1) with 1%nat.
  rewrite rounds_state_quarter by done. rewrite lookup_total_amps by done.
  destruct (decide _); [|done].
  rewrite Cnorm2_scal2, Cnorm2_uniform. by apply quarter_inv.
Qed.

Lemma quarter_marked_one_round_is_exact_witness :
  ∃ qc v,
    Grover_Step_II 3 [5%Z; 2%Z] (Some 1%Z) = ([], Ok qc) ∧
    run qc [] = Some (mkMachine v [] []) ∧
    Cnorm2 (v !!! 5%nat) = / INR 2 ∧ v !!! 4%nat = C0.
Proof.
  destruct (quarter_marked_one_round_is_exact 3 [5%Z; 2%Z])
    as (_ & _ & qc & v & Hqc & Hrun & Hv).
  - apply NoDup_cons. split; [|apply NoDup_singleton].
    rewrite list_elem_of_singleton. discriminate.
  - repeat apply Forall_cons_2; try apply Forall_nil_2; simpl; lia.
  - reflexivity.
  - exists qc, v. split; [exact Hqc|]. split; [exact Hrun|]. split.
    + pose proof (Hv 5%nat ltac:(simpl; lia)) as H5.
      rewrite decide_True in H5; [exact H5|].
      apply list_elem_of_here.
    + pose proof (Hv 4%nat ltac:(simpl; lia)) as H4.
      rewrite decide_False in H4; [exact H4|].
      rewrite !elem_of_cons, elem_of_nil. intros [H|[H|[]]]; discriminate H.
Defined.

(** X11.  When exactly a quarter of the indices is marked, the search is
    certain: every shot of the circuit [Grover] builds, with the round count
    left out or given as 1, succeeds, uses up its [n] random numbers and
    leaves in the classical bits the binary digits of a marked index
    (classical bit [j] holds digit [j]). *)
Theorem quarter_marked_search_is_certain (n : nat) (marks : list Z) (rnd : list R) :
  NoDup marks → in_range n marks → (4 * length marks = 2 ^ n)%nat →
  shot_ok n rnd →
  ∃ qc (m : machine) (i : nat),
    Grover n marks (Some 1%Z) = ([], Ok qc) ∧
    snd (Grover n marks None) = Ok qc ∧
    run qc rnd = Some m ∧
    (i < 2 ^ n)%nat ∧ Z.of_nat i ∈ marks ∧
    length (clbits m) = n ∧
    (∀ j, (j < n)%nat → clbits m !!! j = Nat.testbit i j) ∧
    tape m = [].
Proof.
  intros Hnd Hm Hk Hshot.
  destruct (run_grover_circuit n marks 1 rnd Hshot)
    as (m & i & Hrun & Hi & Hne & Hlen & Hbits & Htape).
  exists (grover_circuit n marks 1), m, i.
  assert (marks ≠ []) as Hnil.
  { intros ->. pose proof (pow2_pos n). simpl in Hk. lia. }
  split_and!; try done.
  - by rewrite Grover_explicit by (done || by left).
  - assert (1 ≤ length marks)%nat by (destruct marks; [done|simpl; lia]).
    rewrite Grover_auto by (done || apply small_quotient_in_range; lia).
    by rewrite computed_rounds_quarter.
  - rewrite rounds_state_quarter, lookup_total_amps in Hne by done.
    by destruct (decide _).
Qed.

Lemma quarter_marked_search_is_certain_witness :
  ∃ qc (m : machine) (i : nat),
    Grover 3 [5%Z; 2%Z] (Some 1%Z) = ([], Ok qc) ∧
    run qc [0; / 2; 0] = Some m ∧
    Z.of_nat i ∈ [5%Z; 2%Z] ∧
    (∀ j, (j < 3)%nat → clbits m !!! j = Nat.testbit i j).
Proof.
  destruct (quarter_marked_search_is_certain 3 [5%Z; 2%Z] [0; / 2; 0])
    as (qc & m & i & Hqc & _ & Hrun & _ & Hi & _ & Hbits & _).
  - apply NoDup_cons. split; [|apply NoDup_singleton].
    rewrite list_elem_of_singleton. discriminate.
  - repeat apply Forall_cons_2; try apply Forall_nil_2; simpl; lia.
  - reflexivity.
  - split; [reflexivity|].
    repeat apply Forall_cons_2; try apply Forall_nil_2; lra.
  - exists qc, m, i. split; [exact Hqc|]. split; [exact Hrun|].
    split; [exact Hi | exact Hbits].
Defined.

(** X12.  When exactly half of the indices is marked, the rounds do not
    amplify anything: after any number of rounds every index, marked or
    not, still has probability [1/2^n]. *)
Theorem half_marked_rounds_do_not_amplify (n : nat) (marks : list Z) (r : Z) :
  r ≠ 0%Z → NoDup marks → in_range n marks → (2 * length marks = 2 ^ n)%nat →
  ∃ qc v,
    Grover_Step_II n marks (Some r) = ([], Ok qc) ∧
    run qc [] = Some (mkMachine v [] []) ∧
    ∀ i, (i < 2 ^ n)%nat → Cnorm2 (v !!! i) = / 2 ^ n.
Proof.
  intros Hr Hnd Hm Hk. eexists _, (rounds_state n marks (Z.to_nat r)).
  split; [by apply Grover_Step_II_explicit|].
  split; [apply run_Step_II_circuit|].
  intros i Hi. rewrite rounds_state_amps, lookup_total_amps by done.
  assert (0 < length marks)%nat by (pose proof (pow2_pos n); lia).
  destruct (grover_iter_half (2 ^ n) (length marks) (Z.to_nat r)
              (RtoC ((/ sqrt 2) ^ n)) (RtoC ((/ sqrt 2) ^ n)) (/ 2 ^ n))
    as [Ha Hb]; try done; try apply Cnorm2_uniform.
  by destruct (decide _).
Qed.

Lemma half_marked_rounds_do_not_amplify_witness :
  ∃ qc v,
    Grover_Step_II 1 [1%Z] (Some 7%Z) = ([], Ok qc) ∧
    run qc [] = Some (mkMachine v [] []) ∧
    Cnorm2 (v !!! 1%nat) = / 2 ^ 1.
Proof.
  destruct (half_marked_rounds_do_not_amplify 1 [1%Z] 7)
    as (qc & v & Hqc & Hrun & Hv).
  - discriminate.
  - apply NoDup_singleton.
  - apply Forall_singleton. simpl. lia.
  - reflexivity.
  - exists qc, v. split; [exact Hqc|]. split; [exact Hrun|].
    apply (Hv 1%nat). simpl. lia.
Defined.

(** X13.  Every shot of a circuit built by [Grover] succeeds: with one
    random number of [[0,1)] per qubit the run uses them all, fills the [n]
    classical bits with the binary digits of one index, and that index has
    a non-zero amplitude in the state the rounds prepare (the state of the
    circuit of [Grover_Step_II] for the same arguments). *)
Theorem every_shot_reads_a_possible_index (n : nat) (marks : list Z) (r : Z)
    (rnd : list R) :
  r ≠ 0%Z → in_bounds n marks → shot_ok n rnd →
  ∃ qc qc' v (m : machine) (i : nat),
    Grover n marks (Some r) = ([], Ok qc) ∧
    Grover_Step_II n marks (Some r) = ([], Ok qc') ∧
    run qc' [] = Some (mkMachine v [] []) ∧
    run qc rnd = Some m ∧
    (i < 2 ^ n)%nat ∧ v !!! i ≠ C0 ∧
    length (clbits m) = n ∧
    (∀ j, (j < n)%nat → clbits m !!! j = Nat.testbit i j) ∧
    tape m = [].
Proof.
  intros Hr Hb Hshot.
  destruct (run_grover_circuit n (resolved n marks) (Z.to_nat r) rnd Hshot)
    as (m & i & Hrun & Hi & Hne & Hlen & Hbits & Htape).
  eexists (grover_circuit n (resolved n marks) (Z.to_nat r)), _,
    (rounds_state n (resolved n marks) (Z.to_nat r)), m, i.
  split_and!; try done.
  - apply (Grover_wrap n marks (Some r) [] r); [|by left].
    by apply determine_r_explicit.
  - apply Grover_Step_II_wrap; [done|by left].
  - apply run_Step_II_circuit.
Qed.

Lemma every_shot_reads_a_possible_index_witness :
  ∃ qc (m : machine) (i : nat),
    Grover 2 [(-1)%Z] (Some 3%Z) = ([], Ok qc) ∧
    run qc [/ 2; 0] = Some m ∧
    (∀ j, (j < 2)%nat → clbits m !!! j = Nat.testbit i j) ∧
    tape m = [].
Proof.
  destruct (every_shot_reads_a_possible_index 2 [(-1)%Z] 3 [/ 2; 0])
    as (qc & _ & _ & m & i & Hqc & _ & _ & Hrun & _ & _ & _ & Hbits & Htape).
  - discriminate.
  - apply Forall_singleton. simpl. lia.
  - split; [reflexivity|].
    repeat apply Forall_cons_2; try apply Forall_nil_2; lra.
  - exists qc, m, i. split; [exact Hqc|]. split; [exact Hrun|].
    split; [exact Hbits | exact Htape].
Defined.

Lemma optimal_rounds_crowded (n k : nat) :
  (2 ^ n ≤ k)%nat → optimal_rounds n k = 0%Z.
Proof.
  intros Hk. pose proof (pow2_pos n).
  pose proof (optimal_rounds_antitone n (2 ^ n) k ltac:(done) Hk) as Hle.
  rewrite optimal_rounds_all_marked in Hle.
  pose proof (optimal_rounds_nonneg n k). lia.
Qed.

(** X14.  For [n >= 1], an index [phase_oracle] refuses makes [Grover]
    fail, with the same exception, as soon as one round is built: with a
    positive round count given nothing is printed; with the count left out
    and computed positive, the line with the count is printed first.  The
    exception is that of the first index [i] out of bounds: [IndexError]
    when [i] fits a signed 64-bit integer, [OverflowError] when
    [2^63 <= i < 2^64]. *)
Theorem Grover_index_error (n : nat) (marks pre post : list Z) (i r : Z) :
  (0 < n)%nat →
  marks = pre ++ i :: post → in_bounds n pre →
  (i < - 2 ^ Z.of_nat n ∨ 2 ^ Z.of_nat n ≤ i)%Z →
  (- 2 ^ 63 ≤ i < 2 ^ 64)%Z →
  let e := if decide (i < 2 ^ 63)%Z then IndexError else OverflowError in
  phase_oracle n marks "Oracle" = Raise e ∧
  ((0 < r)%Z → Grover n marks (Some r) = ([], Raise e)) ∧
  (∀ out r', determine_r n marks 0 = (out, Ok r') → (0 < r')%Z →
     out = [rounds_line n marks r'] ∧ Grover n marks None = (out, Raise e)).
Proof.
  intros _ -> Hpre Hi H64 e.
  assert (phase_oracle n (pre ++ i :: post) "Oracle" = Raise e) as Hpo.
  { rewrite (phase_oracle_rejects n _ _ i) by by apply first_rejected_app.
    unfold e. destruct (decide (i < 2 ^ 63)%Z).
    - by rewrite index_error_small.
    - by rewrite index_error_large by lia. }
  split_and!; [done| |].
  - intros Hr. apply (Grover_raises n _ (Some r) [] r); try done.
    apply determine_r_explicit. lia.
  - intros out r' Hdet Hr'. split.
    + destruct (overflows (round_ratio (2 ^ Z.of_nat n)
                             (Z.of_nat (length (pre ++ i :: post))))) eqn:Hov.
      * rewrite determine_r_overflow in Hdet; [done|by destruct pre|done].
      * rewrite determine_r_auto in Hdet; [|by destruct pre|done].
        by injection Hdet as <- <-.
    + by apply (Grover_raises n _ None out r').
Qed.

Lemma Grover_index_error_witness :
  Grover 2 [4%Z] (Some 1%Z) = ([], Raise IndexError) ∧
  Grover 2 [1%Z; 9223372036854775808%Z] (Some 1%Z) = ([], Raise OverflowError).
Proof.
  split.
  - destruct (Grover_index_error 2 [4%Z] [] [] 4 1) as (_ & H & _);
      [lia|reflexivity|apply Forall_nil_2|simpl; lia|simpl; lia|].
    apply H. lia.
  - destruct (Grover_index_error 2 [1%Z; 9223372036854775808%Z] [1%Z] []
                9223372036854775808 1) as (_ & H & _);
      [lia|reflexivity|apply Forall_singleton; simpl; lia|simpl; lia|simpl; lia|].
    apply H. lia.
Defined.

(** X15.  A marked list with at least [2^n] entries switches the search
    off: with the round count left out, the computed count is 0, the line
    printed says so, and the circuit returned is the Hadamard layer followed
    by the measurement; the indices are never looked at, so even indices out
    of range are accepted. *)
Theorem crowded_list_builds_no_round (n : nat) (marks : list Z) :
  (2 ^ n ≤ length marks)%nat →
  optimal_rounds n (length marks) = 0%Z ∧
  Grover n marks None =
    ([rounds_line n marks 0],
     Ok (mkCircuit None n n (h_gates n ++ measure_all n))).
Proof.
  intros Hk. pose proof (optimal_rounds_crowded n (length marks) Hk) as H0.
  split; [done|].
  assert (marks ≠ []) as Hnil.
  { intros ->. pose proof (pow2_pos n). simpl in Hk. lia. }
  assert (1 ≤ length marks)%nat as Hk1 by (destruct marks; [done|simpl; lia]).
  rewrite (Grover_wrap n marks None [rounds_line n marks 0] 0).
  - done.
  - cbn [default from_option]. change (Datatypes.id 0%Z) with 0%Z.
    rewrite determine_r_auto by (done || apply small_quotient_in_range; lia).
    by rewrite computed_rounds_crowded.
  - right. lia.
Qed.

Lemma crowded_list_builds_no_round_witness :
  Grover 1 [7%Z; 7%Z] None =
    ([rounds_line 1 [7%Z; 7%Z] 0],
     Ok (mkCircuit None 1 1 (h_gates 1 ++ measure_all 1))).
Proof.
  apply (crowded_list_builds_no_round 1 [7%Z; 7%Z]). simpl. lia.
Defined.

(** X16.  [Grover] is [Grover_Step_II] with classical bits and the final
    measurement: on every input the two print the same lines and fail with
    the same exception, and when they return, the circuit of [Grover] has
    the instructions of the other followed by the measurement of qubit [q]
    into classical bit [q] for every [q]. *)
Theorem Grover_is_Step_II_measured (n : nat) (marks : list Z) (arg : option Z) :
  Grover n marks arg =
  (fst (Grover_Step_II n marks arg),
   qc ← snd (Grover_Step_II n marks arg);
   Ok (mkCircuit None n n (data qc ++ measure_all n))).
Proof.
  unfold Grover, Grover_Step_II.
  destruct (determine_r n marks (default 0%Z arg)) as [out [r|e]];
    cbn [mbind py_bind]; [|done].
  destruct (rounds_loop_shape n marks (range r)) as [res Hres].
  rewrite !Hres. destruct res as [ops|e]; cbn [mbind result_bind];
    unfold quiet; cbn [mbind py_bind mret py_ret result_bind fst snd]; [|done].
  rewrite !app_nil_r. do 2 f_equal.
  rewrite range_nat. unfold measure, h, new_circuit, emit.
  cbn [name num_qubits num_clbits data app]. by rewrite measure_range.
Qed.

(** X17.  The computed round count [r] stays below the square-root law,
    double precision included: for a non-empty marked list of [k] indices
    and at most 1023 qubits, [r >= 0] and [k * r^2 < 2^n]; and when at most
    half of the indices is marked, at least one round is built. *)
Theorem round_count_square_bound (n : nat) (marks : list Z) :
  marks ≠ [] → (n ≤ 1023)%nat →
  ∃ r, determine_r n marks 0 = ([rounds_line n marks r], Ok r) ∧
       (0 ≤ r)%Z ∧
       (Z.of_nat (length marks) * (r * r) < 2 ^ Z.of_nat n)%Z ∧
       ((2 * length marks ≤ 2 ^ n)%nat → (1 ≤ r)%Z).
Proof.
  intros Hnil Hn. exists (computed_rounds n (length marks)).
  assert (1 ≤ length marks)%nat by (destruct marks; [done|simpl; lia]).
  split; [by apply determine_r_auto_1023|].
  split; [apply computed_rounds_nonneg|].
  split; [by apply computed_rounds_sq_lt|].
  by apply computed_rounds_positive.
Qed.

Lemma round_count_square_bound_witness :
  ∃ r, determine_r 10 [3%Z] 0 = ([rounds_line 10 [3%Z] r], Ok r) ∧
       (1 * (r * r) < 2 ^ 10)%Z.
Proof.
  destruct (round_count_square_bound 10 [3%Z]) as (r & Hr & _ & Hsq & _).
  - discriminate.
  - lia.
  - exists r. split; [exact Hr | exact Hsq].
Defined.

(** X18.  The computed round count grows with the register and shrinks
    with the marked list, and the roundings of double precision do not
    break this: up to 1023 qubits, more qubits never give fewer rounds,
    and more marked indices never give more. *)
Theorem round_count_monotone (n n' : nat) (marks marks' : list Z) :
  marks ≠ [] → (length marks ≤ length marks')%nat →
  (n ≤ n')%nat → (n' ≤ 1023)%nat →
  ∃ r r1 r2,
    snd (determine_r n marks 0) = Ok r ∧
    snd (determine_r n marks' 0) = Ok r1 ∧
    snd (determine_r n' marks 0) = Ok r2 ∧
    (r1 ≤ r ≤ r2)%Z.
Proof.
  intros Hnil Hlen Hn Hn'.
  assert (1 ≤ length marks)%nat by (destruct marks; [done|simpl; lia]).
  assert (marks' ≠ []) by (intros ->; simpl in Hlen; lia).
  exists (computed_rounds n (length marks)), (computed_rounds n (length marks')),
    (computed_rounds n' (length marks)).
  rewrite !determine_r_auto_1023 by (done || lia). split_and!; try done.
  - apply computed_rounds_mono; lia.
  - apply computed_rounds_mono; lia.
Qed.

Lemma round_count_monotone_witness :
  ∃ r r1 r2,
    snd (determine_r 4 [3%Z] 0) = Ok r ∧
    snd (determine_r 4 [3%Z; 5%Z] 0) = Ok r1 ∧
    snd (determine_r 6 [3%Z] 0) = Ok r2 ∧
    (r1 ≤ r ≤ r2)%Z.
Proof.
  apply (round_count_monotone 4 6 [3%Z] [3%Z; 5%Z]).
  - discriminate.
  - simpl. lia.
  - lia.
  - lia.
Defined.

(** X19.  [phase_oracle_explained] returns what [phase_oracle] returns, on
    every input, and shows its work: the identity array, the array with the
    marked cells set to -1 and the operator made from it, in this order.
    When an index is out of bounds only the identity array has been printed
    before the exception of that index is raised: [IndexError] when it fits
    a signed 64-bit integer, [OverflowError] when it lies in
    [[2^63, 2^64)]. *)
Theorem phase_oracle_explained_spec (n : nat) (marks : list Z) (nm : string) :
  snd (phase_oracle_explained n marks nm) = phase_oracle n marks nm ∧
  (in_bounds n marks →
     fst (phase_oracle_explained n marks nm) =
     [PrintedArray (np_identity (2 ^ n));
      PrintedArray (diag (oracle_sign (resolved n marks)) (2 ^ n));
      PrintedOperator (oracle_matrix n (resolved n marks))]) ∧
  (∀ e, phase_oracle n marks nm = Raise e →
     phase_oracle_explained n marks nm =
     ([PrintedArray (np_identity (2 ^ n))], Raise e)) ∧
  (∀ pre i post,
     marks = pre ++ i :: post → in_bounds n pre →
     (i < - 2 ^ Z.of_nat n ∨ 2 ^ Z.of_nat n ≤ i)%Z →
     (- 2 ^ 63 ≤ i < 2 ^ 64)%Z →
     phase_oracle_explained n marks nm =
     ([PrintedArray (np_identity (2 ^ n))],
      Raise (if decide (i < 2 ^ 63)%Z then IndexError else OverflowError))).
Proof.
  split_and!.
  - apply phase_oracle_explained_result.
  - apply phase_oracle_explained_prints.
  - intros e He. destruct (first_rejected_cases n marks) as [Hb|[i Hi]].
    + by rewrite phase_oracle_wrap in He.
    + rewrite (phase_oracle_rejects n marks nm i) in He by done.
      injection He as <-. by apply phase_oracle_explained_prints_on_error.
  - intros pre i post -> Hpre Hi H64.
    rewrite (phase_oracle_explained_prints_on_error n _ nm i)
      by by apply first_rejected_app.
    destruct (decide (i < 2 ^ 63)%Z).
    + by rewrite index_error_small.
    + by rewrite index_error_large by lia.
Qed.

Lemma phase_oracle_explained_spec_witness :
  fst (phase_oracle_explained 2 [1%Z] "Oracle") =
    [PrintedArray (np_identity (2 ^ 2));
     PrintedArray (diag (oracle_sign (resolved 2 [1%Z])) (2 ^ 2));
     PrintedOperator (oracle_matrix 2 (resolved 2 [1%Z]))] ∧
  phase_oracle_explained 2 [4%Z] "Oracle" =
    ([PrintedArray (np_identity (2 ^ 2))], Raise IndexError).
Proof.
  split.
  - apply (proj1 (proj2 (phase_oracle_explained_spec 2 [1%Z] "Oracle"))).
    apply Forall_singleton. simpl. lia.
  - apply (proj2 (proj2 (proj2 (phase_oracle_explained_spec 2 [4%Z] "Oracle")))
             [] 4%Z []); [reflexivity|apply Forall_nil_2|simpl; lia|simpl; lia].
Defined.

(** X20.  [Grover] accepts negative indices as [phase_oracle] does: with
    every index in [[-2^n, 2^n)], for every way of passing the round count,
    it returns the circuit it returns for the resolved indices, and fails
    when that call fails. *)
Theorem Grover_negative_indices (n : nat) (marks : list Z) (arg : option Z) :
  in_bounds n marks →
  snd (Grover n marks arg) = snd (Grover n (resolved n marks) arg).
Proof.
  intros Hb.
  pose proof (resolved_in_range n marks) as Hr.
  pose proof (in_range_in_bounds n _ Hr) as Hb'.
  pose proof (determine_r_length n marks (resolved n marks) (default 0%Z arg)
                (eq_sym (length_resolved n marks))) as Hdet.
  destruct (determine_r n marks (default 0%Z arg)) as [out [r|e]] eqn:E1;
    destruct (determine_r n (resolved n marks) (default 0%Z arg)) as [out' [r'|e']] eqn:E2;
    cbn [snd] in Hdet; try done.
  - injection Hdet as <-.
    rewrite (Grover_wrap n marks arg out r) by (done || by left).
    rewrite (Grover_wrap n (resolved n marks) arg out' r) by (done || by left).
    cbn [snd]. by rewrite (resolved_id n (resolved n marks)).
  - injection Hdet as <-. unfold Grover. by rewrite E1, E2.
Qed.

Lemma Grover_negative_indices_witness :
  snd (Grover 2 [(-3)%Z] (Some 1%Z)) = snd (Grover 2 [1%Z] (Some 1%Z)).
Proof.
  apply (Grover_negative_indices 2 [(-3)%Z] (Some 1%Z)).
  apply Forall_singleton. simpl. lia.
Defined.
